(** * PermissionService: role permissions and client-hierarchy scoping

    A shallow embedding of [backend/src/services/permissionService.js]
    (class [PermissionService]) together with the SQL statements it sends to
    the storage layer, and the properties of the access-control engine that
    hold of it.

    - JavaScript strings are [string], numbers that carry ids and clock
      readings are [Z], a nullable column is an [option].
    - A call of an async method that nothing interrupts is a function from
      the state of the process and its storage (a [World]) to a completion
      (value returned or exception thrown) and the next [World].  Every
      round-trip to the storage may go unanswered, in which case
      [database.query] throws.  For calls that overlap,
      [getUserPermissions] is split at its [await], and a [Service] holds
      the process together with the calls that are suspended.
    - The static [permissionCache] ([Map]) and the plain object built by
      [getUserPermissions] are finite maps keyed by strings. *)

From Stdlib Require Import ZArith Lia Ascii DecimalString DecimalZ.
From stdpp Require Import base option list gmap strings.

Local Open Scope Z_scope.

(** ** JavaScript primitives used by the service *)

Module Js.

(** [!s] for a string: only the empty string is falsy. *)
Definition falsy_string (s : string) : bool :=
  match s with
  | EmptyString => true
  | String _ _ => false
  end.

(** [!n] for a number holding an id: only zero is falsy. *)
Definition falsy_number (n : Z) : bool := n =? 0.

(** Truthiness of a nullable id ([null] and [0] are falsy). *)
Definition truthy_id (n : option Z) : bool :=
  match n with
  | None => false
  | Some k => negb (falsy_number k)
  end.

(** [s.startsWith(p)]. *)
Fixpoint startsWith (p s : string) : bool :=
  match p with
  | EmptyString => true
  | String a p' =>
      match s with
      | EmptyString => false
      | String b s' => Ascii.eqb a b && startsWith p' s'
      end
  end.

(** [s.includes(sub)]: [sub] occurs somewhere in [s]. *)
Fixpoint includes (s sub : string) : bool :=
  startsWith sub s ||
  match s with
  | EmptyString => false
  | String _ s' => includes s' sub
  end.

End Js.

(** ** The SQL fragments the statements rely on *)

Module Sql.

(** [s LIKE pattern] with the wildcards [%] (any run of characters) and
    [_] (any one character).  Bracket classes and collation folding are
    not part of the model; the paths matched below hold digits, [-]
    and [/] only. *)
Fixpoint like (pattern s : string) : bool :=
  match pattern with
  | EmptyString => Js.falsy_string s
  | String c p' =>
      if Ascii.eqb c "%"%char then
        (fix skip (t : string) : bool :=
           like p' t ||
           match t with
           | EmptyString => false
           | String _ t' => skip t'
           end) s
      else
        match s with
        | EmptyString => false
        | String d s' => (Ascii.eqb c "_"%char || Ascii.eqb c d) && like p' s'
        end
  end.

(** [ORDER BY key]: a stable insertion sort on the code-point order of the
    key. *)
Section OrderBy.
Context {A : Type} (key : A → string).

Fixpoint insert_by (x : A) (l : list A) : list A :=
  match l with
  | [] => [x]
  | y :: l' =>
      if String.leb (key x) (key y) then x :: l else y :: insert_by x l'
  end.

Fixpoint order_by (l : list A) : list A :=
  match l with
  | [] => []
  | x :: l' => insert_by x (order_by l')
  end.
End OrderBy.

End Sql.

(** ** Rows of the four tables the service reads *)

Module User.
(** [users]: the columns the service selects. *)
Record row := {
  id : Z;
  roles : string;
  client_id : option Z;
  can_manage_hierarchy : bool
}.
End User.

Module Client.
Inductive kind := root | enterprise | division | department | site | client.

(** [client]: the eleven columns every statement of
    [getAccessibleClients] selects, under their result names ([id] is
    returned as [client_id], [name] as [client_name]). *)
Record row := {
  client_id : Z;
  client_name : string;
  display_name : string;
  contact_email : option string;
  parent_client_id : option Z;
  hierarchy_level : Z;
  hierarchy_path : string;
  client_type : kind;
  is_leaf_node : bool;
  display_order : Z;
  is_active : bool
}.
End Client.

Module RolePermission.
(** [role_permissions], with UNIQUE (role_name, dashboard_id). *)
Record row := {
  role_name : string;
  dashboard_id : Z;
  can_access : bool;
  can_edit : bool;
  can_delete : bool
}.
End RolePermission.

Module Dashboard.
(** [dashboards], with [id] the primary key and [name] UNIQUE. *)
Record row := {
  id : Z;
  name : string;
  display_name : string;
  is_active : bool
}.
End Dashboard.

Record Tables := {
  users : list User.row;
  client : list Client.row;
  role_permissions : list RolePermission.row;
  dashboards : list Dashboard.row
}.

(** ** Values the service builds *)

Module Permission.
(** One value of the object [getUserPermissions] returns. *)
Record t := {
  dashboard_id : Z;
  can_access : bool;
  display_name : string
}.
End Permission.

(** The object returned by [getUserPermissions]: dashboard name to
    permission. *)
Abbreviation PermissionObj := (gmap string Permission.t).

(** A value of [permissionCache]. *)
Record CacheEntry := {
  permissions : PermissionObj;
  timestamp : Z
}.

(** One row of the join [getUserPermissions] selects.  A BIT column reaches
    the service as a boolean. *)
Record PermissionRow := {
  pr_dashboard_id : Z;
  pr_can_access : bool;
  pr_dashboard_name : string;
  pr_dashboard_display_name : string
}.

(** ** The process and its storage *)

Inductive Error :=
| ConnectionError
| SubqueryReturnedMoreThanOneValue.

Inductive completion (A : Type) :=
| Return (a : A)
| Throw (e : Error).
Arguments Return {A} a.
Arguments Throw {A} e.

(** [tables] is the persisted state; [online n] says whether the storage
    answers the round-trip number [n]; [latency] is the time one round-trip
    takes; [now] is the reading of [Date.now()] in milliseconds;
    [permissionCache] is the static cache; [queries] counts the round-trips
    issued so far; [console] collects what [console.error] wrote. *)
Record World := {
  tables : Tables;
  online : nat → bool;
  latency : Z;
  now : Z;
  permissionCache : gmap string CacheEntry;
  queries : nat;
  console : list string
}.

Definition Run (A : Type) : Type := World → completion A * World.

Definition ret {A} (a : A) : Run A := λ w, (Return a, w).

Definition bind {A B} (m : Run A) (k : A → Run B) : Run B :=
  λ w, match m w with
       | (Return a, w') => k a w'
       | (Throw e, w') => (Throw e, w')
       end.

Notation "'let*' x := m 'in' k" := (bind m (λ x, k))
  (at level 10, x pattern, m at level 100, k at level 200).

(** [try { body } catch (error) { handler }]. *)
Definition try_catch {A} (body : Run A) (handler : Error → Run A) : Run A :=
  λ w, match body w with
       | (Return a, w') => (Return a, w')
       | (Throw e, w') => handler e w'
       end.

(** [Date.now()]. *)
Definition Date_now : Run Z := λ w, (Return (now w), w).

Definition logged (message : string) (w : World) : World :=
  {| tables := tables w; online := online w; latency := latency w;
     now := now w; permissionCache := permissionCache w;
     queries := queries w; console := message :: console w |}.

(** [console.error(message, error)]. *)
Definition console_error (message : string) : Run unit :=
  λ w, (Return tt, logged message w).

(** The storage answers the next round-trip. *)
Definition answers (w : World) : bool := online w (queries w).

(** The process once a round-trip is over: it has taken its time and has
    been counted. *)
Definition round_trip (w : World) : World :=
  {| tables := tables w; online := online w;
     latency := latency w; now := now w + latency w;
     permissionCache := permissionCache w;
     queries := S (queries w); console := console w |}.

(** Modelled from the spec: the storage layer [config/database.js], which is
    not among the sources.  [database.query(sql, params)] is one round-trip:
    it evaluates the statement on the persisted tables, and throws when the
    storage does not answer. *)
Definition database_query {A} (statement : Tables → completion A) : Run A :=
  λ w,
    if answers w then (statement (tables w), round_trip w)
    else (Throw ConnectionError, round_trip w).

(** [this.permissionCache.get(key)]. *)
Definition cache_get (key : string) : Run (option CacheEntry) :=
  λ w, (Return (permissionCache w !! key), w).

(** Replaces the cache, leaving the rest of the process as it is. *)
Definition with_cache (f : gmap string CacheEntry → gmap string CacheEntry)
    (w : World) : World :=
  {| tables := tables w; online := online w; latency := latency w;
     now := now w; permissionCache := f (permissionCache w);
     queries := queries w; console := console w |}.

(** [this.permissionCache.set(key, entry)]. *)
Definition cache_set (key : string) (entry : CacheEntry) : Run unit :=
  λ w, (Return tt, with_cache (insert key entry) w).

(** ** The statements *)

(** [SELECT id, roles, client_id (, can_manage_hierarchy) FROM users
     WHERE id = @userId]. *)
Definition select_user (userId : Z) (t : Tables) : completion (list User.row) :=
  Return (filter (λ u, User.id u = userId) (users t)).

(** [SELECT ... FROM client ORDER BY hierarchy_path]. *)
Definition select_all_clients (t : Tables) : completion (list Client.row) :=
  Return (Sql.order_by Client.hierarchy_path (client t)).

(** The scalar subquery
    [(SELECT hierarchy_path + '%' FROM client WHERE id = @clientId)]:
    NULL on no row, an error on more than one. *)
Definition select_path_pattern (clientId : Z) (t : Tables)
    : completion (option string) :=
  match filter (λ c, Client.client_id c = clientId) (client t) with
  | [] => Return None
  | [c] => Return (Some (Client.hierarchy_path c +:+ "%"))
  | _ :: _ :: _ => Throw SubqueryReturnedMoreThanOneValue
  end.

(** The WHERE clause of the branch statement; a LIKE against NULL is not
    true. *)
Definition in_branch (clientId : Z) (pattern : option string)
    (c : Client.row) : bool :=
  Client.is_active c &&
  (bool_decide (Client.client_id c = clientId) ||
   match pattern with
   | Some p => Sql.like p (Client.hierarchy_path c)
   | None => false
   end).

(** [SELECT ... FROM client WHERE is_active = 1 AND (id = @clientId OR
     hierarchy_path LIKE (SELECT hierarchy_path + '%' FROM client
     WHERE id = @clientId)) ORDER BY hierarchy_path].  The parameter
    [pathPattern] the caller also passes is not referred to by the
    statement. *)
Definition select_branch_clients (clientId : Z) (t : Tables)
    : completion (list Client.row) :=
  match select_path_pattern clientId t with
  | Throw e => Throw e
  | Return pattern =>
      Return (Sql.order_by Client.hierarchy_path
                (filter (λ c, in_branch clientId pattern c = true) (client t)))
  end.

(** [SELECT ... FROM client WHERE id = @clientId AND is_active = 1]. *)
Definition select_own_client (clientId : Z) (t : Tables)
    : completion (list Client.row) :=
  Return (filter (λ c, Client.client_id c = clientId ∧
                       Client.is_active c = true) (client t)).

(** The join condition and WHERE clause of the permission statement; the
    comparison of role names is equality of the strings. *)
Definition grants (role : string) (rp : RolePermission.row)
    (d : Dashboard.row) : bool :=
  bool_decide (RolePermission.dashboard_id rp = Dashboard.id d) &&
  bool_decide (RolePermission.role_name rp = role) &&
  Dashboard.is_active d &&
  RolePermission.can_access rp.

(** [SELECT rp.dashboard_id, rp.can_access, d.name as dashboard_name,
     d.display_name as dashboard_display_name
     FROM role_permissions rp JOIN dashboards d ON rp.dashboard_id = d.id
     WHERE rp.role_name = @role AND d.is_active = 1 AND rp.can_access = 1]. *)
Definition select_permissions (role : string) (t : Tables)
    : completion (list PermissionRow) :=
  Return
    (rp ← role_permissions t;
     d ← dashboards t;
     if grants role rp d then
       [ {| pr_dashboard_id := RolePermission.dashboard_id rp;
            pr_can_access := RolePermission.can_access rp;
            pr_dashboard_name := Dashboard.name d;
            pr_dashboard_display_name := Dashboard.display_name d |} ]
     else []).

(** ** PermissionService *)

(** [static cacheTimeout = 5 * 60 * 1000]. *)
Definition cacheTimeout : Z := 5 * 60 * 1000.

(** The key under which a role is cached: [`permissions_${role}`]. *)
Definition cacheKey (role : string) : string := "permissions_" +:+ role.

(** The [forEach] that turns the selected rows into the permission object;
    a later row with the same dashboard name overwrites an earlier one. *)
Definition permissionObj_of (rows : list PermissionRow) : PermissionObj :=
  fold_left
    (λ obj perm,
       <[ pr_dashboard_name perm :=
            {| Permission.dashboard_id := pr_dashboard_id perm;
               Permission.can_access := pr_can_access perm;
               Permission.display_name := pr_dashboard_display_name perm |} ]>
         obj)
    rows ∅.

(** The [try] block of [getUserPermissions] with its [catch]. *)
Definition loadPermissions (role : string) : Run PermissionObj :=
  try_catch
    (let* rows := database_query (select_permissions role) in
     let permissionObj := permissionObj_of rows in
     let* stamp := Date_now in
     let* _ := cache_set (cacheKey role)
                 {| permissions := permissionObj; timestamp := stamp |} in
     ret permissionObj)
    (λ _,
       let* _ := console_error "Error fetching user permissions:" in
       ret ∅).

(** [static async getUserPermissions(role)]: the permissions of a role,
    from the cache while the cached entry is younger than [cacheTimeout],
    from the storage otherwise. *)
Definition getUserPermissions (role : string) : Run PermissionObj :=
  if Js.falsy_string role then ret ∅
  else
    let* cached := cache_get (cacheKey role) in
    match cached with
    | Some entry =>
        let* t := Date_now in
        if t - timestamp entry <? cacheTimeout then ret (permissions entry)
        else loadPermissions role
    | None => loadPermissions role
    end.

(** [permissions[dashboardName]?.can_access === true]. *)
Definition grants_access (permissions : PermissionObj)
    (dashboardName : string) : bool :=
  match permissions !! dashboardName with
  | Some p => Permission.can_access p
  | None => false
  end.

(** [static async hasPermission(role, dashboardName)]. *)
Definition hasPermission (role dashboardName : string) : Run bool :=
  if Js.falsy_string role || Js.falsy_string dashboardName then ret false
  else if String.eqb role "admin" then ret true
  else
    let* permissions := getUserPermissions role in
    ret (grants_access permissions dashboardName).

(** [clearCache(role = null)]: [None] is the call without argument. *)
Definition clearCache (role : option string) : Run unit :=
  λ w,
    match role with
    | Some r =>
        if Js.falsy_string r then (Return tt, with_cache (λ _, ∅) w)
        else (Return tt, with_cache (delete (cacheKey r)) w)
    | None => (Return tt, with_cache (λ _, ∅) w)
    end.

(** [static async getAccessibleClients(userId)].  The statements of the
    branch administrator and of the regular user receive
    [userInfo.client_id], which the test before them has found to be a
    number other than zero. *)
Definition getAccessibleClients (userId : Z) : Run (list Client.row) :=
  if Js.falsy_number userId then ret []
  else
    try_catch
      (let* user := database_query (select_user userId) in
       match user with
       | [] => ret []
       | userInfo :: _ =>
           if String.eqb (User.roles userInfo) "admin" then
             database_query select_all_clients
           else if Js.includes (User.roles userInfo) "_admin"
                   && Js.truthy_id (User.client_id userInfo) then
             database_query
               (select_branch_clients
                  (default 0 (User.client_id userInfo)))
           else if Js.truthy_id (User.client_id userInfo) then
             database_query
               (select_own_client (default 0 (User.client_id userInfo)))
           else ret []
       end)
      (λ _,
         let* _ := console_error "Error getting accessible clients:" in
         ret []).

(** What a statement sent from inside the [try] block of
    [getAccessibleClients] comes to: the rows it selects, or the empty array
    of the [catch] block when the storage does not answer or the statement
    fails. *)
Definition rows_or_caught (statement : Tables → completion (list Client.row))
    : Run (list Client.row) :=
  try_catch (database_query statement)
    (λ _,
       let* _ := console_error "Error getting accessible clients:" in
       ret []).

(** [accessibleClients.some(client => client.client_id === clientId)]. *)
Definition some_client (clientId : Z) (rows : list Client.row) : bool :=
  existsb (λ c, Client.client_id c =? clientId) rows.

(** [static async canUserAccessClient(userId, clientId)]. *)
Definition canUserAccessClient (userId clientId : Z) : Run bool :=
  if Js.falsy_number userId || Js.falsy_number clientId then ret false
  else
    try_catch
      (let* accessibleClients := getAccessibleClients userId in
       ret (some_client clientId accessibleClients))
      (λ _,
         let* _ := console_error "Error checking client access:" in
         ret false).

(** [static async canUserManageClient(userId, clientId)]. *)
Definition canUserManageClient (userId clientId : Z) : Run bool :=
  if Js.falsy_number userId || Js.falsy_number clientId then ret false
  else
    try_catch
      (let* user := database_query (select_user userId) in
       match user with
       | [] => ret false
       | userInfo :: _ =>
           if String.eqb (User.roles userInfo) "admin" then ret true
           else if User.can_manage_hierarchy userInfo
                   && Js.truthy_id (User.client_id userInfo) then
             let* accessibleClients := getAccessibleClients userId in
             ret (some_client clientId accessibleClients)
           else ret false
       end)
      (λ _,
         let* _ := console_error "Error checking client management access:" in
         ret false).

(** ** What the claims speak about *)

(** The permission object the persisted matrix resolves to for a role. *)
Definition resolved (t : Tables) (role : string) : PermissionObj :=
  match select_permissions role t with
  | Return rows => permissionObj_of rows
  | Throw _ => ∅
  end.

(** [rp] is the entry of the permission matrix for [role] and the dashboard
    named [dashboardName]. *)
Definition permission_entry (t : Tables) (role dashboardName : string)
    (rp : RolePermission.row) : Prop :=
  rp ∈ role_permissions t ∧
  RolePermission.role_name rp = role ∧
  ∃ d, d ∈ dashboards t ∧ Dashboard.name d = dashboardName ∧
       RolePermission.dashboard_id rp = Dashboard.id d.

(** The constraints of the schema: UNIQUE (role_name, dashboard_id) on
    [role_permissions], UNIQUE (name) on [dashboards]. *)
Definition matrix_keys (t : Tables) : Prop :=
  (∀ rp1 rp2, rp1 ∈ role_permissions t → rp2 ∈ role_permissions t →
     RolePermission.role_name rp1 = RolePermission.role_name rp2 →
     RolePermission.dashboard_id rp1 = RolePermission.dashboard_id rp2 →
     rp1 = rp2) ∧
  (∀ d1 d2, d1 ∈ dashboards t → d2 ∈ dashboards t →
     Dashboard.name d1 = Dashboard.name d2 → d1 = d2).

(** The entry cached for [role] is still within its time-to-live. *)
Definition within_ttl (w : World) (entry : CacheEntry) : Prop :=
  now w - timestamp entry < cacheTimeout.

(** No unexpired entry of the cache for [role] differs from what the
    persisted matrix resolves to. *)
Definition cache_coherent (role : string) (w : World) : Prop :=
  ∀ entry, permissionCache w !! cacheKey role = Some entry →
           within_ttl w entry →
           permissions entry = resolved (tables w) role.

(** A call for [role] goes to the storage: nothing is cached for the role,
    or what is cached has outlived its time-to-live. *)
Definition expired (role : string) (w : World) : Prop :=
  ∀ entry, permissionCache w !! cacheKey role = Some entry →
           cacheTimeout ≤ now w - timestamp entry.

(** The process right after a successful load for [role]. *)
Definition loaded (role : string) (w : World) : World :=
  with_cache
    (insert (cacheKey role)
       {| permissions := resolved (tables w) role;
          timestamp := now w + latency w |})
    (round_trip w).

(** The process after [d] milliseconds have passed. *)
Definition elapse (d : Z) (w : World) : World :=
  {| tables := tables w; online := online w; latency := latency w;
     now := now w + d; permissionCache := permissionCache w;
     queries := queries w; console := console w |}.

(** The process after the availability of the storage has changed. *)
Definition set_online (up : nat → bool) (w : World) : World :=
  {| tables := tables w; online := up; latency := latency w;
     now := now w; permissionCache := permissionCache w;
     queries := queries w; console := console w |}.

(** The process after the persisted tables have been overwritten. *)
Definition persist (t : Tables) (w : World) : World :=
  {| tables := t; online := online w; latency := latency w;
     now := now w; permissionCache := permissionCache w;
     queries := queries w; console := console w |}.

(** One move of an installation whose calls do not overlap and that keeps
    to the rule of the spec for administrative writes: a call of the
    service run to its end, the passing of time, an outage beginning or
    ending, or a write of the tables followed by the eviction of the
    cache. *)
Inductive step : World → World → Prop :=
| step_getUserPermissions role w :
    step w (snd (getUserPermissions role w))
| step_hasPermission role dashboardName w :
    step w (snd (hasPermission role dashboardName w))
| step_getAccessibleClients userId w :
    step w (snd (getAccessibleClients userId w))
| step_clearCache role w :
    step w (snd (clearCache role w))
| step_elapse d w :
    0 ≤ d → step w (elapse d w)
| step_outage up w :
    step w (set_online up w)
| step_write t w :
    step w (snd (clearCache None (persist t w))).

(** The states such an installation passes through after its start. *)
Inductive reachable : World → Prop :=
| reachable_boot w :
    permissionCache w = ∅ → 0 ≤ latency w → reachable w
| reachable_step w w' :
    reachable w → step w w' → reachable w'.

(** Decimal rendering of an id. *)
Definition decimal (n : Z) : string := NilEmpty.string_of_int (Z.to_int n).

(** The ids of a chain, each closed by a slash. *)
Fixpoint segments (chain : list Z) : string :=
  match chain with
  | [] => ""
  | i :: rest => decimal i +:+ "/" +:+ segments rest
  end.

(** Modelled from the spec: the content of the [hierarchy_path] column, whose
    maintenance is not among the sources.  It is the ancestor id chain from
    the root to the node itself; every id stands between slashes, as the
    pattern [`%/${userInfo.client_id}/%`] built by [getAccessibleClients]
    presupposes: the chain 1, 2, 5 is stored as [/1/2/5/]. *)
Definition path_of (chain : list Z) : string := "/" +:+ segments chain.

(** [chain] is the ancestor id chain of [c], found by walking
    [parent_client_id] up to the root. *)
Inductive has_chain (cs : list Client.row) : Client.row → list Z → Prop :=
| chain_root c :
    c ∈ cs → Client.parent_client_id c = None →
    has_chain cs c [Client.client_id c]
| chain_child c parent chain :
    c ∈ cs → Client.parent_client_id c = Some (Client.client_id parent) →
    has_chain cs parent chain →
    has_chain cs c (chain ++ [Client.client_id c]).

(** The invariant of the client table: [id] is a key, and every
    [hierarchy_path] is the chain obtained by walking the parents. *)
Definition hierarchy_consistent (cs : list Client.row) : Prop :=
  NoDup (Client.client_id <$> cs) ∧
  ∀ c, c ∈ cs → ∃ chain, has_chain cs c chain ∧
                         Client.hierarchy_path c = path_of chain.

(** [c] lies in the closed subtree rooted at the node with id [top]: it is
    that node, or its parent lies in the subtree. *)
Inductive in_subtree (cs : list Client.row) (top : Z) : Client.row → Prop :=
| subtree_top c :
    c ∈ cs → Client.client_id c = top → in_subtree cs top c
| subtree_child c parent :
    c ∈ cs → Client.parent_client_id c = Some (Client.client_id parent) →
    in_subtree cs top parent → in_subtree cs top c.

(** A string without the wildcards of LIKE. *)
Fixpoint plain (s : string) : bool :=
  match s with
  | EmptyString => true
  | String c s' =>
      negb (Ascii.eqb c "%"%char) && negb (Ascii.eqb c "_"%char) && plain s'
  end.

(** A string without a slash. *)
Fixpoint slash_free (s : string) : bool :=
  match s with
  | EmptyString => true
  | String c s' => negb (Ascii.eqb c "/"%char) && slash_free s'
  end.

(** [u] is the principal behind [userId]: the row [user[0]] that the lookup
    of a usable id yields. *)
Definition principal (w : World) (userId : Z) (u : User.row) : Prop :=
  userId ≠ 0 ∧
  head (filter (λ x, User.id x = userId) (users (tables w))) = Some u.

(** The users table with every [can_manage_hierarchy] flag replaced. *)
Definition flag_users (flag : User.row → bool) (w : World) : World :=
  {| tables :=
       {| users :=
            (λ u, {| User.id := User.id u; User.roles := User.roles u;
                     User.client_id := User.client_id u;
                     User.can_manage_hierarchy := flag u |})
              <$> users (tables w);
          client := client (tables w);
          role_permissions := role_permissions (tables w);
          dashboards := dashboards (tables w) |};
     online := online w; latency := latency w; now := now w;
     permissionCache := permissionCache w; queries := queries w;
     console := console w |}.

(** [sub] occurs in [s]. *)
Definition contains (s sub : string) : Prop :=
  ∃ front back, s = front +:+ sub +:+ back.

(** The matrix grants [role] the dashboard [d]: the dashboard is active and
    an entry of the role for it has [can_access] set. *)
Definition granted (t : Tables) (role : string) (d : Dashboard.row) : Prop :=
  d ∈ dashboards t ∧ Dashboard.is_active d = true ∧
  ∃ rp, rp ∈ role_permissions t ∧
        RolePermission.role_name rp = role ∧
        RolePermission.dashboard_id rp = Dashboard.id d ∧
        RolePermission.can_access rp = true.

(** The permission object [m] is the persisted permission state of [role]:
    it has a property for the dashboards granted to the role and for no
    other name, under the name of the dashboard, with its id and its
    display name. *)
Definition reflects (t : Tables) (role : string) (m : PermissionObj) : Prop :=
  ∀ dashboardName p,
    m !! dashboardName = Some p ↔
    ∃ d, granted t role d ∧ Dashboard.name d = dashboardName ∧
         p = {| Permission.dashboard_id := Dashboard.id d;
                Permission.can_access := true;
                Permission.display_name := Dashboard.display_name d |}.

(** ** A small installation *)

Module Sample.

Definition node (i : Z) (parent : option Z) (level : Z) (path : string)
    (kind : Client.kind) (leaf active : bool) : Client.row :=
  {| Client.client_id := i;
     Client.client_name := "client-" +:+ decimal i;
     Client.display_name := "Client " +:+ decimal i;
     Client.contact_email := None;
     Client.parent_client_id := parent;
     Client.hierarchy_level := level;
     Client.hierarchy_path := path;
     Client.client_type := kind;
     Client.is_leaf_node := leaf;
     Client.display_order := i;
     Client.is_active := active |}.

(** root(1) → division(2) → site(5), with the sibling site(6) under the
    root and a deactivated site(9) under the division. *)
Definition root1 := node 1 None 0 "/1/" Client.root false true.
Definition division2 := node 2 (Some 1) 1 "/1/2/" Client.division false true.
Definition site5 := node 5 (Some 2) 2 "/1/2/5/" Client.site true true.
Definition site6 := node 6 (Some 1) 1 "/1/6/" Client.site true true.
Definition site9 := node 9 (Some 2) 2 "/1/2/9/" Client.site true false.

Definition user (i : Z) (role : string) (assigned : option Z)
    (manages : bool) : User.row :=
  {| User.id := i; User.roles := role; User.client_id := assigned;
     User.can_manage_hierarchy := manages |}.

Definition iot : Dashboard.row :=
  {| Dashboard.id := 1; Dashboard.name := "iot_dashboard";
     Dashboard.display_name := "IoT Device Dashboard";
     Dashboard.is_active := true |}.
Definition motor : Dashboard.row :=
  {| Dashboard.id := 2; Dashboard.name := "motor_dashboard";
     Dashboard.display_name := "Motor Device Dashboard";
     Dashboard.is_active := true |}.

Definition entry (role : string) (dashboard : Z) (access edit del : bool)
    : RolePermission.row :=
  {| RolePermission.role_name := role;
     RolePermission.dashboard_id := dashboard;
     RolePermission.can_access := access;
     RolePermission.can_edit := edit;
     RolePermission.can_delete := del |}.

(** The scenario of the spec: the four-node tree, and a viewer role that
    may open the IoT dashboard only. *)
Definition db : Tables :=
  {| users := [ user 1 "admin" (Some 6) false;
                user 2 "paddy_admin" (Some 2) false;
                user 3 "viewer" (Some 5) true;
                user 4 "user" None true ];
     client := [ root1; division2; site5; site6 ];
     role_permissions := [ entry "viewer" 1 true false false;
                           entry "viewer" 2 false true true ];
     dashboards := [ iot; motor ] |}.

(** The same installation with the deactivated site. *)
Definition db_with_closed_site : Tables :=
  {| users := users db;
     client := [ root1; division2; site5; site9; site6 ];
     role_permissions := role_permissions db;
     dashboards := dashboards db |}.

(** The matrix after an administrator has withdrawn the viewer's access to
    the IoT dashboard. *)
Definition db_withdrawn : Tables :=
  {| users := users db;
     client := client db;
     role_permissions := [ entry "viewer" 1 false false false;
                           entry "viewer" 2 false true true ];
     dashboards := dashboards db |}.

(** A client table whose paths do not close an id by a slash: the paths of
    node 2 and of its sibling 20 begin alike. *)
Definition db_unterminated : Tables :=
  {| users := users db;
     client := [ node 1 None 0 "1" Client.root false true;
                 node 2 (Some 1) 1 "1/2" Client.division true true;
                 node 20 (Some 1) 1 "1/20" Client.division true true ];
     role_permissions := role_permissions db;
     dashboards := dashboards db |}.

(** The matrix after an administrator has also granted the viewer the Motor
    dashboard. *)
Definition db_extended : Tables :=
  {| users := users db;
     client := client db;
     role_permissions := [ entry "viewer" 1 true false false;
                           entry "viewer" 2 true true true ];
     dashboards := dashboards db |}.

(** Two principals assigned to the division: a manager flagged
    [can_manage_hierarchy] whose role name has no [_admin] in it, and an
    unflagged one whose role name has [_admin] in its middle. *)
Definition db_managers : Tables :=
  {| users := [ user 7 "manager" (Some 2) true;
                user 8 "site_admin_eu" (Some 2) false ];
     client := client db;
     role_permissions := role_permissions db;
     dashboards := dashboards db |}.

(** An installation with a third dashboard, named [__proto__], that the
    viewer may open as well. *)
Definition db_proto : Tables :=
  {| users := users db;
     client := client db;
     role_permissions := [ entry "viewer" 1 true false false;
                           entry "viewer" 3 true false false ];
     dashboards := [ iot; motor;
                     {| Dashboard.id := 3; Dashboard.name := "__proto__";
                        Dashboard.display_name := "Prototype Dashboard";
                        Dashboard.is_active := true |} ] |}.

(** A freshly started process at clock reading [t]. *)
Definition boot (t : Tables) (up : bool) (clock : Z) : World :=
  {| tables := t; online := λ _, up; latency := 20; now := clock;
     permissionCache := ∅; queries := 0; console := [] |}.

(** The process [w] after the clock has advanced by [elapsed] and the
    persisted tables have become [t]. *)
Definition later (t : Tables) (elapsed : Z) (w : World) : World :=
  {| tables := t; online := online w; latency := latency w;
     now := now w + elapsed; permissionCache := permissionCache w;
     queries := queries w; console := console w |}.

End Sample.

(** ** The methods the claims leave aside *)

(** [s.slice(n)]: the string without its first [n] characters. *)
Fixpoint string_drop (n : nat) (s : string) : string :=
  match n, s with
  | O, _ => s
  | S _, EmptyString => EmptyString
  | S n', String _ s' => string_drop n' s'
  end.

(** [s.replace(pattern, replacement)] for a pattern that is a string: the
    first occurrence of the pattern is replaced, the rest is kept.  The
    replacement is taken as it stands; the service passes the empty
    string. *)
Fixpoint replace_first (pattern replacement s : string) : string :=
  if Js.startsWith pattern s then
    replacement +:+ string_drop (String.length pattern) s
  else
    match s with
    | EmptyString => EmptyString
    | String c s' => String c (replace_first pattern replacement s')
    end.

(** [static async canAccessIoTDashboard(role, clientId = null)]; the second
    argument is the deprecated client id. *)
Definition canAccessIoTDashboard (role : string) (clientId : option Z)
    : Run bool :=
  if String.eqb role "admin" then ret true
  else
    let* hasRolePermission := hasPermission role "iot_dashboard" in
    ret hasRolePermission.

(** [static async canAccessMotorDashboard(role, clientId = null)]. *)
Definition canAccessMotorDashboard (role : string) (clientId : option Z)
    : Run bool :=
  if String.eqb role "admin" then ret true
  else
    let* hasRolePermission := hasPermission role "motor_dashboard" in
    ret hasRolePermission.

Module AccessibleDashboard.
(** One element of the array [getAccessibleDashboards] returns. *)
Record t := {
  name : string;
  display_name : string
}.
End AccessibleDashboard.

(** [Object.entries(obj)] for an object built from [{}] by assignments
    [obj[name] = value] of objects: its own properties.  The finite map
    holds, for every name assigned, the value a read of [obj[name]] finds.
    Every assignment creates an own property but the one to the name
    [__proto__]: that one goes to the setter inherited from
    [Object.prototype] and makes the value the prototype of [obj], where
    the read [obj['__proto__']] finds it again, and [Object.entries] does
    not list it.  A finite map does not record the order in which its keys
    were inserted, so the entries come in the order of the map and only the
    elements of the array are spoken about. *)
Definition Object_entries {V : Type} (obj : gmap string V)
    : list (string * V) :=
  filter (λ entry, entry.1 ≠ "__proto__") (map_to_list obj).

(** [static async getAccessibleDashboards(role, clientId = null)].  The
    loop runs over [Object.entries(permissions)]. *)
Definition getAccessibleDashboards (role : string) (clientId : option Z)
    : Run (list AccessibleDashboard.t) :=
  let* permissions := getUserPermissions role in
  ret (entry ← Object_entries permissions;
       if Permission.can_access entry.2 then
         [ {| AccessibleDashboard.name := entry.1;
              AccessibleDashboard.display_name :=
                Permission.display_name entry.2 |} ]
       else []).

(** The array the loop of [getAccessibleDashboards] builds from a
    permission object. *)
Definition listing (m : PermissionObj) : list AccessibleDashboard.t :=
  entry ← Object_entries m;
  if Permission.can_access entry.2 then
    [ {| AccessibleDashboard.name := entry.1;
         AccessibleDashboard.display_name :=
           Permission.display_name entry.2 |} ]
  else [].

(** [for (const item of items) { await body(item); }]: an error thrown by
    the body ends the loop. *)
Fixpoint for_of {A} (items : list A) (body : A → Run unit) : Run unit :=
  match items with
  | [] => ret tt
  | item :: rest => let* _ := body item in for_of rest body
  end.

(** [Array.from(this.permissionCache.keys())], in the order of the map. *)
Definition cached_keys (w : World) : list string :=
  (map_to_list (permissionCache w)).*1.

(** [static async refreshAllCaches()]: the roles are read off the keys, the
    cache is cleared, and every role is loaded again. *)
Definition refreshAllCaches : Run unit :=
  λ w,
    let roles := replace_first "permissions_" "" <$> cached_keys w in
    for_of roles
      (λ role, let* _ := getUserPermissions role in ret tt)
      (with_cache (λ _, ∅) w).

(** The process after the loop of [refreshAllCaches] has run over
    [roles]. *)
Abbreviation reloaded roles w :=
  (fold_left (λ w' role, snd (getUserPermissions role w')) roles w).

(** A call of one of the ten static methods of the service. *)
Inductive Call :=
| CanUserAccessClient (userId clientId : Z)
| CanUserManageClient (userId clientId : Z)
| GetAccessibleClients (userId : Z)
| GetUserPermissions (role : string)
| HasPermission (role dashboardName : string)
| CanAccessIoTDashboard (role : string) (clientId : option Z)
| CanAccessMotorDashboard (role : string) (clientId : option Z)
| GetAccessibleDashboards (role : string) (clientId : option Z)
| ClearCache (role : option string)
| RefreshAllCaches.

(** The process once the call has completed. *)
Definition after (c : Call) (w : World) : World :=
  match c with
  | CanUserAccessClient userId clientId =>
      snd (canUserAccessClient userId clientId w)
  | CanUserManageClient userId clientId =>
      snd (canUserManageClient userId clientId w)
  | GetAccessibleClients userId => snd (getAccessibleClients userId w)
  | GetUserPermissions role => snd (getUserPermissions role w)
  | HasPermission role dashboardName =>
      snd (hasPermission role dashboardName w)
  | CanAccessIoTDashboard role clientId =>
      snd (canAccessIoTDashboard role clientId w)
  | CanAccessMotorDashboard role clientId =>
      snd (canAccessMotorDashboard role clientId w)
  | GetAccessibleDashboards role clientId =>
      snd (getAccessibleDashboards role clientId w)
  | ClearCache role => snd (clearCache role w)
  | RefreshAllCaches => snd (refreshAllCaches w)
  end.

(** *** Calls that overlap

    An [async] method runs until its next [await] and is resumed when the
    promise it awaits has settled; in between, other calls, writes and
    evictions take their turn.  [getUserPermissions] has one [await], on
    [database.query]. *)

(** A call of [getUserPermissions] suspended at its [await]: the role it
    was called for, the number of the round-trip it has started, and the
    answer of the storage once the storage has evaluated the statement. *)
Record Load := {
  load_role : string;
  load_query : nat;
  load_answer : option (completion (list PermissionRow))
}.

(** What the storage answers to the statement of a suspended call when it
    evaluates it in the process [w]: the rows the tables hold at that
    moment, or nothing if it does not answer this round-trip. *)
Definition storage_answer (l : Load) (w : World)
    : completion (list PermissionRow) :=
  if online w (load_query l) then select_permissions (load_role l) (tables w)
  else Throw ConnectionError.

(** The statement of [getUserPermissions] goes to the storage and the call
    is suspended; the round-trip is counted and its time charged as
    [database_query] does. *)
Definition send_load (role : string) (w : World)
    : (PermissionObj + Load) * World :=
  (inr {| load_role := role; load_query := queries w; load_answer := None |},
   round_trip w).

(** [getUserPermissions] up to its [await]: the call returns at once (no
    role, or an entry of the cache within its time-to-live), or it sends
    its statement and is suspended. *)
Definition getUserPermissions_sent (role : string) (w : World)
    : (PermissionObj + Load) * World :=
  if Js.falsy_string role then (inl ∅, w)
  else
    match permissionCache w !! cacheKey role with
    | Some entry =>
        if now w - timestamp entry <? cacheTimeout
        then (inl (permissions entry), w)
        else send_load role w
    | None => send_load role w
    end.

(** [getUserPermissions] from its [await] on: the rest of the [try] block
    when the storage has answered, the [catch] block when it has not. *)
Definition getUserPermissions_resumed (role : string)
    (answer : completion (list PermissionRow)) : Run PermissionObj :=
  try_catch
    (let* rows := (λ w, (answer, w)) in
     let permissionObj := permissionObj_of rows in
     let* stamp := Date_now in
     let* _ := cache_set (cacheKey role)
                 {| permissions := permissionObj; timestamp := stamp |} in
     ret permissionObj)
    (λ _,
       let* _ := console_error "Error fetching user permissions:" in
       ret ∅).

(** The process together with the calls of [getUserPermissions] that are
    suspended. *)
Record Service := {
  process : World;
  awaiting : list Load
}.

(** What happens in one turn.  [Begin] is a call of [getUserPermissions],
    from outside or from [hasPermission], [getAccessibleDashboards] or
    [refreshAllCaches], run up to its [await]; [Answer] is the storage
    evaluating the statement of a suspended call; [Resume] resumes a
    suspended call that has its answer; [Clear] is [clearCache], or the
    [clear()] of [refreshAllCaches]; [Query] and [Log] are the round-trips
    and the [console.error] of the methods that resolve clients; [Persist]
    is a write of the tables; [Elapse] moves the wall clock; [Outage]
    changes which round-trips the storage answers. *)
Inductive Move :=
| Begin (role : string)
| Answer (n : nat)
| Resume (n : nat)
| Clear (role : option string)
| Persist (t : Tables)
| Elapse (d : Z)
| Outage (up : nat → bool)
| Query
| Log (message : string).

Definition move (m : Move) (s : Service) : Service :=
  match m with
  | Begin role =>
      match getUserPermissions_sent role (process s) with
      | (inl _, w) => {| process := w; awaiting := awaiting s |}
      | (inr l, w) => {| process := w; awaiting := l :: awaiting s |}
      end
  | Answer n =>
      match awaiting s !! n with
      | Some l =>
          match load_answer l with
          | None =>
              {| process := process s;
                 awaiting :=
                   <[ n := {| load_role := load_role l;
                              load_query := load_query l;
                              load_answer :=
                                Some (storage_answer l (process s)) |} ]>
                     (awaiting s) |}
          | Some _ => s
          end
      | None => s
      end
  | Resume n =>
      match awaiting s !! n with
      | Some l =>
          match load_answer l with
          | Some answer =>
              {| process :=
                   snd (getUserPermissions_resumed (load_role l) answer
                          (process s));
                 awaiting := delete n (awaiting s) |}
          | None => s
          end
      | None => s
      end
  | Clear role =>
      {| process := snd (clearCache role (process s));
         awaiting := awaiting s |}
  | Persist t =>
      {| process := persist t (process s); awaiting := awaiting s |}
  | Elapse d =>
      {| process := elapse d (process s); awaiting := awaiting s |}
  | Outage up =>
      {| process := set_online up (process s); awaiting := awaiting s |}
  | Query =>
      {| process := round_trip (process s); awaiting := awaiting s |}
  | Log message =>
      {| process := logged message (process s); awaiting := awaiting s |}
  end.

(** The turns taken one after the other. *)
Definition run (moves : list Move) (s : Service) : Service :=
  fold_left (λ s' m, move m s') moves s.

(** A process with no call under way. *)
Definition started (w : World) : Service :=
  {| process := w; awaiting := [] |}.

(** The states an installation passes through after a start with an empty
    cache, its calls overlapping in whatever way, its tables written at
    whatever moment. *)
Inductive in_service : Service → Prop :=
| in_service_boot w :
    permissionCache w = ∅ → in_service (started w)
| in_service_move m s :
    in_service s → in_service (move m s).

(** The cache holds grants only, under the keys of roles with a name. *)
Definition cache_well_formed (w : World) : Prop :=
  ∀ key entry,
    permissionCache w !! key = Some entry →
    (∃ role, role ≠ "" ∧ key = cacheKey role) ∧
    ∀ dashboardName p,
      permissions entry !! dashboardName = Some p →
      Permission.can_access p = true.

(** A suspended call was made for a role with a name, and the rows it
    holds all grant access. *)
Definition load_well_formed (l : Load) : Prop :=
  load_role l ≠ "" ∧
  ∀ rows row, load_answer l = Some (Return rows) → row ∈ rows →
              pr_can_access row = true.

(** A sound cache: every key is the key of a role with a name, every
    cached permission grants access, and an entry that has not expired is
    what the matrix resolves to. *)
Definition cache_sound (w : World) : Prop :=
  0 ≤ latency w ∧
  ∀ key entry,
    permissionCache w !! key = Some entry →
    ∃ role, role ≠ "" ∧ key = cacheKey role ∧
      (∀ dashboardName p,
         permissions entry !! dashboardName = Some p →
         Permission.can_access p = true) ∧
      (within_ttl w entry → permissions entry = resolved (tables w) role).

(** Every key of the cache is the key of a role with a name. *)
Definition keys_of_roles (w : World) : Prop :=
  ∀ key, is_Some (permissionCache w !! key) →
         ∃ role, role ≠ "" ∧ key = cacheKey role.

(** ** Strings, patterns and paths *)

Section Strings.

Lemma append_cons a (s t : string) : String a s +:+ t = String a (s +:+ t).
Proof. reflexivity. Qed.

Lemma append_empty (t : string) : "" +:+ t = t.
Proof. reflexivity. Qed.

Lemma startsWith_cons a b (p s : string) :
  Js.startsWith (String a p) (String b s)
  = Ascii.eqb a b && Js.startsWith p s.
Proof. reflexivity. Qed.

Lemma startsWith_empty_r (p : string) :
  Js.startsWith p "" = true → p = "".
Proof. destruct p; simpl; [done | discriminate]. Qed.

Lemma startsWith_trans (p q s : string) :
  Js.startsWith p q = true → Js.startsWith q s = true →
  Js.startsWith p s = true.
Proof.
  revert q s. induction p as [|a p IH]; intros q s; simpl; [done |].
  destruct q as [|b q]; [discriminate |]. simpl.
  destruct s as [|c s]; [discriminate |].
  intros [Hab Hp]%andb_true_iff [Hbc Hq]%andb_true_iff.
  apply Ascii.eqb_eq in Hab, Hbc. subst.
  rewrite Ascii.eqb_refl. simpl. eauto.
Qed.

(** [%] alone matches every string. *)
Lemma like_any (s : string) : Sql.like "%" s = true.
Proof.
  induction s as [|a s IH]; [reflexivity |].
  simpl in *. exact IH.
Qed.

(** A pattern [p%] whose [p] holds no wildcard is a prefix test. *)
Lemma like_prefix_pattern (p s : string) :
  plain p = true → Sql.like (p +:+ "%") s = Js.startsWith p s.
Proof.
  revert s. induction p as [|c p IH]; intros s Hp.
  - rewrite append_empty. apply like_any.
  - simpl in Hp. apply andb_true_iff in Hp as [Hc Hp].
    apply andb_true_iff in Hc as [Hpct Hund].
    apply negb_true_iff in Hpct, Hund.
    rewrite append_cons. simpl. rewrite Hpct, Hund. simpl.
    destruct s as [|d s]; [done |]. by rewrite IH.
Qed.

(** Two slash-free words followed by a slash: one begins the other only if
    they are the same word. *)
Lemma startsWith_word (x y s1 s2 : string) :
  slash_free x = true → slash_free y = true →
  Js.startsWith (x +:+ "/" +:+ s1) (y +:+ "/" +:+ s2) = true ↔
  x = y ∧ Js.startsWith s1 s2 = true.
Proof.
  revert y. induction x as [|a x IH]; intros y Hx Hy.
  - destruct y as [|b y].
    + rewrite !append_empty, !append_cons, !append_empty.
      rewrite startsWith_cons. simpl. tauto.
    + simpl in Hy. apply andb_true_iff in Hy as [Hb _].
      apply negb_true_iff in Hb.
      rewrite !append_empty, !append_cons, !append_empty.
      rewrite startsWith_cons, Ascii.eqb_sym, Hb. simpl.
      split; [discriminate | intros [? _]; discriminate].
  - simpl in Hx. apply andb_true_iff in Hx as [Ha Hx].
    apply negb_true_iff in Ha.
    destruct y as [|b y].
    + rewrite !append_empty, !append_cons, !append_empty.
      rewrite startsWith_cons, Ha. simpl.
      split; [discriminate | intros [? _]; discriminate].
    + simpl in Hy. apply andb_true_iff in Hy as [_ Hy].
      rewrite (append_cons a), (append_cons b), startsWith_cons.
      rewrite andb_true_iff, IH by done.
      rewrite Ascii.eqb_eq.
      split; [intros [-> [-> ?]] | intros [[= -> ->] ?]]; auto.
Qed.

Lemma uint_chars (d : Decimal.uint) :
  slash_free (NilEmpty.string_of_uint d) = true ∧
  plain (NilEmpty.string_of_uint d) = true.
Proof. induction d; simpl; tauto. Qed.

Lemma decimal_slash_free (n : Z) : slash_free (decimal n) = true.
Proof.
  unfold decimal. destruct (Z.to_int n) as [d|d]; simpl;
    apply uint_chars.
Qed.

Lemma decimal_plain (n : Z) : plain (decimal n) = true.
Proof.
  unfold decimal. destruct (Z.to_int n) as [d|d]; simpl;
    apply uint_chars.
Qed.

Lemma decimal_inj (m n : Z) : decimal m = decimal n → m = n.
Proof.
  unfold decimal. intros H.
  assert (Some (Z.to_int m) = Some (Z.to_int n)) as [= Hi].
  { rewrite <- !NilEmpty.isi. by rewrite H. }
  rewrite <- (DecimalZ.of_to m), <- (DecimalZ.of_to n). by rewrite Hi.
Qed.

Lemma plain_append (s t : string) :
  plain s = true → plain t = true → plain (s +:+ t) = true.
Proof.
  induction s as [|a s IH]; [done |]. simpl.
  intros [Ha Hs]%andb_true_iff Ht. rewrite Ha. simpl. auto.
Qed.

Lemma segments_plain (chain : list Z) : plain (segments chain) = true.
Proof.
  induction chain as [|i chain IH]; [done |]. simpl.
  apply plain_append; [apply decimal_plain | exact IH].
Qed.

Lemma path_of_plain (chain : list Z) : plain (path_of chain) = true.
Proof. unfold path_of. simpl. apply segments_plain. Qed.

(** On stored paths, beginning with a path is extending its chain. *)
Lemma segments_prefix (l1 l2 : list Z) :
  Js.startsWith (segments l1) (segments l2) = true ↔ l1 `prefix_of` l2.
Proof.
  revert l2. induction l1 as [|a l1 IH]; intros l2.
  - simpl. split; [intros _; apply prefix_nil | done].
  - destruct l2 as [|b l2].
    + split; [|intros []%prefix_nil_not].
      intros H%startsWith_empty_r. simpl in H.
      destruct (decimal a); discriminate.
    + simpl. rewrite startsWith_word by apply decimal_slash_free.
      rewrite IH. split.
      * intros [->%decimal_inj H]. by apply prefix_cons.
      * intros H. split.
        -- f_equal. by apply prefix_cons_inv_1 in H.
        -- by apply prefix_cons_inv_2 in H.
Qed.

Lemma path_of_prefix (l1 l2 : list Z) :
  Js.startsWith (path_of l1) (path_of l2) = true ↔ l1 `prefix_of` l2.
Proof.
  unfold path_of. rewrite !append_cons. simpl. apply segments_prefix.
Qed.

Lemma path_of_inj (l1 l2 : list Z) : path_of l1 = path_of l2 → l1 = l2.
Proof.
  intros H. apply (anti_symm prefix); apply path_of_prefix.
  - rewrite H. apply path_of_prefix. done.
  - rewrite <- H. apply path_of_prefix. done.
Qed.

End Strings.

(** ** Keys, ordering and the client tree *)

Section Keys.
Context {A K : Type} `{EqDecision K} (f : A → K).

Lemma key_unique (l : list A) (x y : A) :
  NoDup (f <$> l) → x ∈ l → y ∈ l → f x = f y → x = y.
Proof.
  induction l as [|a l IH]; intros Hnd Hx Hy Hxy; [by inversion Hx |].
  rewrite fmap_cons in Hnd. apply NoDup_cons in Hnd as [Ha Hnd].
  apply elem_of_cons in Hx as [->|Hx]; apply elem_of_cons in Hy as [->|Hy];
    auto.
  - exfalso. apply Ha. rewrite Hxy. by apply list_elem_of_fmap_2.
  - exfalso. apply Ha. rewrite <- Hxy. by apply list_elem_of_fmap_2.
Qed.

Lemma filter_key_absent (l : list A) (k : K) :
  (∀ x, x ∈ l → f x ≠ k) → filter (λ x, f x = k) l = [].
Proof.
  induction l as [|a l IH]; intros H; [done |].
  rewrite filter_cons_False by (apply H; left).
  apply IH. intros x Hx. apply H. by right.
Qed.

(** Selecting on a key returns the one row that carries it. *)
Lemma filter_key_found (l : list A) (c : A) :
  NoDup (f <$> l) → c ∈ l → filter (λ x, f x = f c) l = [c].
Proof.
  induction l as [|a l IH]; intros Hnd Hc; [by inversion Hc |].
  rewrite fmap_cons in Hnd. apply NoDup_cons in Hnd as [Ha Hnd].
  apply elem_of_cons in Hc as [->|Hc].
  - rewrite filter_cons_True by done. f_equal.
    apply filter_key_absent. intros x Hx Hxa. apply Ha.
    rewrite <- Hxa. by apply list_elem_of_fmap_2.
  - rewrite filter_cons_False; [by apply IH |].
    intros Hac. apply Ha. rewrite Hac. by apply list_elem_of_fmap_2.
Qed.
End Keys.

Section OrderByFacts.
Context {A : Type} (key : A → string).

Lemma elem_of_insert_by (x y : A) (l : list A) :
  y ∈ Sql.insert_by key x l ↔ y = x ∨ y ∈ l.
Proof.
  induction l as [|a l IH]; simpl.
  - rewrite list_elem_of_singleton. split; [auto | intros [|H]; [done |]].
    by inversion H.
  - destruct (String.leb (key x) (key a)).
    + by rewrite elem_of_cons.
    + rewrite !elem_of_cons, IH. tauto.
Qed.

(** ORDER BY returns the rows it was given. *)
Lemma elem_of_order_by (y : A) (l : list A) :
  y ∈ Sql.order_by key l ↔ y ∈ l.
Proof.
  induction l as [|a l IH]; simpl; [done |].
  rewrite elem_of_insert_by, elem_of_cons, IH. tauto.
Qed.
End OrderByFacts.

Section Hierarchy.
Variable cs : list Client.row.
Hypothesis consistent : hierarchy_consistent cs.

Lemma prefix_snoc_cases {A} (l1 l2 : list A) (x : A) :
  l1 `prefix_of` l2 ++ [x] → l1 `prefix_of` l2 ∨ l1 = l2 ++ [x].
Proof.
  intros [k Hk]. destruct k as [|y k _] using rev_ind.
  - right. by rewrite app_nil_r in Hk.
  - left. rewrite app_assoc in Hk.
    apply app_inj_tail in Hk as [-> _]. by exists k.
Qed.

Lemma has_chain_elem (c : Client.row) (chain : list Z) :
  has_chain cs c chain → c ∈ cs.
Proof. by destruct 1. Qed.

Lemma has_chain_last (c : Client.row) (chain : list Z) :
  has_chain cs c chain → last chain = Some (Client.client_id c).
Proof. destruct 1; [done | apply last_snoc]. Qed.

Lemma client_key (c1 c2 : Client.row) :
  c1 ∈ cs → c2 ∈ cs → Client.client_id c1 = Client.client_id c2 → c1 = c2.
Proof. destruct consistent as [Hnd _]. by apply key_unique. Qed.

(** A node has one chain. *)
Lemma has_chain_functional (c : Client.row) (l1 l2 : list Z) :
  has_chain cs c l1 → has_chain cs c l2 → l1 = l2.
Proof.
  intros H1. revert l2.
  induction H1 as [c Hc Hroot|c p l Hc Hp Hl IH]; intros l2 H2.
  - destruct H2 as [c _ _|c p' l' _ Hp' _]; [done | congruence].
  - destruct H2 as [c _ Hroot|c p' l' _ Hp' Hl']; [congruence |].
    assert (p' = p) as ->.
    { apply client_key; eauto using has_chain_elem. congruence. }
    by rewrite (IH _ Hl').
Qed.

Lemma stored_path (c : Client.row) (chain : list Z) :
  has_chain cs c chain → Client.hierarchy_path c = path_of chain.
Proof.
  intros H. destruct consistent as [_ Hpaths].
  destruct (Hpaths c (has_chain_elem _ _ H)) as (l & Hl & ->).
  by rewrite (has_chain_functional _ _ _ H Hl).
Qed.

Lemma subtree_of_prefix (top c : Client.row) (lt lc : list Z) :
  has_chain cs top lt → has_chain cs c lc → lt `prefix_of` lc →
  in_subtree cs (Client.client_id top) c.
Proof.
  intros Ht Hc. revert lt Ht.
  induction Hc as [c Hc Hroot|c p l Hc Hp Hl IH]; intros lt Ht Hpre.
  - apply subtree_top; [done |].
    pose proof (has_chain_last _ _ Ht) as Hlast.
    destruct Hpre as [k Hk]. destruct lt as [|i lt]; [done |].
    injection Hk as -> Hk. symmetry in Hk.
    apply app_eq_nil in Hk as [-> ->]. by injection Hlast.
  - apply prefix_snoc_cases in Hpre as [Hpre| ->].
    + eapply subtree_child; eauto.
    + apply subtree_top; [done |].
      pose proof (has_chain_last _ _ Ht) as Hlast.
      rewrite last_snoc in Hlast. by injection Hlast.
Qed.

Lemma prefix_of_subtree (top c : Client.row) (lt : list Z) :
  has_chain cs top lt → in_subtree cs (Client.client_id top) c →
  ∀ lc, has_chain cs c lc → lt `prefix_of` lc.
Proof.
  intros Ht. induction 1 as [c Hc Hid|c p Hc Hp Hsub IH]; intros lc Hlc.
  - assert (c = top) as ->
      by (apply client_key; eauto using has_chain_elem).
    by rewrite (has_chain_functional _ _ _ Hlc Ht).
  - destruct Hlc as [c _ Hroot|c p' l' _ Hp' Hl']; [congruence |].
    assert (p' = p) as ->.
    { assert (p ∈ cs) by (by destruct Hsub).
      apply client_key; eauto using has_chain_elem. congruence. }
    apply prefix_app_r. by apply IH.
Qed.

(** The stored path of [top] begins the stored path of [c] exactly when
    [c] lies in the closed subtree rooted at [top]. *)
Lemma path_prefix_iff_subtree (top c : Client.row) :
  top ∈ cs → c ∈ cs →
  Js.startsWith (Client.hierarchy_path top) (Client.hierarchy_path c) = true
  ↔ in_subtree cs (Client.client_id top) c.
Proof.
  intros Htop Hc. destruct consistent as [_ Hpaths].
  destruct (Hpaths _ Htop) as (lt & Hlt & ->).
  destruct (Hpaths _ Hc) as (lc & Hlc & ->).
  rewrite path_of_prefix. split.
  - by apply subtree_of_prefix.
  - intros H. by eapply prefix_of_subtree.
Qed.

(** A node lies in the closed subtree rooted at [top] exactly when [top]
    is on its ancestor chain. *)
Lemma subtree_iff_on_chain (top : Z) (c : Client.row) (chain : list Z) :
  has_chain cs c chain → in_subtree cs top c ↔ top ∈ chain.
Proof.
  intros Hc. split.
  - intros Hsub. revert chain Hc.
    induction Hsub as [c Hin Hid|c p Hin Hp Hsub IH]; intros chain Hc.
    + apply has_chain_last in Hc. rewrite Hid in Hc.
      by apply last_Some_elem_of.
    + destruct Hc as [c _ Hroot|c p' l' _ Hp' Hl']; [congruence |].
      assert (p' = p) as ->.
      { assert (p ∈ cs) by (by destruct Hsub).
        apply client_key; eauto using has_chain_elem. congruence. }
      apply elem_of_app. left. by apply IH.
  - induction Hc as [c Hin Hroot|c p l Hin Hp Hl IH].
    + intros Htop%list_elem_of_singleton. by apply subtree_top.
    + intros [Hl'|Htop%list_elem_of_singleton]%elem_of_app.
      * eapply subtree_child; eauto.
      * by apply subtree_top.
Qed.

Lemma subtree_iff_on_path (top : Z) (c : Client.row) :
  c ∈ cs →
  in_subtree cs top c ↔
  ∃ chain, Client.hierarchy_path c = path_of chain ∧ top ∈ chain.
Proof.
  intros Hin. destruct consistent as [_ Hpaths].
  destruct (Hpaths c Hin) as (chain & Hchain & Hpath). split.
  - intros Hsub. exists chain. split; [done |].
    by apply (subtree_iff_on_chain top c chain).
  - intros (chain' & Hpath' & Htop).
    rewrite Hpath in Hpath'. apply path_of_inj in Hpath' as <-.
    by apply (subtree_iff_on_chain top c chain).
Qed.

Lemma subtree_has_top (top : Z) (c : Client.row) :
  in_subtree cs top c → ∃ t, t ∈ cs ∧ Client.client_id t = top.
Proof. induction 1; eauto. Qed.

(** The WHERE clause of the branch statement, with the pattern its
    subquery yields, selects the active rows of the closed subtree. *)
Lemma select_branch_clients_spec (t : Tables) (clientId : Z) :
  client t = cs →
  ∃ rows, select_branch_clients clientId t = Return rows ∧
    ∀ c, c ∈ rows ↔
         c ∈ cs ∧ Client.is_active c = true ∧ in_subtree cs clientId c.
Proof.
  intros Hcs. unfold select_branch_clients, select_path_pattern.
  rewrite Hcs.
  assert ((∃ top, top ∈ cs ∧ Client.client_id top = clientId) ∨
          ¬ (∃ top, top ∈ cs ∧ Client.client_id top = clientId))
    as [(top & Htop & <-)|Hnone].
  { destruct (filter (λ c, Client.client_id c = clientId) cs)
      as [|x l] eqn:Hf.
    - right. intros (x & Hx & Hid).
      by apply (filter_nil_not_elem_of _ _ x Hf Hid).
    - left. exists x.
      assert (x ∈ filter (λ c, Client.client_id c = clientId) cs) as Hx
        by (rewrite Hf; left).
      apply list_elem_of_filter in Hx. tauto. }
  - rewrite (filter_key_found Client.client_id)
      by (by destruct consistent).
    eexists; split; [reflexivity |]. intros c.
    rewrite elem_of_order_by, list_elem_of_filter.
    unfold in_branch. rewrite andb_true_iff, orb_true_iff.
    rewrite bool_decide_eq_true.
    rewrite like_prefix_pattern.
    2:{ destruct consistent as [_ Hpaths].
        destruct (Hpaths _ Htop) as (lt & _ & ->). apply path_of_plain. }
    split.
    + intros [[Hact [Hid|Hpre]] Hc]; (split; [done |]); (split; [done |]).
      * by apply subtree_top.
      * by apply path_prefix_iff_subtree.
    + intros (Hc & Hact & Hsub). split; [|done]. split; [done |].
      right. by apply path_prefix_iff_subtree.
  - rewrite filter_key_absent by (intros x Hx Hid; apply Hnone; eauto).
    eexists; split; [reflexivity |]. intros c.
    rewrite elem_of_order_by, list_elem_of_filter.
    unfold in_branch. rewrite andb_true_iff, orb_true_iff.
    rewrite bool_decide_eq_true.
    split.
    + intros [[_ [Hid|?]] Hc]; [|done]. exfalso. apply Hnone. eauto.
    + intros (_ & _ & Hsub). exfalso. apply Hnone.
      by apply subtree_has_top in Hsub.
Qed.
End Hierarchy.

(** ** The client-hierarchy resolver *)

Section Resolver.

(** [getAccessibleClients] spelled out by cases. *)
Lemma getAccessibleClients_unfold (userId : Z) (w : World) :
  getAccessibleClients userId w =
  if userId =? 0 then (Return [], w)
  else if answers w then
    match filter (λ x, User.id x = userId) (users (tables w)) with
    | [] => (Return [], round_trip w)
    | u :: _ =>
        if String.eqb (User.roles u) "admin" then
          rows_or_caught select_all_clients (round_trip w)
        else if Js.includes (User.roles u) "_admin"
                && Js.truthy_id (User.client_id u) then
          rows_or_caught
            (select_branch_clients (default 0 (User.client_id u)))
            (round_trip w)
        else if Js.truthy_id (User.client_id u) then
          rows_or_caught
            (select_own_client (default 0 (User.client_id u)))
            (round_trip w)
        else (Return [], round_trip w)
    end
  else (Return [],
        logged "Error getting accessible clients:" (round_trip w)).
Proof.
  unfold getAccessibleClients, Js.falsy_number.
  destruct (userId =? 0); [reflexivity |].
  unfold rows_or_caught, try_catch, bind, database_query, select_user,
    console_error, ret.
  destruct (answers w) eqn:Hon; [|reflexivity].
  destruct (filter _ (users (tables w))) as [|u rest]; [reflexivity |].
  destruct (String.eqb (User.roles u) "admin"); [reflexivity |].
  destruct (Js.includes (User.roles u) "_admin"
            && Js.truthy_id (User.client_id u)); [reflexivity |].
  by destruct (Js.truthy_id (User.client_id u)).
Qed.

Lemma rows_or_caught_result
    (statement : Tables → completion (list Client.row)) (w : World) :
  fst (rows_or_caught statement w)
  = if answers w then
      match statement (tables w) with
      | Return rows => Return rows
      | Throw _ => Return []
      end
    else Return [].
Proof.
  unfold rows_or_caught, try_catch, database_query.
  destruct (answers w); [|done]. by destruct (statement (tables w)).
Qed.

(** The rows of an answered statement. *)
Lemma rows_or_caught_answered
    (statement : Tables → completion (list Client.row)) (w : World) :
  answers w = true →
  fst (rows_or_caught statement w)
  = match statement (tables w) with
    | Return rows => Return rows
    | Throw _ => Return []
    end.
Proof. intros Hon. by rewrite rows_or_caught_result, Hon. Qed.

(** The statement sent or not, answered or not, no error leaves. *)
Lemma rows_or_caught_world
    (statement : Tables → completion (list Client.row)) (w : World) :
  snd (rows_or_caught statement w) = round_trip w ∨
  snd (rows_or_caught statement w)
  = logged "Error getting accessible clients:" (round_trip w).
Proof.
  unfold rows_or_caught, try_catch, database_query.
  destruct (answers w); [|by right].
  destruct (statement (tables w)); [by left | by right].
Qed.

Lemma rows_or_caught_unanswered
    (statement : Tables → completion (list Client.row)) (w : World) :
  answers w = false → fst (rows_or_caught statement w) = Return [].
Proof. intros Hoff. by rewrite rows_or_caught_result, Hoff. Qed.

Lemma principal_lookup (w : World) (userId : Z) (u : User.row) :
  principal w userId u →
  (userId =? 0) = false ∧
  ∃ rest, filter (λ x, User.id x = userId) (users (tables w)) = u :: rest.
Proof.
  intros [Hid Hhead]. split; [by apply Z.eqb_neq |].
  destruct (filter _ (users (tables w))) as [|u' rest]; [done |].
  injection Hhead as ->. eauto.
Qed.

Lemma truthy_id_Some (n : Z) : n ≠ 0 → Js.truthy_id (Some n) = true.
Proof.
  intros H. unfold Js.truthy_id, Js.falsy_number.
  by apply negb_true_iff, Z.eqb_neq.
Qed.

Lemma not_admin (role : string) :
  role ≠ "admin" → String.eqb role "admin" = false.
Proof. intros H. by apply String.eqb_neq. Qed.

Lemma sample_consistent : hierarchy_consistent (client Sample.db).
Proof.
  split.
  - apply (bool_decide_unpack _). by vm_compute.
  - assert (has_chain (client Sample.db) Sample.root1 [1]) as H1.
    { apply (chain_root _ Sample.root1); [set_solver | done]. }
    assert (has_chain (client Sample.db) Sample.division2 [1; 2]) as H2.
    { apply (chain_child _ Sample.division2 Sample.root1 [1]);
        [set_solver | done | done]. }
    assert (has_chain (client Sample.db) Sample.site5 [1; 2; 5]) as H5.
    { apply (chain_child _ Sample.site5 Sample.division2 [1; 2]);
        [set_solver | done | done]. }
    assert (has_chain (client Sample.db) Sample.site6 [1; 6]) as H6.
    { apply (chain_child _ Sample.site6 Sample.root1 [1]);
        [set_solver | done | done]. }
    intros c Hc. simpl in Hc.
    repeat (apply elem_of_cons in Hc as [->|Hc]); [..|by inversion Hc];
      eexists; (split; [eassumption | reflexivity]).
Qed.

End Resolver.

Section Principals.

Lemma filter_flagged (flag : User.row → bool) (userId : Z)
    (l : list User.row) :
  filter (λ x, User.id x = userId)
    ((λ u, {| User.id := User.id u; User.roles := User.roles u;
              User.client_id := User.client_id u;
              User.can_manage_hierarchy := flag u |}) <$> l)
  = (λ u, {| User.id := User.id u; User.roles := User.roles u;
             User.client_id := User.client_id u;
             User.can_manage_hierarchy := flag u |})
      <$> filter (λ x, User.id x = userId) l.
Proof.
  induction l as [|a l IH]; [done |].
  rewrite fmap_cons, !filter_cons. simpl.
  destruct (decide (User.id a = userId)); by rewrite IH.
Qed.

(** [startsWith] and [includes] say what they are named for. *)
Lemma startsWith_iff (p s : string) :
  Js.startsWith p s = true ↔ ∃ back, s = p +:+ back.
Proof.
  revert s. induction p as [|a p IH]; intros s.
  - split; [intros _; by exists s | done].
  - destruct s as [|b s]; simpl.
    + split; [done | intros [back Hback]; discriminate Hback].
    + rewrite andb_true_iff, IH. split.
      * intros [->%Ascii.eqb_eq [back ->]]. by exists back.
      * intros [back Hback]. rewrite append_cons in Hback.
        injection Hback as -> ->. split; [apply Ascii.eqb_refl | eauto].
Qed.

Lemma includes_unfold (s sub : string) :
  Js.includes s sub
  = Js.startsWith sub s ||
    match s with
    | EmptyString => false
    | String _ s' => Js.includes s' sub
    end.
Proof. by destruct s. Qed.

Lemma includes_contains (s sub : string) :
  Js.includes s sub = true ↔ contains s sub.
Proof.
  split.
  - induction s as [|c s IH]; rewrite includes_unfold, orb_true_iff.
    + intros [[back ->]%startsWith_iff|H]; [by exists "", back | done].
    + intros [[back ->]%startsWith_iff|H]; [by exists "", back |].
      destruct (IH H) as (front & back & ->).
      by exists (String c front), back.
  - intros (front & back & ->).
    induction front as [|c front IH]; rewrite includes_unfold, orb_true_iff.
    + left. apply startsWith_iff. by exists back.
    + right. exact IH.
Qed.

Lemma lacks_not_included (s sub : string) :
  ¬ contains s sub → Js.includes s sub = false.
Proof.
  intros Hlacks. apply not_true_is_false. by intros H%includes_contains.
Qed.

Lemma admin_lacks_suffix : Js.includes "admin" "_admin" = false.
Proof. reflexivity. Qed.

Lemma includes_not_admin (role : string) :
  Js.includes role "_admin" = true → String.eqb role "admin" = false.
Proof.
  intros H. apply String.eqb_neq. intros ->.
  by rewrite admin_lacks_suffix in H.
Qed.

(** What a principal who is neither the administrator nor assigned to a
    branch receives: the active row of the assigned client. *)
Lemma own_client_rows (w : World) (userId : Z) (u : User.row) (C : Z) :
  principal w userId u →
  answers w = true → answers (round_trip w) = true →
  User.roles u ≠ "admin" → Js.includes (User.roles u) "_admin" = false →
  User.client_id u = Some C → C ≠ 0 →
  fst (getAccessibleClients userId w) =
  Return (filter (λ c, Client.client_id c = C ∧ Client.is_active c = true)
            (client (tables w))).
Proof.
  intros [Hid [rest Hu]]%principal_lookup Hon Hon' Hrole Hincl Hc HC.
  rewrite getAccessibleClients_unfold, Hid, Hon, Hu.
  rewrite (not_admin _ Hrole), Hincl, Hc, (truthy_id_Some _ HC).
  simpl. by rewrite rows_or_caught_answered.
Qed.

(** Selecting the active row with a given key. *)
Lemma filter_own_client (cs : list Client.row) (own : Client.row) :
  NoDup (Client.client_id <$> cs) → own ∈ cs →
  Client.is_active own = true →
  filter (λ c, Client.client_id c = Client.client_id own ∧
               Client.is_active c = true) cs = [own].
Proof.
  intros Hkey Hown Hactive.
  rewrite (list_filter_iff _
             (λ c, Client.is_active c = true ∧
                   Client.client_id c = Client.client_id own))
    by (intros c; tauto).
  rewrite <- list_filter_filter.
  rewrite (filter_key_found Client.client_id _ own Hkey Hown).
  by apply filter_singleton_True.
Qed.

End Principals.

(** ** Properties of the resolver *)

(** C2, as amended.  For an administrator, [getAccessibleClients] returns
    every row of the client table, active or deactivated, whatever client
    the administrator is assigned to. *)
Theorem admin_sees_every_client (w : World) (userId : Z) (u : User.row) :
  principal w userId u → User.roles u = "admin" →
  answers w = true → answers (round_trip w) = true →
  ∃ rows, fst (getAccessibleClients userId w) = Return rows ∧
          ∀ c, c ∈ rows ↔ c ∈ client (tables w).
Proof.
  intros [Hid [rest Hu]]%principal_lookup Hrole Hon Hon'.
  rewrite getAccessibleClients_unfold, Hid, Hon, Hu, Hrole. simpl.
  rewrite rows_or_caught_answered by done.
  eexists; split; [reflexivity |].
  intros c. apply elem_of_order_by.
Qed.

Lemma admin_sees_every_client_witness :
  let w := Sample.boot Sample.db_with_closed_site true 0 in
  let u := Sample.user 1 "admin" (Some 6) false in
  principal w 1 u ∧ User.roles u = "admin" ∧
  answers w = true ∧ answers (round_trip w) = true ∧
  ∃ rows, fst (getAccessibleClients 1 w) = Return rows ∧
          ∀ c, c ∈ rows ↔ c ∈ client (tables w).
Proof.
  intros w u.
  assert (principal w 1 u) as Hp by (split; [lia | reflexivity]).
  pose proof (admin_sees_every_client w 1 u Hp eq_refl eq_refl eq_refl)
    as Hrows.
  exact (conj Hp (conj eq_refl (conj eq_refl (conj eq_refl Hrows)))).
Defined.

(** C2, the claim as stated fails: the statement of the administrator has
    no [is_active] condition, so the deactivated site 9 is returned. *)
Lemma admin_sees_deactivated_client :
  ∃ rows,
    fst (getAccessibleClients 1 (Sample.boot Sample.db_with_closed_site true 0))
    = Return rows ∧
    Client.client_id <$> rows = [1; 2; 5; 9; 6] ∧
    Sample.site9 ∈ rows ∧ Client.is_active Sample.site9 = false.
Proof.
  eexists. split; [vm_compute; reflexivity |].
  split; [reflexivity |]. split; [|reflexivity].
  do 3 right. left.
Qed.

(** C3.  For a branch administrator assigned to client [C],
    [getAccessibleClients] returns exactly the active rows of the closed
    subtree rooted at [C]: the row of [C] and every active row that has [C]
    on the ancestor chain its [hierarchy_path] holds.  In the tree
    root(1) → division(2) → site(5) with the sibling site(6) under the root,
    the branch administrator at node 2 receives nodes 2 and 5 and not
    node 6. *)
Theorem branch_admin_sees_closed_subtree :
  (∀ (w : World) (userId : Z) (u : User.row) (C : Z),
     principal w userId u →
     answers w = true → answers (round_trip w) = true →
     Js.includes (User.roles u) "_admin" = true →
     User.client_id u = Some C → C ≠ 0 →
     hierarchy_consistent (client (tables w)) →
     ∃ rows, fst (getAccessibleClients userId w) = Return rows ∧
       (∀ c, c ∈ rows ↔
             c ∈ client (tables w) ∧ Client.is_active c = true ∧
             in_subtree (client (tables w)) C c) ∧
       (∀ c, c ∈ rows ↔
             c ∈ client (tables w) ∧ Client.is_active c = true ∧
             ∃ chain, Client.hierarchy_path c = path_of chain ∧ C ∈ chain) ∧
       (∀ own, own ∈ client (tables w) → Client.client_id own = C →
               Client.is_active own = true → own ∈ rows)) ∧
  fst (getAccessibleClients 2 (Sample.boot Sample.db true 0))
  = Return [Sample.division2; Sample.site5].
Proof.
  split; [|vm_compute; reflexivity].
  intros w userId u C [Hid [rest Hu]]%principal_lookup Hon Hon' Hincl Hc HC
    Hok.
  rewrite getAccessibleClients_unfold, Hid, Hon, Hu.
  rewrite (includes_not_admin _ Hincl), Hincl, Hc, (truthy_id_Some _ HC).
  simpl. rewrite rows_or_caught_answered by done.
  change (tables (round_trip w)) with (tables w).
  destruct (select_branch_clients_spec _ Hok (tables w) C eq_refl)
    as (rows & -> & Hrows).
  exists rows. split; [done |]. split; [done |]. split.
  - intros c. rewrite Hrows. split.
    + intros (Hin & Hact & Hsub). split; [done |]. split; [done |].
      by apply (subtree_iff_on_path _ Hok C c Hin).
    + intros (Hin & Hact & Hpath). split; [done |]. split; [done |].
      by apply (subtree_iff_on_path _ Hok C c Hin).
  - intros own Hown Hid' Hactive. apply Hrows.
    split; [done |]. split; [done |]. by apply subtree_top.
Qed.

Lemma branch_admin_sees_closed_subtree_witness :
  let w := Sample.boot Sample.db true 0 in
  let u := Sample.user 2 "paddy_admin" (Some 2) false in
  principal w 2 u ∧ answers w = true ∧ answers (round_trip w) = true ∧
  Js.includes (User.roles u) "_admin" = true ∧
  User.client_id u = Some 2 ∧ 2 ≠ 0 ∧
  hierarchy_consistent (client (tables w)) ∧
  ∃ rows, fst (getAccessibleClients 2 w) = Return rows ∧
    (∀ c, c ∈ rows ↔
          c ∈ client (tables w) ∧ Client.is_active c = true ∧
          in_subtree (client (tables w)) 2 c) ∧
    (∀ c, c ∈ rows ↔
          c ∈ client (tables w) ∧ Client.is_active c = true ∧
          ∃ chain, Client.hierarchy_path c = path_of chain ∧ 2 ∈ chain) ∧
    (∀ own, own ∈ client (tables w) → Client.client_id own = 2 →
            Client.is_active own = true → own ∈ rows).
Proof.
  intros w u.
  assert (principal w 2 u) as Hp by (split; [lia | reflexivity]).
  assert (2 ≠ 0) as H2 by lia.
  pose proof (proj1 branch_admin_sees_closed_subtree w 2 u 2 Hp eq_refl
                eq_refl eq_refl eq_refl H2 sample_consistent) as Hrows.
  exact (conj Hp (conj eq_refl (conj eq_refl (conj eq_refl (conj eq_refl
          (conj H2 (conj sample_consistent Hrows))))))).
Defined.

(** The invariant on the stored paths carries the result: were an id not
    closed by a slash, the pattern of node 2 would also match its
    sibling 20. *)
Example unterminated_paths_match_siblings :
  Client.client_id <$>
    match fst (getAccessibleClients 2
                 (Sample.boot Sample.db_unterminated true 0)) with
    | Return rows => rows
    | Throw _ => []
    end
  = [2; 20].
Proof. reflexivity. Qed.

(** C4.  For a principal that is neither the administrator nor a branch
    administrator and is assigned to the active client [C],
    [getAccessibleClients] returns the row of [C] and nothing else. *)
Theorem regular_user_sees_own_client (w : World) (userId : Z)
    (u : User.row) (own : Client.row) :
  principal w userId u →
  answers w = true → answers (round_trip w) = true →
  User.roles u ≠ "admin" → Js.includes (User.roles u) "_admin" = false →
  User.client_id u = Some (Client.client_id own) →
  Client.client_id own ≠ 0 →
  NoDup (Client.client_id <$> client (tables w)) →
  own ∈ client (tables w) → Client.is_active own = true →
  fst (getAccessibleClients userId w) = Return [own].
Proof.
  intros Hp Hon Hon' Hrole Hincl Hc HC Hkey Hown Hactive.
  rewrite (own_client_rows w userId u _ Hp Hon Hon' Hrole Hincl Hc HC).
  f_equal. by apply filter_own_client.
Qed.

Lemma regular_user_sees_own_client_witness :
  let w := Sample.boot Sample.db true 0 in
  let u := Sample.user 3 "viewer" (Some 5) true in
  principal w 3 u ∧ answers w = true ∧ answers (round_trip w) = true ∧
  User.roles u ≠ "admin" ∧ Js.includes (User.roles u) "_admin" = false ∧
  User.client_id u = Some (Client.client_id Sample.site5) ∧
  Client.client_id Sample.site5 ≠ 0 ∧
  NoDup (Client.client_id <$> client (tables w)) ∧
  Sample.site5 ∈ client (tables w) ∧ Client.is_active Sample.site5 = true ∧
  fst (getAccessibleClients 3 w) = Return [Sample.site5].
Proof.
  intros w u.
  assert (principal w 3 u) as Hp by (split; [lia | reflexivity]).
  assert (User.roles u ≠ "admin") as Hrole by discriminate.
  assert (Client.client_id Sample.site5 ≠ 0) as Hid by (simpl; lia).
  assert (NoDup (Client.client_id <$> client (tables w))) as Hkey
    by apply sample_consistent.
  assert (Sample.site5 ∈ client (tables w)) as Hown
    by (do 2 right; left).
  pose proof (regular_user_sees_own_client w 3 u Sample.site5 Hp eq_refl
                eq_refl Hrole eq_refl eq_refl Hid Hkey Hown eq_refl) as Hrows.
  exact (conj Hp (conj eq_refl (conj eq_refl (conj Hrole (conj eq_refl
          (conj eq_refl (conj Hid (conj Hkey (conj Hown
            (conj eq_refl Hrows)))))))))).
Defined.

(** C5.  For a principal that is not the administrator and has no assigned
    client, [getAccessibleClients] returns the empty array; it returns it as
    a value, whether or not the storage answers, and after the one lookup of
    the user. *)
Theorem unassigned_user_sees_nothing (w : World) (userId : Z)
    (u : User.row) :
  principal w userId u → User.roles u ≠ "admin" →
  User.client_id u = None →
  fst (getAccessibleClients userId w) = Return [] ∧
  queries (snd (getAccessibleClients userId w)) = S (queries w).
Proof.
  intros [Hid [rest Hu]]%principal_lookup Hrole Hc.
  rewrite getAccessibleClients_unfold, Hid.
  destruct (answers w); [|done].
  rewrite Hu, (not_admin _ Hrole), Hc. simpl.
  by rewrite andb_false_r.
Qed.

Lemma unassigned_user_sees_nothing_witness :
  let w := Sample.boot Sample.db true 0 in
  let u := Sample.user 4 "user" None true in
  principal w 4 u ∧ User.roles u ≠ "admin" ∧ User.client_id u = None ∧
  fst (getAccessibleClients 4 w) = Return [] ∧
  queries (snd (getAccessibleClients 4 w)) = S (queries w).
Proof.
  intros w u.
  assert (principal w 4 u) as Hp by (split; [lia | reflexivity]).
  assert (User.roles u ≠ "admin") as Hrole by discriminate.
  pose proof (unassigned_user_sees_nothing w 4 u Hp Hrole eq_refl) as Hrows.
  exact (conj Hp (conj Hrole (conj eq_refl Hrows))).
Defined.

(** C10.  [getAccessibleClients] never reads [can_manage_hierarchy]: its
    result is the same whatever the flags are.  A principal whose role name
    does not contain [_admin] receives at most the row of the assigned
    client, flagged or not.  A principal whose role name contains [_admin],
    anywhere in it, and who is assigned to a client receives the active rows
    of the closed subtree of that client, flagged or not.
    [canUserManageClient] is where the flag is read.  In the tree of the
    scenario, the flagged manager assigned to the division receives the
    division alone, the unflagged [site_admin_eu] assigned to it receives
    the division and its site. *)
Theorem branch_case_chosen_by_role_name :
  (∀ (flag : User.row → bool) (userId : Z) (w : World),
     fst (getAccessibleClients userId (flag_users flag w))
     = fst (getAccessibleClients userId w)) ∧
  (∀ (w : World) (userId : Z) (u : User.row),
     principal w userId u →
     User.roles u ≠ "admin" → ¬ contains (User.roles u) "_admin" →
     ∃ rows, fst (getAccessibleClients userId w) = Return rows ∧
             ∀ c, c ∈ rows → User.client_id u = Some (Client.client_id c)) ∧
  (∀ (w : World) (userId : Z) (u : User.row) (C : Z),
     principal w userId u →
     answers w = true → answers (round_trip w) = true →
     contains (User.roles u) "_admin" →
     User.client_id u = Some C → C ≠ 0 →
     hierarchy_consistent (client (tables w)) →
     ∃ rows, fst (getAccessibleClients userId w) = Return rows ∧
       ∀ c, c ∈ rows ↔
            c ∈ client (tables w) ∧ Client.is_active c = true ∧
            in_subtree (client (tables w)) C c) ∧
  (∀ (w : World) (userId clientId : Z) (u : User.row),
     principal w userId u →
     User.roles u ≠ "admin" → User.can_manage_hierarchy u = false →
     fst (canUserManageClient userId clientId w) = Return false) ∧
  fst (canUserManageClient 3 5 (Sample.boot Sample.db true 0)) = Return true ∧
  fst (getAccessibleClients 7 (Sample.boot Sample.db_managers true 0))
  = Return [Sample.division2] ∧
  fst (getAccessibleClients 8 (Sample.boot Sample.db_managers true 0))
  = Return [Sample.division2; Sample.site5].
Proof.
  split; [|split; [|split; [|split; [|split; [|split]]]]].
  - intros flag userId w. rewrite !getAccessibleClients_unfold.
    destruct (userId =? 0); [done |].
    change (answers (flag_users flag w)) with (answers w).
    destruct (answers w); [|done].
    change (users (tables (flag_users flag w)))
      with ((λ u, {| User.id := User.id u; User.roles := User.roles u;
                     User.client_id := User.client_id u;
                     User.can_manage_hierarchy := flag u |})
              <$> users (tables w)).
    rewrite filter_flagged.
    destruct (filter _ (users (tables w))) as [|u rest]; [done |].
    rewrite fmap_cons. cbn [User.roles User.client_id].
    assert (∀ statement : Tables → completion (list Client.row),
      statement (tables (flag_users flag w)) = statement (tables w) →
      fst (rows_or_caught statement (round_trip (flag_users flag w)))
      = fst (rows_or_caught statement (round_trip w))) as Hsame.
    { intros statement Heq. rewrite !rows_or_caught_result.
      change (answers (round_trip (flag_users flag w)))
        with (answers (round_trip w)).
      change (tables (round_trip (flag_users flag w)))
        with (tables (flag_users flag w)).
      change (tables (round_trip w)) with (tables w).
      by rewrite Heq. }
    destruct (String.eqb (User.roles u) "admin"); [by apply Hsame |].
    destruct (Js.includes (User.roles u) "_admin"
              && Js.truthy_id (User.client_id u)); [by apply Hsame |].
    destruct (Js.truthy_id (User.client_id u)); [by apply Hsame | done].
  - intros w userId u [Hid [rest Hu]]%principal_lookup Hrole Hlacks.
    apply lacks_not_included in Hlacks as Hincl.
    rewrite getAccessibleClients_unfold, Hid.
    destruct (answers w); [|by exists []; split; [|intros c ?%elem_of_nil]].
    rewrite Hu, (not_admin _ Hrole), Hincl. simpl.
    destruct (User.client_id u) as [C|] eqn:HC; simpl.
    + destruct (negb (Js.falsy_number C)).
      * rewrite rows_or_caught_result.
        destruct (answers (round_trip w));
          [|by exists []; split; [|intros c ?%elem_of_nil]].
        eexists; split; [done |]. intros c [[-> _] _]%list_elem_of_filter.
        done.
      * by exists []; split; [|intros c ?%elem_of_nil].
    + by exists []; split; [|intros c ?%elem_of_nil].
  - intros w userId u C [Hid [rest Hu]]%principal_lookup Hon Hon'
      Hincl%includes_contains Hc HC Hok.
    rewrite getAccessibleClients_unfold, Hid, Hon, Hu.
    rewrite (includes_not_admin _ Hincl), Hincl, Hc, (truthy_id_Some _ HC).
    simpl. rewrite rows_or_caught_answered by done.
    change (tables (round_trip w)) with (tables w).
    destruct (select_branch_clients_spec _ Hok (tables w) C eq_refl)
      as (rows & -> & Hrows).
    by exists rows.
  - intros w userId clientId u [Hid [rest Hu]]%principal_lookup Hrole Hflag.
    unfold canUserManageClient, Js.falsy_number. rewrite Hid. simpl.
    destruct (clientId =? 0); [done |].
    unfold try_catch, bind, database_query, select_user.
    destruct (answers w); [|done].
    rewrite Hu, (not_admin _ Hrole), Hflag. done.
  - vm_compute. reflexivity.
  - vm_compute. reflexivity.
  - vm_compute. reflexivity.
Qed.

Lemma branch_case_chosen_by_role_name_witness :
  let w := Sample.boot Sample.db_managers true 0 in
  let manager := Sample.user 7 "manager" (Some 2) true in
  let branch := Sample.user 8 "site_admin_eu" (Some 2) false in
  (principal w 7 manager ∧ User.roles manager ≠ "admin" ∧
   ¬ contains (User.roles manager) "_admin" ∧
   ∃ rows, fst (getAccessibleClients 7 w) = Return rows ∧
           ∀ c, c ∈ rows →
                User.client_id manager = Some (Client.client_id c)) ∧
  (principal w 8 branch ∧ answers w = true ∧ answers (round_trip w) = true ∧
   contains (User.roles branch) "_admin" ∧
   User.client_id branch = Some 2 ∧ 2 ≠ 0 ∧
   hierarchy_consistent (client (tables w)) ∧
   ∃ rows, fst (getAccessibleClients 8 w) = Return rows ∧
     ∀ c, c ∈ rows ↔
          c ∈ client (tables w) ∧ Client.is_active c = true ∧
          in_subtree (client (tables w)) 2 c).
Proof.
  intros w manager branch.
  assert (principal w 7 manager) as Hp7 by (split; [lia | reflexivity]).
  assert (principal w 8 branch) as Hp8 by (split; [lia | reflexivity]).
  assert (User.roles manager ≠ "admin") as Hrole by discriminate.
  assert (¬ contains (User.roles manager) "_admin") as Hlacks.
  { intros H%includes_contains. discriminate H. }
  assert (contains (User.roles branch) "_admin") as Hhas
    by (by exists "site", "_eu").
  assert (2 ≠ 0) as H2 by lia.
  assert (hierarchy_consistent (client (tables w))) as Hok
    by exact sample_consistent.
  pose proof (proj1 (proj2 branch_case_chosen_by_role_name) w 7 manager
                Hp7 Hrole Hlacks) as Hown.
  pose proof (proj1 (proj2 (proj2 branch_case_chosen_by_role_name)) w 8
                branch 2 Hp8 eq_refl eq_refl Hhas eq_refl H2 Hok) as Hsub.
  exact (conj (conj Hp7 (conj Hrole (conj Hlacks Hown)))
           (conj Hp8 (conj eq_refl (conj eq_refl (conj Hhas (conj eq_refl
              (conj H2 (conj Hok Hsub)))))))).
Defined.

(** ** The permission cache *)

Section Cache.

Lemma truthy_string (s : string) : s ≠ "" → Js.falsy_string s = false.
Proof. by destruct s. Qed.

Lemma cacheKey_inj (r1 r2 : string) : cacheKey r1 = cacheKey r2 → r1 = r2.
Proof. unfold cacheKey. apply (inj (String.app "permissions_")). Qed.

Lemma loadPermissions_online (role : string) (w : World) :
  answers w = true →
  loadPermissions role w
  = (Return (resolved (tables w) role), loaded role w).
Proof.
  intros Hon. unfold loadPermissions, try_catch, bind, database_query.
  by rewrite Hon.
Qed.

Lemma loadPermissions_offline (role : string) (w : World) :
  answers w = false →
  loadPermissions role w
  = (Return ∅, logged "Error fetching user permissions:" (round_trip w)).
Proof.
  intros Hoff. unfold loadPermissions, try_catch, bind, database_query.
  by rewrite Hoff.
Qed.

Lemma getUserPermissions_hit (role : string) (w : World)
    (entry : CacheEntry) :
  role ≠ "" → permissionCache w !! cacheKey role = Some entry →
  within_ttl w entry →
  getUserPermissions role w = (Return (permissions entry), w).
Proof.
  intros Hrole Hentry Hfresh. unfold getUserPermissions.
  rewrite (truthy_string _ Hrole). unfold bind, cache_get, Date_now.
  rewrite Hentry.
  by rewrite (proj2 (Z.ltb_lt _ _) Hfresh).
Qed.

Lemma getUserPermissions_miss (role : string) (w : World) :
  role ≠ "" → expired role w →
  getUserPermissions role w = loadPermissions role w.
Proof.
  intros Hrole Hexp. unfold getUserPermissions.
  rewrite (truthy_string _ Hrole). unfold bind, cache_get, Date_now.
  destruct (permissionCache w !! cacheKey role) as [entry|] eqn:Hentry;
    [|done].
  specialize (Hexp _ Hentry).
  by rewrite (proj2 (Z.ltb_ge _ _) Hexp).
Qed.

(** A call is served from the cache or goes to the storage. *)
Lemma hit_or_expired (role : string) (w : World) :
  (∃ entry, permissionCache w !! cacheKey role = Some entry ∧
            within_ttl w entry) ∨
  expired role w.
Proof.
  destruct (permissionCache w !! cacheKey role) as [entry|] eqn:Hentry.
  - destruct (Z.lt_ge_cases (now w - timestamp entry) cacheTimeout).
    + left. by exists entry.
    + right. intros e He. rewrite Hentry in He. by injection He as <-.
  - right. intros e He. by rewrite Hentry in He.
Qed.

(** [getUserPermissions] never throws. *)
Lemma getUserPermissions_returns (role : string) (w : World) :
  ∃ permissions, fst (getUserPermissions role w) = Return permissions.
Proof.
  destruct (decide (role = "")) as [->|Hrole]; [by exists ∅ |].
  destruct (hit_or_expired role w) as [(entry & He & Hfresh)|Hexp].
  - rewrite (getUserPermissions_hit _ _ _ Hrole He Hfresh). eauto.
  - rewrite (getUserPermissions_miss _ _ Hrole Hexp).
    destruct (answers w) eqn:Hon.
    + rewrite loadPermissions_online by done. eauto.
    + rewrite loadPermissions_offline by done. eauto.
Qed.

(** With a coherent cache the caller sees the persisted matrix, or nothing
    at all when the storage does not answer. *)
Lemma getUserPermissions_coherent (role : string) (w : World) :
  cache_coherent role w →
  fst (getUserPermissions role w) = Return (resolved (tables w) role) ∨
  fst (getUserPermissions role w) = Return ∅.
Proof.
  intros Hco.
  destruct (decide (role = "")) as [->|Hrole]; [by right |].
  destruct (hit_or_expired role w) as [(entry & He & Hfresh)|Hexp].
  - rewrite (getUserPermissions_hit _ _ _ Hrole He Hfresh).
    left. simpl. by rewrite (Hco _ He Hfresh).
  - rewrite (getUserPermissions_miss _ _ Hrole Hexp).
    destruct (answers w) eqn:Hon.
    + rewrite loadPermissions_online by done. by left.
    + rewrite loadPermissions_offline by done. by right.
Qed.

Lemma hasPermission_unfold (role dashboardName : string) (w : World) :
  role ≠ "admin" →
  fst (hasPermission role dashboardName w) =
  if Js.falsy_string role || Js.falsy_string dashboardName
  then Return false
  else match fst (getUserPermissions role w) with
       | Return permissions =>
           Return (grants_access permissions dashboardName)
       | Throw e => Throw e
       end.
Proof.
  intros Hrole. unfold hasPermission.
  destruct (Js.falsy_string role || Js.falsy_string dashboardName);
    [done |].
  rewrite (not_admin _ Hrole). unfold bind.
  by destruct (getUserPermissions role w) as [[permissions|e] w'].
Qed.

(** Every key of the permission object comes from a selected row. *)
Lemma permissionObj_of_lookup (rows : list PermissionRow)
    (dashboardName : string) (p : Permission.t) :
  permissionObj_of rows !! dashboardName = Some p →
  ∃ row, row ∈ rows ∧ pr_dashboard_name row = dashboardName ∧
         Permission.can_access p = pr_can_access row.
Proof.
  unfold permissionObj_of.
  assert (∀ acc : PermissionObj,
    fold_left
      (λ obj perm,
         <[ pr_dashboard_name perm :=
              {| Permission.dashboard_id := pr_dashboard_id perm;
                 Permission.can_access := pr_can_access perm;
                 Permission.display_name := pr_dashboard_display_name perm
              |} ]> obj) rows acc !! dashboardName = Some p →
    acc !! dashboardName = Some p ∨
    ∃ row, row ∈ rows ∧ pr_dashboard_name row = dashboardName ∧
           Permission.can_access p = pr_can_access row) as Hgen.
  { induction rows as [|row rows IH]; intros acc; simpl; [auto |].
    intros [Hacc|(r & Hr & Hn & Hp)]%IH.
    - destruct (decide (pr_dashboard_name row = dashboardName)) as [Heq|Hne].
      + rewrite Heq, lookup_insert_eq in Hacc. injection Hacc as <-.
        right. exists row. split; [left | done].
      + rewrite lookup_insert_ne in Hacc by done. by left.
    - right. exists r. split; [by right | done]. }
  intros [Hempty|H]%Hgen; [by rewrite lookup_empty in Hempty | done].
Qed.

(** A selected row with the dashboard's name puts the name in the
    permission object. *)
Lemma permissionObj_of_present (rows : list PermissionRow)
    (row : PermissionRow) :
  row ∈ rows → is_Some (permissionObj_of rows !! pr_dashboard_name row).
Proof.
  unfold permissionObj_of.
  assert (∀ (acc : PermissionObj) k,
    is_Some (acc !! k) ∨ (∃ r, r ∈ rows ∧ pr_dashboard_name r = k) →
    is_Some (fold_left
      (λ obj perm,
         <[ pr_dashboard_name perm :=
              {| Permission.dashboard_id := pr_dashboard_id perm;
                 Permission.can_access := pr_can_access perm;
                 Permission.display_name := pr_dashboard_display_name perm
              |} ]> obj) rows acc !! k)) as Hgen.
  { induction rows as [|r0 rows IH]; intros acc k; simpl.
    - intros [H|(r & Hr & _)]; [done | by apply elem_of_nil in Hr].
    - intros [H|(r & Hr & Hk)]; apply IH.
      + left. destruct (decide (pr_dashboard_name r0 = k)) as [->|Hne].
        * rewrite lookup_insert_eq. eauto.
        * by rewrite lookup_insert_ne.
      + apply elem_of_cons in Hr as [->|Hr].
        * left. rewrite Hk, lookup_insert_eq. eauto.
        * right. eauto. }
  intros Hrow. apply Hgen. right. eauto.
Qed.

(** The rows the permission statement selects. *)
Lemma select_permissions_rows (role : string) (t : Tables)
    (row : PermissionRow) :
  (∃ rows, select_permissions role t = Return rows ∧ row ∈ rows) ↔
  ∃ rp d, rp ∈ role_permissions t ∧ d ∈ dashboards t ∧
          grants role rp d = true ∧
          row = {| pr_dashboard_id := RolePermission.dashboard_id rp;
                   pr_can_access := RolePermission.can_access rp;
                   pr_dashboard_name := Dashboard.name d;
                   pr_dashboard_display_name := Dashboard.display_name d |}.
Proof.
  unfold select_permissions. split.
  - intros (rows & [= <-] & Hrow).
    apply list_elem_of_bind in Hrow as (rp & Hrow & Hrp).
    apply list_elem_of_bind in Hrow as (d & Hrow & Hd).
    exists rp, d. destruct (grants role rp d); [|by apply elem_of_nil in Hrow].
    apply list_elem_of_singleton in Hrow. done.
  - intros (rp & d & Hrp & Hd & Hg & ->).
    eexists; split; [reflexivity |].
    apply list_elem_of_bind. exists rp. split; [|done].
    apply list_elem_of_bind. exists d. split; [|done].
    rewrite Hg. by apply list_elem_of_singleton.
Qed.

(** What the matrix resolves to holds granted, active dashboards only. *)
Lemma resolved_lookup (t : Tables) (role dashboardName : string)
    (p : Permission.t) :
  resolved t role !! dashboardName = Some p →
  Permission.can_access p = true ∧
  ∃ rp d, rp ∈ role_permissions t ∧ d ∈ dashboards t ∧
          grants role rp d = true ∧ Dashboard.name d = dashboardName.
Proof.
  unfold resolved. intros (row & Hrow & Hname & Hp)%permissionObj_of_lookup.
  destruct (proj1 (select_permissions_rows role t row))
    as (rp & d & Hrp & Hd & Hg & ->); [by eexists |].
  simpl in *. split; [|by exists rp, d].
  rewrite Hp. unfold grants in Hg.
  by apply andb_true_iff in Hg as [_ Hg].
Qed.

Lemma grants_access_resolved (t : Tables) (role dashboardName : string) :
  grants_access (resolved t role) dashboardName = true ↔
  ∃ rp d, rp ∈ role_permissions t ∧ d ∈ dashboards t ∧
          grants role rp d = true ∧ Dashboard.name d = dashboardName.
Proof.
  unfold grants_access. split.
  - destruct (resolved t role !! dashboardName) as [p|] eqn:Hp; [|done].
    intros _. by apply resolved_lookup in Hp as [_ H].
  - intros (rp & d & Hrp & Hd & Hg & <-).
    pose (row := {| pr_dashboard_id := RolePermission.dashboard_id rp;
                    pr_can_access := RolePermission.can_access rp;
                    pr_dashboard_name := Dashboard.name d;
                    pr_dashboard_display_name := Dashboard.display_name d |}).
    destruct (proj2 (select_permissions_rows role t row))
      as (rows & Hsel & Hrow); [by exists rp, d |].
    destruct (permissionObj_of_present rows row Hrow) as [p Hp].
    unfold resolved. rewrite Hsel. simpl in Hp. rewrite Hp.
    assert (resolved t role !! Dashboard.name d = Some p) as Hres
      by (unfold resolved; by rewrite Hsel).
    by apply resolved_lookup in Hres as [-> _].
Qed.

Lemma grants_access_empty (dashboardName : string) :
  grants_access ∅ dashboardName = false.
Proof. unfold grants_access. by rewrite lookup_empty. Qed.

(** Every property of the permission object is built from a selected row
    that carries its name. *)
Lemma permissionObj_of_value (rows : list PermissionRow)
    (dashboardName : string) (p : Permission.t) :
  permissionObj_of rows !! dashboardName = Some p →
  ∃ row, row ∈ rows ∧ pr_dashboard_name row = dashboardName ∧
         p = {| Permission.dashboard_id := pr_dashboard_id row;
                Permission.can_access := pr_can_access row;
                Permission.display_name := pr_dashboard_display_name row |}.
Proof.
  unfold permissionObj_of.
  assert (∀ acc : PermissionObj,
    fold_left
      (λ obj perm,
         <[ pr_dashboard_name perm :=
              {| Permission.dashboard_id := pr_dashboard_id perm;
                 Permission.can_access := pr_can_access perm;
                 Permission.display_name := pr_dashboard_display_name perm
              |} ]> obj) rows acc !! dashboardName = Some p →
    acc !! dashboardName = Some p ∨
    ∃ row, row ∈ rows ∧ pr_dashboard_name row = dashboardName ∧
           p = {| Permission.dashboard_id := pr_dashboard_id row;
                  Permission.can_access := pr_can_access row;
                  Permission.display_name := pr_dashboard_display_name row
               |}) as Hgen.
  { induction rows as [|row rows IH]; intros acc; simpl; [auto |].
    intros [Hacc|(r & Hr & Hn & Hp)]%IH.
    - destruct (decide (pr_dashboard_name row = dashboardName)) as [Heq|Hne].
      + rewrite Heq, lookup_insert_eq in Hacc. injection Hacc as <-.
        right. exists row. split; [left | done].
      + rewrite lookup_insert_ne in Hacc by done. by left.
    - right. exists r. split; [by right | done]. }
  intros [Hempty|H]%Hgen; [by rewrite lookup_empty in Hempty | done].
Qed.

End Cache.

Section Decisions.

Lemma grants_true (role : string) (rp : RolePermission.row)
    (d : Dashboard.row) :
  grants role rp d = true ↔
  RolePermission.dashboard_id rp = Dashboard.id d ∧
  RolePermission.role_name rp = role ∧
  Dashboard.is_active d = true ∧
  RolePermission.can_access rp = true.
Proof.
  unfold grants.
  rewrite !andb_true_iff, !bool_decide_eq_true. tauto.
Qed.

(** Dashboard names being unique, what the statement and the conversion of
    its rows come to is the persisted permission state of the role. *)
Lemma resolved_reflects (t : Tables) (role : string) :
  matrix_keys t → reflects t role (resolved t role).
Proof.
  intros [_ Hnames].
  assert (∀ dashboardName p,
    resolved t role !! dashboardName = Some p →
    ∃ d, granted t role d ∧ Dashboard.name d = dashboardName ∧
         p = {| Permission.dashboard_id := Dashboard.id d;
                Permission.can_access := true;
                Permission.display_name := Dashboard.display_name d |})
    as Hfound.
  { intros dashboardName p Hp. unfold resolved in Hp.
    destruct (select_permissions role t) as [rows|e] eqn:Hsel;
      [|by rewrite lookup_empty in Hp].
    apply permissionObj_of_value in Hp as (row & Hrow & Hname & ->).
    destruct (proj1 (select_permissions_rows role t row))
      as (rp & d & Hrp & Hd & Hg & ->); [by exists rows |].
    apply grants_true in Hg as (Hid & Hrole & Hactive & Hgrant).
    simpl in *. exists d. split; [|split; [done |]].
    - split; [done |]. split; [done |]. by exists rp.
    - by rewrite Hid, Hgrant. }
  intros dashboardName p. split; [apply Hfound |].
  intros (d & (Hd & Hactive & rp & Hrp & Hrole & Hid & Hgrant) & Hname & ->).
  pose (row := {| pr_dashboard_id := RolePermission.dashboard_id rp;
                  pr_can_access := RolePermission.can_access rp;
                  pr_dashboard_name := Dashboard.name d;
                  pr_dashboard_display_name := Dashboard.display_name d |}).
  destruct (proj2 (select_permissions_rows role t row))
    as (rows & Hsel & Hrow).
  { exists rp, d. split; [done |]. split; [done |]. split; [|done].
    by apply grants_true. }
  destruct (permissionObj_of_present rows row Hrow) as [p' Hp'].
  assert (resolved t role !! dashboardName = Some p') as Hres
    by (unfold resolved; rewrite Hsel, <- Hname; exact Hp').
  rewrite Hres. f_equal.
  destruct (Hfound _ _ Hres) as (d' & (Hd' & _) & Hname' & ->).
  assert (d' = d) as -> by (apply Hnames; congruence).
  done.
Qed.

(** A fresh process holds nothing stale. *)
Lemma empty_cache_coherent (role : string) (w : World) :
  permissionCache w = ∅ → cache_coherent role w.
Proof. intros Hempty entry He. by rewrite Hempty, lookup_empty in He. Qed.

Lemma empty_cache_expired (role : string) (w : World) :
  permissionCache w = ∅ → expired role w.
Proof. intros Hempty entry He. by rewrite Hempty, lookup_empty in He. Qed.

Lemma getUserPermissions_coherent_online (role : string) (w : World) :
  role ≠ "" → cache_coherent role w → answers w = true →
  fst (getUserPermissions role w) = Return (resolved (tables w) role).
Proof.
  intros Hrole Hco Hon.
  destruct (hit_or_expired role w) as [(entry & He & Hfresh)|Hexp].
  - rewrite (getUserPermissions_hit _ _ _ Hrole He Hfresh).
    simpl. by rewrite (Hco _ He Hfresh).
  - rewrite (getUserPermissions_miss _ _ Hrole Hexp).
    by rewrite loadPermissions_online.
Qed.

(** With a coherent cache, access is denied unless the matrix grants it. *)
Lemma hasPermission_denied (role dashboardName : string) (w : World) :
  role ≠ "admin" → cache_coherent role w →
  grants_access (resolved (tables w) role) dashboardName = false →
  fst (hasPermission role dashboardName w) = Return false.
Proof.
  intros Hrole Hco Hdeny. rewrite hasPermission_unfold by done.
  destruct (Js.falsy_string role || Js.falsy_string dashboardName);
    [done |].
  destruct (getUserPermissions_coherent role w Hco) as [-> | ->].
  - by rewrite Hdeny.
  - by rewrite grants_access_empty.
Qed.

Lemma sample_matrix_keys : matrix_keys Sample.db.
Proof.
  split.
  - intros rp1 rp2 H1 H2. simpl in H1, H2.
    repeat (apply elem_of_cons in H1 as [->|H1]); [..|by inversion H1];
      repeat (apply elem_of_cons in H2 as [->|H2]); try (by inversion H2);
      simpl; intros; congruence.
  - intros d1 d2 H1 H2. simpl in H1, H2.
    repeat (apply elem_of_cons in H1 as [->|H1]); [..|by inversion H1];
      repeat (apply elem_of_cons in H2 as [->|H2]); try (by inversion H2);
      simpl; intros; congruence.
Qed.

Lemma extended_matrix_keys : matrix_keys Sample.db_extended.
Proof.
  split.
  - intros rp1 rp2 H1 H2. simpl in H1, H2.
    repeat (apply elem_of_cons in H1 as [->|H1]); [..|by inversion H1];
      repeat (apply elem_of_cons in H2 as [->|H2]); try (by inversion H2);
      simpl; intros; congruence.
  - apply sample_matrix_keys.
Qed.

End Decisions.

(** ** Coherence of the cache is an invariant *)

Section Coherence.

(** Time passing over an untouched cache and matrix keeps it coherent. *)
Lemma coherent_later (role : string) (w w' : World) :
  tables w' = tables w → permissionCache w' = permissionCache w →
  now w ≤ now w' →
  cache_coherent role w → cache_coherent role w'.
Proof.
  intros Ht Hc Hnow Hco entry He Hfresh.
  rewrite Ht. rewrite Hc in He. apply Hco; [done |].
  unfold within_ttl in *. lia.
Qed.

Lemma getUserPermissions_keeps_coherent (role : string) (w : World) :
  0 ≤ latency w → (∀ r, cache_coherent r w) →
  ∀ r, cache_coherent r (snd (getUserPermissions role w)).
Proof.
  intros Hlat Hco r.
  destruct (decide (role = "")) as [->|Hrole]; [apply Hco |].
  destruct (hit_or_expired role w) as [(entry & He & Hfresh)|Hexp].
  - rewrite (getUserPermissions_hit _ _ _ Hrole He Hfresh). apply Hco.
  - rewrite (getUserPermissions_miss _ _ Hrole Hexp).
    destruct (answers w) eqn:Hon.
    + rewrite loadPermissions_online by done. simpl.
      intros entry He Hfresh. simpl in He.
      destruct (decide (r = role)) as [->|Hne].
      * rewrite lookup_insert_eq in He. by injection He as <-.
      * rewrite lookup_insert_ne in He
          by (intros Hk; by apply cacheKey_inj in Hk).
        apply (Hco r); [done |].
        unfold within_ttl in *. simpl in Hfresh. lia.
    + rewrite loadPermissions_offline by done.
      apply (coherent_later r w); [done | done | simpl; lia | apply Hco].
Qed.

Lemma getAccessibleClients_world (userId : Z) (w : World) :
  0 ≤ latency w →
  tables (snd (getAccessibleClients userId w)) = tables w ∧
  permissionCache (snd (getAccessibleClients userId w))
  = permissionCache w ∧
  latency (snd (getAccessibleClients userId w)) = latency w ∧
  now w ≤ now (snd (getAccessibleClients userId w)).
Proof.
  intros Hlat. rewrite getAccessibleClients_unfold.
  assert (∀ statement : Tables → completion (list Client.row),
    tables (snd (rows_or_caught statement (round_trip w))) = tables w ∧
    permissionCache (snd (rows_or_caught statement (round_trip w)))
    = permissionCache w ∧
    latency (snd (rows_or_caught statement (round_trip w))) = latency w ∧
    now w ≤ now (snd (rows_or_caught statement (round_trip w)))) as Hsent.
  { intros statement.
    destruct (rows_or_caught_world statement (round_trip w)) as [-> | ->];
      repeat split; simpl; lia. }
  destruct (userId =? 0); [by repeat split |].
  destruct (answers w); [|repeat split; simpl; lia].
  destruct (filter _ (users (tables w))) as [|u rest];
    [repeat split; simpl; lia |].
  destruct (String.eqb (User.roles u) "admin"); [apply Hsent |].
  destruct (Js.includes (User.roles u) "_admin"
            && Js.truthy_id (User.client_id u)); [apply Hsent |].
  destruct (Js.truthy_id (User.client_id u));
    [apply Hsent | repeat split; simpl; lia].
Qed.

Lemma hasPermission_world (role dashboardName : string) (w : World) :
  snd (hasPermission role dashboardName w) = w ∨
  snd (hasPermission role dashboardName w)
  = snd (getUserPermissions role w).
Proof.
  unfold hasPermission.
  destruct (Js.falsy_string role || Js.falsy_string dashboardName);
    [by left |].
  destruct (String.eqb role "admin"); [by left |].
  right. unfold bind.
  by destruct (getUserPermissions role w) as [[resolution|e] w'].
Qed.

Lemma getUserPermissions_latency (role : string) (w : World) :
  latency (snd (getUserPermissions role w)) = latency w.
Proof.
  destruct (decide (role = "")) as [->|Hrole]; [done |].
  destruct (hit_or_expired role w) as [(entry & He & Hfresh)|Hexp].
  - by rewrite (getUserPermissions_hit _ _ _ Hrole He Hfresh).
  - rewrite (getUserPermissions_miss _ _ Hrole Hexp).
    destruct (answers w) eqn:Hon.
    + by rewrite loadPermissions_online.
    + by rewrite loadPermissions_offline.
Qed.

Lemma clearCache_keeps_coherent (role : option string) (w : World) :
  (∀ r, cache_coherent r w) → ∀ r, cache_coherent r (snd (clearCache role w)).
Proof.
  intros Hco r entry He Hfresh.
  assert (snd (clearCache role w) = with_cache (λ _, ∅) w ∨
          ∃ k, snd (clearCache role w) = with_cache (delete k) w)
    as [Hw|[k Hw]].
  { unfold clearCache. destruct role as [r'|]; [|by left].
    destruct (Js.falsy_string r'); [by left | right; eauto]. }
  - rewrite Hw in He. simpl in He. by rewrite lookup_empty in He.
  - rewrite Hw in He, Hfresh |- *. simpl in He.
    apply lookup_delete_Some in He as [_ He]. by apply (Hco r).
Qed.

(** Keeping to the rule for writes, an installation whose calls do not
    overlap never holds an unexpired cache entry that differs from the
    persisted matrix. *)
Lemma reachable_coherent (w : World) :
  reachable w → 0 ≤ latency w ∧ ∀ r, cache_coherent r w.
Proof.
  induction 1 as [w Hempty Hlat|w w' _ [Hlat Hco] Hstep].
  - split; [done |]. intros r. by apply empty_cache_coherent.
  - destruct Hstep as [role w|role dashboardName w|userId w|role w|d w Hd
                       |up w|t w].
    + split; [by rewrite getUserPermissions_latency |].
      by apply getUserPermissions_keeps_coherent.
    + destruct (hasPermission_world role dashboardName w) as [-> | ->];
        [done |].
      split; [by rewrite getUserPermissions_latency |].
      by apply getUserPermissions_keeps_coherent.
    + destruct (getAccessibleClients_world userId w Hlat)
        as (Ht & Hc & Hl & Hnow).
      split; [by rewrite Hl |].
      intros r. by apply (coherent_later r w).
    + split; [by destruct role as [r|]; [simpl; destruct (Js.falsy_string r)|]|].
      by apply clearCache_keeps_coherent.
    + split; [done |]. intros r.
      apply (coherent_later r w); [done | done | simpl; lia | apply Hco].
    + split; [done |]. intros r.
      apply (coherent_later r w); [done | done | simpl; lia | apply Hco].
    + split; [done |]. intros r. by apply empty_cache_coherent.
Qed.

(** Without the eviction a cached grant outlives its withdrawal: it is
    served until it expires or [clearCache] is called. *)
Example stale_until_expiry_or_eviction :
  let started := Sample.boot Sample.db true 0 in
  let served := snd (hasPermission "viewer" "iot_dashboard" started) in
  let soon := Sample.later Sample.db_withdrawn 1000 served in
  let late := Sample.later Sample.db_withdrawn cacheTimeout served in
  fst (hasPermission "viewer" "iot_dashboard" started) = Return true ∧
  fst (hasPermission "viewer" "iot_dashboard" soon) = Return true ∧
  fst (hasPermission "viewer" "iot_dashboard"
         (snd (clearCache (Some "viewer") soon))) = Return false ∧
  fst (hasPermission "viewer" "iot_dashboard" late) = Return false.
Proof. vm_compute. auto. Qed.

End Coherence.

(** ** Properties of the decision point and of the cache *)

(** C1, as amended.  For every dashboard name but the empty one,
    [hasPermission('admin', D)] returns true and leaves the process as it
    was: no cache lookup, no round-trip to the storage; for the empty name
    it returns false.  For a role other than admin and a dashboard for which
    the permissions resolved for the role hold no entry, it returns false;
    so it does when the matrix has no entry for the pair and the cache is
    coherent. *)
Theorem admin_bypass_and_missing_entry :
  (∀ (D : string) (w : World),
     D ≠ "" → hasPermission "admin" D w = (Return true, w)) ∧
  (∀ (w : World), hasPermission "admin" "" w = (Return false, w)) ∧
  (∀ (R D : string) (w : World) (resolution : PermissionObj),
     R ≠ "admin" →
     fst (getUserPermissions R w) = Return resolution →
     resolution !! D = None →
     fst (hasPermission R D w) = Return false) ∧
  (∀ (R D : string) (w : World),
     R ≠ "admin" → cache_coherent R w →
     (∀ rp, ¬ permission_entry (tables w) R D rp) →
     fst (hasPermission R D w) = Return false).
Proof.
  split; [|split; [done |split]].
  - intros D w HD. unfold hasPermission.
    by rewrite (truthy_string _ HD).
  - intros R D w resolution HR Hres Hnone.
    rewrite hasPermission_unfold by done.
    destruct (Js.falsy_string R || Js.falsy_string D); [done |].
    rewrite Hres. unfold grants_access. by rewrite Hnone.
  - intros R D w HR Hco Hno. apply hasPermission_denied; [done..|].
    apply not_true_is_false.
    intros (rp & d & Hrp & Hd & Hg & Hname)%grants_access_resolved.
    apply grants_true in Hg as (Hid & Hrole & _ & _).
    apply (Hno rp). split; [done |]. split; [done |]. by exists d.
Qed.

Lemma admin_bypass_and_missing_entry_witness :
  let w := Sample.boot Sample.db true 0 in
  "iot_dashboard" ≠ "" ∧
  hasPermission "admin" "iot_dashboard" w = (Return true, w).
Proof.
  intros w.
  assert ("iot_dashboard" ≠ "") as HD by discriminate.
  exact (conj HD (proj1 admin_bypass_and_missing_entry "iot_dashboard" w HD)).
Defined.

(** C1, the claim as stated fails: the guard on the arguments comes before
    the administrator's bypass, so the empty dashboard name is denied. *)
Lemma admin_denied_empty_dashboard_name :
  fst (hasPermission "admin" "" (Sample.boot Sample.db true 0))
  = Return false.
Proof. reflexivity. Qed.

(** C6.  When the matrix holds for a role other than admin and a dashboard
    an entry with [can_access] false, [hasPermission] returns false,
    whatever [can_edit] and [can_delete] of the entry say; and when the
    entry of an active dashboard has [can_access] true it returns true,
    again whatever the two other flags say.  The cache is taken coherent
    with the matrix, as it is in every state of an installation whose
    writes evict it ([reachable_coherent]). *)
Theorem can_access_is_the_gate :
  (∀ (R D : string) (w : World) (rp : RolePermission.row),
     R ≠ "admin" → matrix_keys (tables w) → cache_coherent R w →
     permission_entry (tables w) R D rp →
     RolePermission.can_access rp = false →
     fst (hasPermission R D w) = Return false) ∧
  (∀ (R D : string) (w : World) (rp : RolePermission.row)
     (d : Dashboard.row),
     R ≠ "admin" → R ≠ "" → D ≠ "" →
     answers w = true → cache_coherent R w →
     rp ∈ role_permissions (tables w) → RolePermission.role_name rp = R →
     d ∈ dashboards (tables w) → Dashboard.name d = D →
     RolePermission.dashboard_id rp = Dashboard.id d →
     Dashboard.is_active d = true →
     RolePermission.can_access rp = true →
     fst (hasPermission R D w) = Return true).
Proof.
  split.
  - intros R D w rp HR [Hrows Hnames] Hco (Hrp & Hrole & d & Hd & Hname & Hid)
      Hdeny.
    apply hasPermission_denied; [done..|].
    apply not_true_is_false.
    intros (rp' & d' & Hrp' & Hd' & Hg & Hname')%grants_access_resolved.
    apply grants_true in Hg as (Hid' & Hrole' & _ & Hgrant).
    assert (d' = d) as -> by (apply Hnames; congruence).
    assert (rp' = rp) as -> by (apply Hrows; congruence).
    congruence.
  - intros R D w rp d HR HR' HD Hon Hco Hrp Hrole Hd Hname Hid Hact Hgrant.
    rewrite hasPermission_unfold by done.
    rewrite (truthy_string _ HR'), (truthy_string _ HD). simpl.
    rewrite getUserPermissions_coherent_online by done.
    f_equal. apply grants_access_resolved.
    exists rp, d. split; [done |]. split; [done |]. split; [|done].
    by apply grants_true.
Qed.

Lemma can_access_is_the_gate_witness :
  let w := Sample.boot Sample.db true 0 in
  let rp := Sample.entry "viewer" 2 false true true in
  "viewer" ≠ "admin" ∧ matrix_keys (tables w) ∧ cache_coherent "viewer" w ∧
  permission_entry (tables w) "viewer" "motor_dashboard" rp ∧
  RolePermission.can_access rp = false ∧
  fst (hasPermission "viewer" "motor_dashboard" w) = Return false.
Proof.
  intros w rp.
  assert ("viewer" ≠ "admin") as HR by discriminate.
  assert (cache_coherent "viewer" w) as Hco
    by (by apply empty_cache_coherent).
  assert (permission_entry (tables w) "viewer" "motor_dashboard" rp) as He.
  { split; [right; left |]. split; [reflexivity |].
    exists Sample.motor. split; [right; left |]. split; reflexivity. }
  pose proof (proj1 can_access_is_the_gate "viewer" "motor_dashboard" w rp HR
                sample_matrix_keys Hco He eq_refl) as Hdeny.
  exact (conj HR (conj sample_matrix_keys (conj Hco (conj He
          (conj eq_refl Hdeny))))).
Defined.

(** C7, as amended.  When the storage does not answer a reload of the
    permission cache, [getUserPermissions] catches the error, writes it to
    the console, caches nothing and returns the empty object; for a role
    other than admin [hasPermission] then returns false;
    [getAccessibleClients] likewise returns the empty array.
    [getUserPermissions] never hands an error to its caller. *)
Theorem storage_failure_is_denial :
  (∀ (R : string) (w : World),
     R ≠ "" → expired R w → answers w = false →
     getUserPermissions R w
     = (Return ∅,
        logged "Error fetching user permissions:" (round_trip w))) ∧
  (∀ (R D : string) (w : World),
     R ≠ "admin" → expired R w → answers w = false →
     fst (hasPermission R D w) = Return false) ∧
  (∀ (userId : Z) (w : World),
     answers w = false ∨ answers (round_trip w) = false →
     fst (getAccessibleClients userId w) = Return []) ∧
  (∀ (R : string) (w : World),
     ∃ resolution, fst (getUserPermissions R w) = Return resolution).
Proof.
  split; [|split; [|split]].
  - intros R w HR Hexp Hoff.
    rewrite getUserPermissions_miss by done.
    by apply loadPermissions_offline.
  - intros R D w HR Hexp Hoff. rewrite hasPermission_unfold by done.
    destruct (Js.falsy_string R) eqn:Hfalsy; [done |]. simpl.
    destruct (Js.falsy_string D); [done |].
    rewrite getUserPermissions_miss, loadPermissions_offline;
      [|done|by destruct R|done].
    simpl. by rewrite grants_access_empty.
  - intros userId w Hoff. rewrite getAccessibleClients_unfold.
    destruct (userId =? 0); [done |].
    destruct (answers w); [|done].
    destruct Hoff as [Hoff|Hoff]; [done |].
    destruct (filter _ (users (tables w))) as [|u rest]; [done |].
    destruct (String.eqb (User.roles u) "admin");
      [by apply rows_or_caught_unanswered |].
    destruct (Js.includes (User.roles u) "_admin"
              && Js.truthy_id (User.client_id u));
      [by apply rows_or_caught_unanswered |].
    destruct (Js.truthy_id (User.client_id u));
      [by apply rows_or_caught_unanswered | done].
  - apply getUserPermissions_returns.
Qed.

Lemma storage_failure_is_denial_witness :
  let w := Sample.boot Sample.db false 0 in
  "viewer" ≠ "" ∧ expired "viewer" w ∧ answers w = false ∧
  getUserPermissions "viewer" w
  = (Return ∅, logged "Error fetching user permissions:" (round_trip w)).
Proof.
  intros w.
  assert ("viewer" ≠ "") as HR by discriminate.
  assert (expired "viewer" w) as Hexp by (by apply empty_cache_expired).
  exact (conj HR (conj Hexp (conj eq_refl
          (proj1 storage_failure_is_denial "viewer" w HR Hexp eq_refl)))).
Defined.

(** C7, the claim as stated fails: with the storage down the caller of
    [getUserPermissions] receives an empty object, the caller of
    [hasPermission] a plain false and the caller of [getAccessibleClients]
    an empty array, none of them an error. *)
Lemma storage_failure_is_swallowed :
  let w := Sample.boot Sample.db false 0 in
  fst (getUserPermissions "viewer" w) = Return ∅ ∧
  fst (hasPermission "viewer" "iot_dashboard" w) = Return false ∧
  fst (getAccessibleClients 2 w) = Return [].
Proof. repeat split. Qed.

(** ** Calls that overlap *)

Section Overlap.

(** The [try] block sent, answered and resumed at once is the [try]
    block. *)
Lemma loadPermissions_split (role : string) (w : World) :
  loadPermissions role w =
  match send_load role w with
  | (inl m, w') => (Return m, w')
  | (inr l, w') =>
      getUserPermissions_resumed (load_role l) (storage_answer l w') w'
  end.
Proof.
  unfold loadPermissions, send_load, getUserPermissions_resumed,
    storage_answer, try_catch, bind, database_query, answers.
  simpl. by destruct (online w (queries w)).
Qed.

(** A call that nothing interrupts is its first half, the answer of the
    storage and its second half. *)
Lemma getUserPermissions_split (role : string) (w : World) :
  getUserPermissions role w =
  match getUserPermissions_sent role w with
  | (inl m, w') => (Return m, w')
  | (inr l, w') =>
      getUserPermissions_resumed (load_role l) (storage_answer l w') w'
  end.
Proof.
  unfold getUserPermissions, getUserPermissions_sent.
  destruct (Js.falsy_string role); [done |].
  unfold bind at 1, cache_get.
  destruct (permissionCache w !! cacheKey role) as [entry|];
    [|apply loadPermissions_split].
  unfold bind, Date_now.
  destruct (now w - timestamp entry <? cacheTimeout); [done |].
  apply loadPermissions_split.
Qed.

(** The first half returns from the cache, or sends the statement. *)
Lemma getUserPermissions_sent_cases (role : string) (w : World) :
  (∃ m, getUserPermissions_sent role w = (inl m, w)) ∨
  (role ≠ "" ∧
   getUserPermissions_sent role w
   = (inr {| load_role := role; load_query := queries w;
             load_answer := None |},
      round_trip w)).
Proof.
  unfold getUserPermissions_sent, send_load.
  destruct (Js.falsy_string role) eqn:Hrole; [left; eauto |].
  assert (role ≠ "") as Hname by (by intros ->).
  destruct (permissionCache w !! cacheKey role) as [entry|];
    [|by right].
  destruct (now w - timestamp entry <? cacheTimeout); [left; eauto |].
  by right.
Qed.

(** With nothing cached for the role, the statement is sent. *)
Lemma getUserPermissions_sent_miss (role : string) (w : World) :
  role ≠ "" → permissionCache w !! cacheKey role = None →
  getUserPermissions_sent role w
  = (inr {| load_role := role; load_query := queries w;
            load_answer := None |},
     round_trip w).
Proof.
  intros Hrole Hnone. unfold getUserPermissions_sent.
  by rewrite (truthy_string _ Hrole), Hnone.
Qed.

(** The second half caches the rows it is resumed with, whatever has
    happened since they were read. *)
Lemma getUserPermissions_resumed_cases (role : string)
    (answer : completion (list PermissionRow)) (w : World) :
  getUserPermissions_resumed role answer w =
  match answer with
  | Return rows =>
      (Return (permissionObj_of rows),
       with_cache
         (insert (cacheKey role)
            {| permissions := permissionObj_of rows; timestamp := now w |})
         w)
  | Throw _ => (Return ∅, logged "Error fetching user permissions:" w)
  end.
Proof.
  unfold getUserPermissions_resumed, try_catch, bind.
  by destruct answer.
Qed.

Lemma run_app (moves1 moves2 : list Move) (s : Service) :
  run (moves1 ++ moves2) s = run moves2 (run moves1 s).
Proof. apply fold_left_app. Qed.

(** While no call for a role is suspended and none begins, nothing is
    cached for the role once its entry is gone. *)
Lemma move_keeps_absent (R : string) (m : Move) (s : Service) :
  m ≠ Begin R →
  Forall (λ l, load_role l ≠ R) (awaiting s) →
  permissionCache (process s) !! cacheKey R = None →
  Forall (λ l, load_role l ≠ R) (awaiting (move m s)) ∧
  permissionCache (process (move m s)) !! cacheKey R = None.
Proof.
  intros Hm Hnone Hcache.
  destruct m as [role|n|n|role|t|d|up| |message]; simpl; try done.
  - destruct (getUserPermissions_sent_cases role (process s))
      as [[m ->]|[_ ->]]; [done |].
    split; [|done]. apply Forall_cons. split; [|done].
    simpl. intros ->. done.
  - destruct (awaiting s !! n) as [l|] eqn:Hl; [|done].
    destruct (load_answer l); [done |]. simpl.
    split; [|done]. apply Forall_insert; [done |]. simpl.
    by apply (Forall_lookup_1 _ _ _ _ Hnone Hl).
  - destruct (awaiting s !! n) as [l|] eqn:Hl; [|done].
    destruct (load_answer l) as [answer|]; [|done]. simpl.
    split; [by apply Forall_delete |].
    rewrite getUserPermissions_resumed_cases.
    destruct answer; [|done]. simpl.
    rewrite lookup_insert_ne; [done |].
    intros Hkey%cacheKey_inj.
    by apply (Forall_lookup_1 _ _ _ _ Hnone Hl).
  - split; [done |]. unfold clearCache.
    destruct role as [r|]; [|apply lookup_empty].
    destruct (Js.falsy_string r); [apply lookup_empty |]. simpl.
    apply lookup_delete_None. by right.
Qed.

Lemma run_keeps_absent (R : string) (moves : list Move) (s : Service) :
  Begin R ∉ moves →
  Forall (λ l, load_role l ≠ R) (awaiting s) →
  permissionCache (process s) !! cacheKey R = None →
  permissionCache (process (run moves s)) !! cacheKey R = None.
Proof.
  revert s. induction moves as [|m moves IH]; intros s Hmoves Hnone Hcache;
    [done |].
  apply not_elem_of_cons in Hmoves as [Hm Hmoves].
  destruct (move_keeps_absent R m s) as [Hnone' Hcache']; [done..|].
  by apply (IH (move m s)).
Qed.

End Overlap.

(** C8.  A call of [getUserPermissions] for a role leaves the permissions it
    returns in the cache, stamped with the time of the load.  While less
    than 300000 ms (five minutes) have passed since that stamp, and the
    entry has not been touched, a second call returns the same permissions
    and leaves the process as it was: no round-trip to the storage.  From
    300000 ms on, the call makes one round-trip and returns the permission
    state that is persisted then, whatever has been written in between. *)
Theorem cached_within_ttl (R : string) (w : World) :
  R ≠ "" → answers w = true →
  ∃ entry,
    permissionCache (snd (getUserPermissions R w)) !! cacheKey R = Some entry ∧
    fst (getUserPermissions R w) = Return (permissions entry) ∧
    (expired R w →
       timestamp entry = now w + latency w ∧
       queries (snd (getUserPermissions R w)) = S (queries w) ∧
       (matrix_keys (tables w) → reflects (tables w) R (permissions entry))) ∧
    ∀ w2,
      permissionCache w2 !! cacheKey R = Some entry →
      (now w2 - timestamp entry < 300000 →
         getUserPermissions R w2 = (Return (permissions entry), w2)) ∧
      (300000 ≤ now w2 - timestamp entry →
         queries (snd (getUserPermissions R w2)) = S (queries w2) ∧
         (answers w2 = true → matrix_keys (tables w2) →
            ∃ m, fst (getUserPermissions R w2) = Return m ∧
                 reflects (tables w2) R m)).
Proof.
  intros HR Hon.
  assert (cacheTimeout = 300000) as Httl by reflexivity.
  assert (∀ entry w2,
    permissionCache w2 !! cacheKey R = Some entry →
    (now w2 - timestamp entry < 300000 →
       getUserPermissions R w2 = (Return (permissions entry), w2)) ∧
    (300000 ≤ now w2 - timestamp entry →
       queries (snd (getUserPermissions R w2)) = S (queries w2) ∧
       (answers w2 = true → matrix_keys (tables w2) →
          ∃ m, fst (getUserPermissions R w2) = Return m ∧
               reflects (tables w2) R m))) as Hsecond.
  { intros entry w2 He. split.
    - intros Hfresh. apply getUserPermissions_hit; [done | done |].
      unfold within_ttl. by rewrite Httl.
    - intros Hold.
      assert (expired R w2) as Hexp.
      { intros e He'. rewrite He in He'. injection He' as <-.
        by rewrite Httl. }
      rewrite getUserPermissions_miss by done.
      destruct (answers w2) eqn:Hon2.
      + rewrite loadPermissions_online by done. split; [done |].
        intros _ Hkeys. eexists. split; [done |]. by apply resolved_reflects.
      + by rewrite loadPermissions_offline. }
  destruct (hit_or_expired R w) as [(entry & He & Hfresh)|Hexp].
  - rewrite (getUserPermissions_hit _ _ _ HR He Hfresh).
    exists entry. split; [done |]. split; [done |]. split.
    + intros Hexp. specialize (Hexp _ He). unfold within_ttl in Hfresh. lia.
    + intros w2 Hcache. by apply Hsecond.
  - rewrite (getUserPermissions_miss _ _ HR Hexp), loadPermissions_online
      by done.
    eexists. split; [apply lookup_insert_eq |]. split; [done |].
    split; [|intros w2 Hcache; by apply Hsecond].
    intros _. split; [done |]. split; [done |]. apply resolved_reflects.
Qed.

Lemma cached_within_ttl_witness :
  let w := Sample.boot Sample.db true 0 in
  let first := getUserPermissions "viewer" w in
  let inside := Sample.later Sample.db_extended 299999 (snd first) in
  let outside := Sample.later Sample.db_extended 300000 (snd first) in
  "viewer" ≠ "" ∧ answers w = true ∧
  answers outside = true ∧ matrix_keys (tables outside) ∧
  getUserPermissions "viewer" inside = (fst first, inside) ∧
  queries (snd (getUserPermissions "viewer" outside)) = S (queries outside) ∧
  ∃ m, fst (getUserPermissions "viewer" outside) = Return m ∧
       reflects (tables outside) "viewer" m.
Proof.
  intros w first inside outside.
  assert ("viewer" ≠ "") as HR by discriminate.
  assert (matrix_keys (tables outside)) as Hkeys
    by exact extended_matrix_keys.
  destruct (cached_within_ttl "viewer" w HR eq_refl)
    as (entry & He & Hfst & Hfirst & Hsecond).
  destruct (Hfirst (empty_cache_expired "viewer" w eq_refl)) as (Hstamp & _).
  assert (now inside - timestamp entry < 300000) as Hin
    by (rewrite Hstamp; vm_compute; reflexivity).
  assert (300000 ≤ now outside - timestamp entry) as Hout
    by (rewrite Hstamp; vm_compute; discriminate).
  pose proof (proj1 (Hsecond inside He) Hin) as Hhit.
  destruct (proj2 (Hsecond outside He) Hout) as [Hread Hfresh].
  refine (conj HR (conj eq_refl (conj eq_refl (conj Hkeys (conj _
            (conj Hread (Hfresh eq_refl Hkeys))))))).
  unfold first. rewrite Hfst. exact Hhit.
Defined.

(** C9, as amended.  [clearCache(R)] removes the entry cached for [R] and
    no other.  If no call of [getUserPermissions(R)] is suspended at its
    [await] when [clearCache(R)] runs, then whatever else happens before the
    next call for [R] begins, be it writes, time passing, calls for other
    roles or suspended calls resumed, the cache holds no entry for [R] at
    that moment.  A call for [R] that finds no entry makes one round-trip
    to the storage and, the storage answering, returns the permission state
    persisted when the storage reads it: at once when the call runs to its
    end without interruption, at the moment the storage evaluates the
    statement when the call is suspended and resumed later.
    [clearCache()] empties the cache. *)
Theorem clearCache_forces_reload :
  (∀ (R : string) (w : World),
     R ≠ "" →
     fst (clearCache (Some R) w) = Return tt ∧
     permissionCache (snd (clearCache (Some R) w))
     = delete (cacheKey R) (permissionCache w)) ∧
  (∀ (R : string) (s : Service) (moves : list Move),
     R ≠ "" →
     (∀ l, l ∈ awaiting s → load_role l ≠ R) →
     Begin R ∉ moves →
     permissionCache (process (run moves (move (Clear (Some R)) s)))
       !! cacheKey R = None) ∧
  (∀ (R : string) (w2 : World),
     R ≠ "" → permissionCache w2 !! cacheKey R = None →
     queries (snd (getUserPermissions R w2)) = S (queries w2) ∧
     (answers w2 = true → matrix_keys (tables w2) →
        ∃ m, fst (getUserPermissions R w2) = Return m ∧
             reflects (tables w2) R m)) ∧
  (∀ (R : string) (w2 : World),
     R ≠ "" → permissionCache w2 !! cacheKey R = None →
     ∃ l, getUserPermissions_sent R w2 = (inr l, round_trip w2) ∧
          load_role l = R ∧ load_answer l = None ∧
          ∀ read : World,
            online read (load_query l) = true →
            matrix_keys (tables read) →
            ∃ m, reflects (tables read) R m ∧
                 ∀ w3, fst (getUserPermissions_resumed R
                              (storage_answer l read) w3) = Return m) ∧
  (∀ (w : World),
     fst (clearCache None w) = Return tt ∧
     permissionCache (snd (clearCache None w)) = ∅).
Proof.
  split; [|split; [|split; [|split; [|done]]]].
  - intros R w HR. unfold clearCache. by rewrite (truthy_string _ HR).
  - intros R s moves HR Hnone Hmoves.
    apply run_keeps_absent; [done | by apply Forall_forall |].
    simpl. unfold clearCache. rewrite (truthy_string _ HR). simpl.
    apply lookup_delete_eq.
  - intros R w2 HR Hcache.
    assert (expired R w2) as Hexp by (intros e He; congruence).
    rewrite getUserPermissions_miss by done.
    destruct (answers w2) eqn:Hon2.
    + rewrite loadPermissions_online by done. split; [done |].
      intros _ Hkeys. eexists. split; [done |]. by apply resolved_reflects.
    + by rewrite loadPermissions_offline.
  - intros R w2 HR Hcache.
    rewrite (getUserPermissions_sent_miss _ _ HR Hcache).
    eexists. split; [done |]. split; [done |]. split; [done |].
    intros read Hon Hkeys. exists (resolved (tables read) R).
    split; [by apply resolved_reflects |].
    intros w3. rewrite getUserPermissions_resumed_cases.
    unfold storage_answer. simpl in *. by rewrite Hon.
Qed.

Lemma clearCache_forces_reload_witness :
  let cached :=
    run [Begin "viewer"; Answer 0%nat; Resume 0%nat;
         Persist Sample.db_extended]
      (started (Sample.boot Sample.db true 0)) in
  let moves := [Elapse 1000; Begin "user"; Answer 0%nat; Resume 0%nat] in
  let s2 := run moves (move (Clear (Some "viewer")) cached) in
  "viewer" ≠ "" ∧
  is_Some (permissionCache (process cached) !! cacheKey "viewer") ∧
  (∀ l, l ∈ awaiting cached → load_role l ≠ "viewer") ∧
  (Begin "viewer" ∉ moves) ∧
  answers (process s2) = true ∧ matrix_keys (tables (process s2)) ∧
  permissionCache (process s2) !! cacheKey "viewer" = None ∧
  queries (snd (getUserPermissions "viewer" (process s2)))
  = S (queries (process s2)) ∧
  ∃ m, fst (getUserPermissions "viewer" (process s2)) = Return m ∧
       reflects (tables (process s2)) "viewer" m.
Proof.
  intros cached moves s2.
  assert ("viewer" ≠ "") as HR by discriminate.
  assert (is_Some (permissionCache (process cached) !! cacheKey "viewer"))
    as Hcached by (vm_compute; eauto).
  assert (∀ l, l ∈ awaiting cached → load_role l ≠ "viewer") as Hnone.
  { intros l Hl. vm_compute in Hl. by apply elem_of_nil in Hl. }
  assert (Begin "viewer" ∉ moves) as Hmoves.
  { intros H. unfold moves in H.
    repeat (apply elem_of_cons in H as [H|H]; [discriminate H |]).
    by apply elem_of_nil in H. }
  assert (matrix_keys (tables (process s2))) as Hkeys
    by exact extended_matrix_keys.
  pose proof (proj1 (proj2 clearCache_forces_reload) "viewer" cached moves
                HR Hnone Hmoves) as Habsent.
  destruct (proj1 (proj2 (proj2 clearCache_forces_reload)) "viewer"
              (process s2) HR Habsent) as [Hread Hfresh].
  exact (conj HR (conj Hcached (conj Hnone (conj Hmoves (conj eq_refl
          (conj Hkeys (conj Habsent (conj Hread
            (Hfresh eq_refl Hkeys))))))))).
Defined.

(** C9, the claim as stated fails.  A call of [getUserPermissions] for the
    viewer is suspended at its [await], and the storage reads for it the
    rows that grant the IoT dashboard; an administrator withdraws the grant
    and [clearCache] is called for the role; the suspended call resumes and
    caches the rows it was answered.  The very next call is served from the
    cache: it makes no round-trip, leaves the process as it was, and
    returns a grant that the persisted matrix no longer holds. *)
Lemma suspended_load_outlives_clearCache :
  let s := run [Begin "viewer"; Answer 0%nat; Persist Sample.db_withdrawn;
                Clear (Some "viewer"); Resume 0%nat]
             (started (Sample.boot Sample.db true 0)) in
  ∃ m, getUserPermissions "viewer" (process s) = (Return m, process s) ∧
       grants_access m "iot_dashboard" = true ∧
       ¬ reflects (tables (process s)) "viewer" m ∧
       ¬ ∃ d, granted (tables (process s)) "viewer" d ∧
              Dashboard.name d = "iot_dashboard".
Proof.
  intros s.
  assert (¬ ∃ d, granted Sample.db_withdrawn "viewer" d ∧
                 Dashboard.name d = "iot_dashboard") as Hwithdrawn.
  { intros (d & (Hd & _ & rp & Hrp & _ & _ & Hgrant) & _).
    simpl in Hrp.
    repeat (apply elem_of_cons in Hrp as [->|Hrp]); [..|by inversion Hrp];
      discriminate Hgrant. }
  eexists. split; [vm_compute; reflexivity |].
  split; [vm_compute; reflexivity |]. split; [|exact Hwithdrawn].
  intros Hreflects. apply Hwithdrawn.
  destruct (proj1 (Hreflects "iot_dashboard" _) eq_refl)
    as (d & Hd & Hname & _).
  by exists d.
Qed.

(** ** Cache keys and the loop of [refreshAllCaches] *)

Section Refresh.

Lemma startsWith_append (p s : string) : Js.startsWith p (p +:+ s) = true.
Proof.
  induction p as [|a p IH]; [done |].
  rewrite append_cons, startsWith_cons, Ascii.eqb_refl. exact IH.
Qed.

Lemma string_drop_append (p s : string) :
  string_drop (String.length p) (p +:+ s) = s.
Proof. induction p as [|a p IH]; [by destruct s | exact IH]. Qed.

Lemma replace_first_prefix (pattern replacement s : string) :
  replace_first pattern replacement (pattern +:+ s) = replacement +:+ s.
Proof.
  destruct (pattern +:+ s) as [|c rest] eqn:Heq; simpl;
    rewrite <- Heq, startsWith_append, string_drop_append; done.
Qed.

(** What a call for a named role does to the process: nothing on a hit, a
    load or a logged failure on a miss. *)
Lemma getUserPermissions_world (role : string) (w : World) :
  snd (getUserPermissions role w) = w ∨
  (role ≠ "" ∧ expired role w ∧ answers w = true ∧
   snd (getUserPermissions role w) = loaded role w) ∨
  (role ≠ "" ∧ expired role w ∧ answers w = false ∧
   snd (getUserPermissions role w)
   = logged "Error fetching user permissions:" (round_trip w)).
Proof.
  destruct (decide (role = "")) as [->|Hrole]; [by left |].
  destruct (hit_or_expired role w) as [(entry & He & Hfresh)|Hexp].
  - left. by rewrite (getUserPermissions_hit _ _ _ Hrole He Hfresh).
  - right. rewrite (getUserPermissions_miss _ _ Hrole Hexp).
    destruct (answers w) eqn:Hon.
    + left. by rewrite loadPermissions_online.
    + right. by rewrite loadPermissions_offline.
Qed.

(** One turn of the loop of [refreshAllCaches]. *)
Lemma reload_turn (role : string) (w : World) :
  (let* _ := getUserPermissions role in ret tt) w
  = (Return tt, snd (getUserPermissions role w)).
Proof.
  unfold bind. destruct (getUserPermissions_returns role w) as [m Hm].
  destruct (getUserPermissions role w) as [[m'|e] w']; [done |].
  simpl in Hm. discriminate.
Qed.

(** The process after the loop has run over [roles]. *)
Lemma reload_all (roles : list string) (w : World) :
  for_of roles (λ role, let* _ := getUserPermissions role in ret tt) w
  = (Return tt,
     fold_left (λ w' role, snd (getUserPermissions role w')) roles w).
Proof.
  revert w. induction roles as [|role roles IH]; intros w; [done |].
  simpl. unfold bind at 1. rewrite reload_turn. apply IH.
Qed.

Lemma refreshAllCaches_unfold (w : World) :
  refreshAllCaches w
  = (Return tt,
     fold_left (λ w' role, snd (getUserPermissions role w'))
       (replace_first "permissions_" "" <$> cached_keys w)
       (with_cache (λ _, ∅) w)).
Proof. unfold refreshAllCaches. apply reload_all. Qed.

(** A property kept by every call of [getUserPermissions] holds after the
    loop. *)
Lemma reload_all_keeps (P : World → Prop) (roles : list string) (w : World) :
  (∀ role w', P w' → P (snd (getUserPermissions role w'))) →
  P w →
  P (fold_left (λ w' role, snd (getUserPermissions role w')) roles w).
Proof.
  intros Hstep. revert w.
  induction roles as [|role roles IH]; intros w Hw; [done |].
  simpl. apply IH. by apply Hstep.
Qed.

End Refresh.

(** X1.  The role that [refreshAllCaches] reads off a cache key with
    [key.replace('permissions_', '')] is the role the key was made for,
    also when the name of the role itself contains [permissions_]; so two
    roles never share a key. *)
Theorem cache_key_round_trip :
  (∀ role : string, replace_first "permissions_" "" (cacheKey role) = role) ∧
  (∀ r1 r2 : string, cacheKey r1 = cacheKey r2 → r1 = r2).
Proof.
  assert (∀ role : string,
            replace_first "permissions_" "" (cacheKey role) = role) as Hback.
  { intros role. unfold cacheKey. by rewrite replace_first_prefix. }
  split; [done |].
  intros r1 r2 Hkey. by rewrite <- (Hback r1), Hkey, Hback.
Qed.

Lemma cache_key_round_trip_witness :
  cacheKey "permissions_x" = cacheKey "permissions_x" ∧
  replace_first "permissions_" "" (cacheKey "permissions_x")
  = "permissions_x" ∧
  "permissions_x" = "permissions_x".
Proof.
  exact (conj eq_refl
          (conj (proj1 cache_key_round_trip "permissions_x")
             (proj2 cache_key_round_trip "permissions_x" "permissions_x"
                eq_refl))).
Defined.

(** X2.  A call of [getUserPermissions] for one role leaves what is cached
    for every other role, and the persisted tables, as they were. *)
Theorem getUserPermissions_frame (role : string) (w : World) (key : string) :
  key ≠ cacheKey role →
  permissionCache (snd (getUserPermissions role w)) !! key
  = permissionCache w !! key ∧
  tables (snd (getUserPermissions role w)) = tables w.
Proof.
  intros Hkey.
  destruct (getUserPermissions_world role w)
    as [-> | [(_ & _ & _ & ->) | (_ & _ & _ & ->)]]; [done | | done].
  split; [|done]. simpl. by rewrite lookup_insert_ne.
Qed.

Lemma getUserPermissions_frame_witness :
  let w := snd (getUserPermissions "user" (Sample.boot Sample.db true 0)) in
  cacheKey "user" ≠ cacheKey "viewer" ∧
  permissionCache (snd (getUserPermissions "viewer" w)) !! cacheKey "user"
  = permissionCache w !! cacheKey "user" ∧
  tables (snd (getUserPermissions "viewer" w)) = tables w.
Proof.
  intros w.
  assert (cacheKey "user" ≠ cacheKey "viewer") as Hkey by discriminate.
  exact (conj Hkey (getUserPermissions_frame "viewer" w _ Hkey)).
Defined.

Section Turns.

Lemma turn_other_keys (role : string) (w : World) (key : string) :
  key ≠ cacheKey role →
  permissionCache (snd (getUserPermissions role w)) !! key
  = permissionCache w !! key.
Proof.
  intros Hkey.
  destruct (getUserPermissions_world role w)
    as [-> | [(_ & _ & _ & ->) | (_ & _ & _ & ->)]]; [done | | done].
  simpl. by rewrite lookup_insert_ne.
Qed.

(** A call never touches the tables, the availability of the storage or
    the latency. *)
Lemma turn_surroundings (role : string) (w : World) :
  tables (snd (getUserPermissions role w)) = tables w ∧
  online (snd (getUserPermissions role w)) = online w ∧
  latency (snd (getUserPermissions role w)) = latency w.
Proof.
  by destruct (getUserPermissions_world role w)
    as [-> | [(_ & _ & _ & ->) | (_ & _ & _ & ->)]].
Qed.

(** The keys a call can add: the key of its role, if the role has a name. *)
Lemma turn_keys_only (role : string) (w : World) (key : string) :
  is_Some (permissionCache (snd (getUserPermissions role w)) !! key) →
  is_Some (permissionCache w !! key) ∨ (role ≠ "" ∧ key = cacheKey role).
Proof.
  destruct (getUserPermissions_world role w)
    as [-> | [(Hrole & _ & _ & ->) | (_ & _ & _ & ->)]]; [by left | | by left].
  simpl. destruct (decide (key = cacheKey role)) as [->|Hne]; [by right |].
  rewrite lookup_insert_ne by done. by left.
Qed.

(** The storage answering, the key of a named role is cached after the
    call, and no key is lost. *)
Lemma turn_keys_answered (role : string) (w : World) (key : string) :
  answers w = true →
  is_Some (permissionCache w !! key) ∨ (role ≠ "" ∧ key = cacheKey role) →
  is_Some (permissionCache (snd (getUserPermissions role w)) !! key).
Proof.
  intros Hon Hkey.
  destruct (decide (role = "")) as [->|Hrole].
  { destruct Hkey as [Hkey|[Hrole _]]; done. }
  destruct (hit_or_expired role w) as [(entry & He & Hfresh)|Hexp].
  - rewrite (getUserPermissions_hit _ _ _ Hrole He Hfresh). simpl.
    destruct Hkey as [Hkey|[_ ->]]; [done | by rewrite He].
  - rewrite (getUserPermissions_miss _ _ Hrole Hexp).
    rewrite loadPermissions_online by done. simpl.
    destruct (decide (key = cacheKey role)) as [->|Hne].
    + rewrite lookup_insert_eq. eauto.
    + rewrite lookup_insert_ne by done.
      destruct Hkey as [Hkey|[_ Hkey]]; done.
Qed.

(** The storage not answering, the cache stays as it is. *)
Lemma turn_unanswered (role : string) (w : World) :
  answers w = false →
  permissionCache (snd (getUserPermissions role w)) = permissionCache w.
Proof.
  intros Hoff.
  destruct (getUserPermissions_world role w)
    as [-> | [(_ & _ & Hon & _) | (_ & _ & _ & ->)]]; [done | | done].
  congruence.
Qed.

(** A call for a named role that nothing is cached for makes one
    round-trip. *)
Lemma turn_counts (role : string) (w : World) :
  role ≠ "" → permissionCache w !! cacheKey role = None →
  queries (snd (getUserPermissions role w)) = S (queries w).
Proof.
  intros Hrole Hnone.
  assert (expired role w) as Hexp by (intros e He; congruence).
  rewrite (getUserPermissions_miss _ _ Hrole Hexp).
  destruct (answers w) eqn:Hon.
  - by rewrite loadPermissions_online.
  - by rewrite loadPermissions_offline.
Qed.

(** Whatever a call caches for a role is what the tables resolve to. *)
Lemma turn_contents (t : Tables) (role : string) (w : World) :
  tables w = t →
  (∀ r e, permissionCache w !! cacheKey r = Some e →
          permissions e = resolved t r) →
  ∀ r e,
    permissionCache (snd (getUserPermissions role w)) !! cacheKey r = Some e →
    permissions e = resolved t r.
Proof.
  intros Ht Hold r e.
  destruct (getUserPermissions_world role w)
    as [-> | [(_ & _ & _ & ->) | (_ & _ & _ & ->)]]; [apply Hold | | apply Hold].
  simpl. destruct (decide (r = role)) as [->|Hne].
  - rewrite lookup_insert_eq. intros [= <-]. simpl. by rewrite Ht.
  - rewrite lookup_insert_ne
      by (intros Hk; by apply cacheKey_inj in Hk).
    apply Hold.
Qed.

Lemma loop_surroundings (roles : list string) (w : World) :
  tables (reloaded roles w) = tables w ∧
  online (reloaded roles w) = online w ∧
  latency (reloaded roles w) = latency w.
Proof.
  apply (reload_all_keeps
           (λ w', tables w' = tables w ∧ online w' = online w ∧
                  latency w' = latency w)); [|done].
  intros role w' (Ht & Ho & Hl).
  destruct (turn_surroundings role w') as (-> & -> & ->). done.
Qed.

Lemma loop_keys_only (roles : list string) (w : World) (key : string) :
  is_Some (permissionCache (reloaded roles w) !! key) →
  is_Some (permissionCache w !! key) ∨
  ∃ role, role ∈ roles ∧ role ≠ "" ∧ key = cacheKey role.
Proof.
  revert w. induction roles as [|role roles IH]; intros w; simpl; [by left |].
  intros [Hkey|(r & Hr & Hne & ->)]%IH.
  - apply turn_keys_only in Hkey as [Hkey|[Hne ->]]; [by left |].
    right. exists role. split; [left | done].
  - right. exists r. split; [by right | done].
Qed.

Lemma loop_keys_answered (roles : list string) (w : World) (key : string) :
  (∀ n, online w n = true) →
  (is_Some (permissionCache w !! key) ∨
   ∃ role, role ∈ roles ∧ role ≠ "" ∧ key = cacheKey role) →
  is_Some (permissionCache (reloaded roles w) !! key).
Proof.
  revert w. induction roles as [|role roles IH]; intros w Hup; simpl.
  - intros [Hkey|(r & Hr & _)]; [done | by apply elem_of_nil in Hr].
  - intros Hkey. apply IH.
    + intros n. by destruct (turn_surroundings role w) as (_ & -> & _).
    + destruct Hkey as [Hkey|(r & Hr & Hne & ->)].
      * left. apply turn_keys_answered; [apply Hup | by left].
      * apply elem_of_cons in Hr as [->|Hr].
        -- left. apply turn_keys_answered; [apply Hup | by right].
        -- right. eauto.
Qed.

Lemma loop_unanswered (roles : list string) (w : World) :
  (∀ n, online w n = false) →
  permissionCache (reloaded roles w) = permissionCache w.
Proof.
  revert w. induction roles as [|role roles IH]; intros w Hdown; [done |].
  simpl. rewrite IH.
  - apply turn_unanswered, Hdown.
  - intros n. by destruct (turn_surroundings role w) as (_ & -> & _).
Qed.

Lemma loop_counts (roles : list string) (w : World) :
  NoDup roles →
  (∀ role, role ∈ roles →
           role ≠ "" ∧ permissionCache w !! cacheKey role = None) →
  queries (reloaded roles w) = (queries w + length roles)%nat.
Proof.
  revert w. induction roles as [|role roles IH]; intros w Hnd Hnone; simpl.
  - by rewrite Nat.add_0_r.
  - apply NoDup_cons in Hnd as [Hfresh Hnd].
    destruct (Hnone role) as [Hrole Hmiss]; [left |].
    rewrite IH; [|done|].
    + rewrite turn_counts by done. lia.
    + intros r Hr. destruct (Hnone r) as [Hne Hr']; [by right |].
      split; [done |]. rewrite turn_other_keys; [done |].
      intros Hk. apply cacheKey_inj in Hk as ->. done.
Qed.

Lemma loop_contents (roles : list string) (w : World) :
  (∀ r e, permissionCache w !! cacheKey r = Some e →
          permissions e = resolved (tables w) r) →
  ∀ r e, permissionCache (reloaded roles w) !! cacheKey r = Some e →
         permissions e = resolved (tables w) r.
Proof.
  intros Hstart.
  apply (reload_all_keeps
           (λ w', tables w' = tables w ∧
                  ∀ r e, permissionCache w' !! cacheKey r = Some e →
                         permissions e = resolved (tables w) r)); [|done].
  intros role w' [Ht Hold]. split.
  - by destruct (turn_surroundings role w') as (-> & _ & _).
  - by apply turn_contents.
Qed.

(** The roles read off the keys of a cache whose keys are keys of roles. *)
Lemma roles_of_keys (w : World) (role : string) :
  keys_of_roles w →
  role ∈ replace_first "permissions_" "" <$> cached_keys w ↔
  role ≠ "" ∧ is_Some (permissionCache w !! cacheKey role).
Proof.
  intros Hkeys. unfold cached_keys. rewrite list_elem_of_fmap. split.
  - intros (key & -> & Hkey).
    apply list_elem_of_fmap in Hkey as ([k e] & -> & Hke).
    apply elem_of_map_to_list in Hke. simpl.
    destruct (Hkeys k) as (r & Hr & ->); [eauto |].
    unfold cacheKey at 1 2. rewrite replace_first_prefix. simpl.
    split; [done | eauto].
  - intros [Hrole [e He]]. exists (cacheKey role). split.
    + unfold cacheKey. by rewrite replace_first_prefix.
    + apply list_elem_of_fmap. exists (cacheKey role, e). split; [done |].
      by apply elem_of_map_to_list.
Qed.

Lemma roles_of_keys_NoDup (w : World) :
  keys_of_roles w →
  NoDup (replace_first "permissions_" "" <$> cached_keys w).
Proof.
  intros Hkeys. apply NoDup_fmap_2_strong; [|apply NoDup_fst_map_to_list].
  intros k1 k2 Hk1 Hk2 Heq.
  assert (∀ k, k ∈ cached_keys w → ∃ r, k = cacheKey r) as Hform.
  { intros k ([k' e] & -> & Hke)%list_elem_of_fmap.
    apply elem_of_map_to_list in Hke.
    destruct (Hkeys k') as (r & _ & ->); eauto. }
  destruct (Hform _ Hk1) as [r1 ->]. destruct (Hform _ Hk2) as [r2 ->].
  unfold cacheKey in Heq.
  rewrite !replace_first_prefix, !append_empty in Heq. by rewrite Heq.
Qed.

End Turns.

(** ** Soundness of the cache *)

Section Soundness.

Lemma sound_empty (w : World) :
  permissionCache w = ∅ → 0 ≤ latency w → cache_sound w.
Proof.
  intros Hempty Hlat. split; [done |].
  intros key entry He. by rewrite Hempty, lookup_empty in He.
Qed.

(** Soundness survives the passing of time and the loss of entries. *)
Lemma sound_weaken (w w' : World) :
  tables w' = tables w → latency w' = latency w → now w ≤ now w' →
  (∀ key entry, permissionCache w' !! key = Some entry →
                permissionCache w !! key = Some entry) →
  cache_sound w → cache_sound w'.
Proof.
  intros Ht Hl Hnow Hsub [Hlat Hsound]. split; [by rewrite Hl |].
  intros key entry He.
  destruct (Hsound key entry (Hsub _ _ He)) as (role & Hrole & Hkey & Hg & Hco).
  exists role. split; [done |]. split; [done |]. split; [done |].
  intros Hfresh. rewrite Ht. apply Hco. unfold within_ttl in *. lia.
Qed.

Lemma sound_getUserPermissions (role : string) (w : World) :
  cache_sound w → cache_sound (snd (getUserPermissions role w)).
Proof.
  intros Hsound.
  destruct (getUserPermissions_world role w)
    as [-> | [(Hrole & _ & _ & ->) | (_ & _ & _ & ->)]]; [done | |].
  - destruct Hsound as [Hlat Hsound]. split; [done |].
    intros key entry He. simpl in He.
    destruct (decide (key = cacheKey role)) as [->|Hne].
    + rewrite lookup_insert_eq in He. injection He as <-.
      exists role. split; [done |]. split; [done |]. split; [|done].
      intros D p Hp. simpl in Hp. by apply resolved_lookup in Hp as [Hp _].
    + rewrite lookup_insert_ne in He by done.
      destruct (Hsound key entry He) as (r & Hr & Hkey & Hg & Hco).
      exists r. split; [done |]. split; [done |]. split; [done |].
      intros Hfresh. apply Hco. unfold within_ttl in *. simpl in Hfresh. lia.
  - apply (sound_weaken w); [done | done | | done | done].
    destruct Hsound as [Hlat _]. simpl. lia.
Qed.

Lemma sound_coherent (w : World) (role : string) :
  cache_sound w → cache_coherent role w.
Proof.
  intros [_ Hsound] entry He Hfresh.
  destruct (Hsound _ _ He) as (r & _ & Hkey & _ & Hco).
  apply cacheKey_inj in Hkey as ->. by apply Hco.
Qed.

Lemma sound_keys (w : World) : cache_sound w → keys_of_roles w.
Proof.
  intros [_ Hsound] key [entry He].
  destruct (Hsound _ _ He) as (r & Hr & Hkey & _). eauto.
Qed.

Lemma sound_clearCache (role : option string) (w : World) :
  cache_sound w → cache_sound (snd (clearCache role w)).
Proof.
  intros Hsound.
  assert (snd (clearCache role w) = with_cache (λ _, ∅) w ∨
          ∃ k, snd (clearCache role w) = with_cache (delete k) w)
    as [-> | [k ->]].
  { unfold clearCache. destruct role as [r|]; [|by left].
    destruct (Js.falsy_string r); [by left | right; eauto]. }
  - apply sound_empty; [done | apply Hsound].
  - apply (sound_weaken w); [done | done | done | | done].
    intros key entry He. simpl in He.
    by apply lookup_delete_Some in He as [_ He].
Qed.

Lemma rows_or_caught_returns
    (statement : Tables → completion (list Client.row)) (w : World) :
  ∃ rows, fst (rows_or_caught statement w) = Return rows.
Proof.
  rewrite rows_or_caught_result.
  destruct (answers w); [|eauto].
  destruct (statement (tables w)); eauto.
Qed.

(** [getAccessibleClients] always returns. *)
Lemma getAccessibleClients_returns (userId : Z) (w : World) :
  ∃ rows, fst (getAccessibleClients userId w) = Return rows.
Proof.
  rewrite getAccessibleClients_unfold.
  destruct (userId =? 0); [eauto |].
  destruct (answers w); [|eauto].
  destruct (filter _ (users (tables w))) as [|u rest]; [eauto |].
  destruct (String.eqb (User.roles u) "admin");
    [apply rows_or_caught_returns |].
  destruct (Js.includes (User.roles u) "_admin"
            && Js.truthy_id (User.client_id u));
    [apply rows_or_caught_returns |].
  destruct (Js.truthy_id (User.client_id u));
    [apply rows_or_caught_returns | eauto].
Qed.

(** [canUserAccessClient] spelled out: its [catch] block is never
    entered. *)
Lemma canUserAccessClient_unfold (userId clientId : Z) (w : World) :
  canUserAccessClient userId clientId w =
  if (userId =? 0) || (clientId =? 0) then (Return false, w)
  else
    match fst (getAccessibleClients userId w) with
    | Return rows =>
        (Return (some_client clientId rows),
         snd (getAccessibleClients userId w))
    | Throw _ => (Return false, w)
    end.
Proof.
  unfold canUserAccessClient, Js.falsy_number.
  destruct ((userId =? 0) || (clientId =? 0)); [done |].
  unfold try_catch, bind.
  destruct (getAccessibleClients_returns userId w) as [rows Hrows].
  destruct (getAccessibleClients userId w) as [[rows'|e] w']; [done |].
  simpl in Hrows. discriminate.
Qed.

(** [canUserManageClient] spelled out. *)
Lemma canUserManageClient_unfold (userId clientId : Z) (w : World) :
  canUserManageClient userId clientId w =
  if (userId =? 0) || (clientId =? 0) then (Return false, w)
  else if answers w then
    match filter (λ x, User.id x = userId) (users (tables w)) with
    | [] => (Return false, round_trip w)
    | u :: _ =>
        if String.eqb (User.roles u) "admin" then (Return true, round_trip w)
        else if User.can_manage_hierarchy u
                && Js.truthy_id (User.client_id u) then
          match fst (getAccessibleClients userId (round_trip w)) with
          | Return rows =>
              (Return (some_client clientId rows),
               snd (getAccessibleClients userId (round_trip w)))
          | Throw _ => (Return false, w)
          end
        else (Return false, round_trip w)
    end
  else (Return false,
        logged "Error checking client management access:" (round_trip w)).
Proof.
  unfold canUserManageClient, Js.falsy_number.
  destruct ((userId =? 0) || (clientId =? 0)); [done |].
  unfold try_catch, bind, database_query, select_user.
  destruct (answers w); [|done].
  destruct (filter _ (users (tables w))) as [|u rest]; [done |].
  destruct (String.eqb (User.roles u) "admin"); [done |].
  destruct (User.can_manage_hierarchy u
            && Js.truthy_id (User.client_id u)); [|done].
  destruct (getAccessibleClients_returns userId (round_trip w))
    as [rows Hrows].
  destruct (getAccessibleClients userId (round_trip w)) as [[rows'|e] w'];
    [done |].
  simpl in Hrows. discriminate.
Qed.

Lemma sound_getAccessibleClients (userId : Z) (w : World) :
  cache_sound w → cache_sound (snd (getAccessibleClients userId w)).
Proof.
  intros Hsound.
  destruct (getAccessibleClients_world userId w) as (Ht & Hc & Hl & Hnow);
    [apply Hsound |].
  apply (sound_weaken w); [done | done | done | | done].
  intros key entry. by rewrite Hc.
Qed.

Lemma sound_round_trip (w : World) : cache_sound w → cache_sound (round_trip w).
Proof.
  intros Hsound. apply (sound_weaken w); [done | done | | done | done].
  destruct Hsound as [Hlat _]. simpl. lia.
Qed.

Lemma sound_hasPermission (role dashboardName : string) (w : World) :
  cache_sound w → cache_sound (snd (hasPermission role dashboardName w)).
Proof.
  intros Hsound.
  destruct (hasPermission_world role dashboardName w) as [-> | ->];
    [done | by apply sound_getUserPermissions].
Qed.

Lemma sound_refreshAllCaches (w : World) :
  0 ≤ latency w → cache_sound (snd (refreshAllCaches w)).
Proof.
  intros Hlat. rewrite refreshAllCaches_unfold. simpl.
  apply (reload_all_keeps cache_sound).
  - intros role w'. apply sound_getUserPermissions.
  - by apply sound_empty.
Qed.

End Soundness.

(** ** Turns of the process *)

Section Turns_of_the_process.

(** The rows the permission statement selects all grant access. *)
Lemma select_permissions_grant (role : string) (t : Tables)
    (rows : list PermissionRow) (row : PermissionRow) :
  select_permissions role t = Return rows → row ∈ rows →
  pr_can_access row = true.
Proof.
  intros Hsel Hrow.
  destruct (proj1 (select_permissions_rows role t row))
    as (rp & d & _ & _ & Hg & ->); [by exists rows |].
  by apply grants_true in Hg as (_ & _ & _ & Hg).
Qed.

(** Whatever is cached stays well formed when a key goes. *)
Lemma well_formed_subcache (w w' : World) :
  (∀ key entry, permissionCache w' !! key = Some entry →
                permissionCache w !! key = Some entry) →
  cache_well_formed w → cache_well_formed w'.
Proof. intros Hsub Hw key entry He. by apply Hw, Hsub. Qed.

(** Every turn keeps the cache and the suspended calls well formed. *)
Lemma move_keeps_well_formed (m : Move) (s : Service) :
  cache_well_formed (process s) → Forall load_well_formed (awaiting s) →
  cache_well_formed (process (move m s)) ∧
  Forall load_well_formed (awaiting (move m s)).
Proof.
  intros Hcache Hloads.
  destruct m as [role|n|n|role|t|d|up| |message]; simpl; try done.
  - destruct (getUserPermissions_sent_cases role (process s))
      as [[m ->]|[Hrole ->]]; [done |].
    split; [done |]. apply Forall_cons. split; [|done].
    split; [done |]. simpl. intros rows row Hrows. discriminate Hrows.
  - destruct (awaiting s !! n) as [l|] eqn:Hl; [|done].
    destruct (load_answer l) eqn:Hanswer; [done |]. simpl.
    split; [done |]. apply Forall_insert; [done |].
    destruct (Forall_lookup_1 _ _ _ _ Hloads Hl) as [Hrole _].
    split; [done |]. simpl. intros rows row [= Hrows].
    unfold storage_answer in Hrows.
    destruct (online (process s) (load_query l)); [|done].
    by apply (select_permissions_grant (load_role l) (tables (process s))).
  - destruct (awaiting s !! n) as [l|] eqn:Hl; [|done].
    destruct (load_answer l) as [answer|] eqn:Hanswer; [|done]. simpl.
    split; [|by apply Forall_delete].
    destruct (Forall_lookup_1 _ _ _ _ Hloads Hl) as [Hrole Hrows].
    rewrite getUserPermissions_resumed_cases.
    destruct answer as [rows|e]; [|done]. simpl.
    intros key entry He. simpl in He.
    destruct (decide (key = cacheKey (load_role l))) as [->|Hne].
    + rewrite lookup_insert_eq in He. injection He as <-.
      split; [eauto |]. simpl. intros D p Hp.
      apply permissionObj_of_lookup in Hp as (row & Hrow & _ & ->).
      by apply (Hrows rows).
    + rewrite lookup_insert_ne in He by done. by apply Hcache.
  - split; [|done]. apply (well_formed_subcache (process s)); [|done].
    intros key entry. unfold clearCache.
    destruct role as [r|]; [|simpl; by rewrite lookup_empty].
    destruct (Js.falsy_string r); simpl; [by rewrite lookup_empty |].
    by intros [_ He]%lookup_delete_Some.
Qed.

(** A call of [getUserPermissions] that nothing interrupts is the turn
    that begins it, the answer of the storage and the turn that resumes
    it. *)
Lemma run_getUserPermissions (role : string) (w : World) (ps : list Load) :
  ∃ moves, run moves {| process := w; awaiting := ps |}
           = {| process := snd (getUserPermissions role w); awaiting := ps |}.
Proof.
  rewrite getUserPermissions_split.
  destruct (getUserPermissions_sent_cases role w) as [[m Hm]|[_ Hl]].
  - rewrite Hm. by exists [].
  - rewrite Hl. exists [Begin role; Answer 0%nat; Resume 0%nat].
    unfold run. simpl. by rewrite Hl.
Qed.

Lemma run_reloaded (roles : list string) (w : World) (ps : list Load) :
  ∃ moves, run moves {| process := w; awaiting := ps |}
           = {| process := reloaded roles w; awaiting := ps |}.
Proof.
  revert w. induction roles as [|role roles IH]; intros w; [by exists [] |].
  destruct (run_getUserPermissions role w ps) as [moves1 H1].
  destruct (IH (snd (getUserPermissions role w))) as [moves2 H2].
  exists (moves1 ++ moves2). by rewrite run_app, H1.
Qed.

Lemma run_getAccessibleClients (userId : Z) (w : World) (ps : list Load) :
  ∃ moves, run moves {| process := w; awaiting := ps |}
           = {| process := snd (getAccessibleClients userId w);
                awaiting := ps |}.
Proof.
  rewrite getAccessibleClients_unfold.
  assert (∀ statement : Tables → completion (list Client.row),
    ∃ moves, run moves {| process := w; awaiting := ps |}
             = {| process := snd (rows_or_caught statement (round_trip w));
                  awaiting := ps |}) as Hsent.
  { intros statement.
    destruct (rows_or_caught_world statement (round_trip w)) as [-> | ->].
    - by exists [Query; Query].
    - by exists [Query; Query; Log "Error getting accessible clients:"]. }
  destruct (userId =? 0); [by exists [] |].
  destruct (answers w);
    [|by exists [Query; Log "Error getting accessible clients:"]].
  destruct (filter _ (users (tables w))) as [|u rest]; [by exists [Query] |].
  destruct (String.eqb (User.roles u) "admin"); [apply Hsent |].
  destruct (Js.includes (User.roles u) "_admin"
            && Js.truthy_id (User.client_id u)); [apply Hsent |].
  destruct (Js.truthy_id (User.client_id u));
    [apply Hsent | by exists [Query]].
Qed.

(** A call of any of the ten methods that nothing interrupts is a run of
    turns. *)
Lemma run_after (c : Call) (w : World) (ps : list Load) :
  ∃ moves, run moves {| process := w; awaiting := ps |}
           = {| process := after c w; awaiting := ps |}.
Proof.
  destruct c as [userId clientId|userId clientId|userId|role
    |role dashboardName|role clientId|role clientId|role clientId|role|];
    simpl.
  - rewrite canUserAccessClient_unfold.
    destruct ((userId =? 0) || (clientId =? 0)); [by exists [] |].
    destruct (getAccessibleClients_returns userId w) as [rows ->].
    apply run_getAccessibleClients.
  - rewrite canUserManageClient_unfold.
    destruct ((userId =? 0) || (clientId =? 0)); [by exists [] |].
    destruct (answers w);
      [|by exists [Query; Log "Error checking client management access:"]].
    destruct (filter _ (users (tables w))) as [|u rest]; [by exists [Query] |].
    destruct (String.eqb (User.roles u) "admin"); [by exists [Query] |].
    destruct (User.can_manage_hierarchy u
              && Js.truthy_id (User.client_id u)); [|by exists [Query]].
    destruct (getAccessibleClients_returns userId (round_trip w))
      as [rows ->].
    destruct (run_getAccessibleClients userId (round_trip w) ps)
      as [moves Hmoves].
    by exists (Query :: moves).
  - apply run_getAccessibleClients.
  - apply run_getUserPermissions.
  - destruct (hasPermission_world role dashboardName w) as [-> | ->];
      [by exists [] | apply run_getUserPermissions].
  - unfold canAccessIoTDashboard.
    destruct (String.eqb role "admin"); [by exists [] |]. unfold bind.
    destruct (hasPermission_world role "iot_dashboard" w) as [Hw|Hw];
      destruct (hasPermission role "iot_dashboard" w) as [[b|e] w'];
      simpl in *; subst w';
      solve [by exists [] | apply run_getUserPermissions].
  - unfold canAccessMotorDashboard.
    destruct (String.eqb role "admin"); [by exists [] |]. unfold bind.
    destruct (hasPermission_world role "motor_dashboard" w) as [Hw|Hw];
      destruct (hasPermission role "motor_dashboard" w) as [[b|e] w'];
      simpl in *; subst w';
      solve [by exists [] | apply run_getUserPermissions].
  - destruct (run_getUserPermissions role w ps) as [moves Hmoves].
    exists moves. rewrite Hmoves. unfold getAccessibleDashboards, bind.
    by destruct (getUserPermissions role w) as [[m|e] w'].
  - by exists [Clear role].
  - rewrite refreshAllCaches_unfold. simpl.
    destruct (run_reloaded
                (replace_first "permissions_" "" <$> cached_keys w)
                (with_cache (λ _, ∅) w) ps) as [moves Hmoves].
    by exists (Clear None :: moves).
Qed.

End Turns_of_the_process.

(** X3.  In every state an installation passes through, whatever the
    order in which calls begin and resume, caches are cleared, tables are
    written and the clock moves, every cache key is [permissions_] followed
    by a non-empty role name and every cached permission has [can_access]
    true; so have the rows the storage has read for the calls that are
    suspended.  A call of any of the ten methods that runs without
    interruption is such a sequence of turns. *)
Theorem overlapping_calls_keep_cache_well_formed :
  (∀ s : Service,
     in_service s →
     cache_well_formed (process s) ∧
     Forall load_well_formed (awaiting s)) ∧
  (∀ (c : Call) (w : World) (ps : list Load),
     ∃ moves, run moves {| process := w; awaiting := ps |}
              = {| process := after c w; awaiting := ps |}).
Proof.
  split; [|apply run_after].
  induction 1 as [w Hempty|m s _ [Hcache Hloads]].
  - split; [|done]. intros key entry He. simpl in He.
    by rewrite Hempty, lookup_empty in He.
  - by apply move_keeps_well_formed.
Qed.

Lemma overlapping_calls_keep_cache_well_formed_witness :
  let s := run [Begin "viewer"; Begin "user"; Answer 1%nat;
                Persist Sample.db_withdrawn; Answer 0%nat;
                Clear (Some "viewer"); Resume 1%nat]
             (started (Sample.boot Sample.db true 0)) in
  in_service s ∧
  is_Some (permissionCache (process s) !! cacheKey "viewer") ∧
  length (awaiting s) = 1%nat ∧
  cache_well_formed (process s) ∧ Forall load_well_formed (awaiting s).
Proof.
  intros s.
  assert (in_service s) as Hs.
  { do 7 apply in_service_move. by apply in_service_boot. }
  assert (is_Some (permissionCache (process s) !! cacheKey "viewer"))
    as Hcached by (vm_compute; eauto).
  exact (conj Hs (conj Hcached (conj eq_refl
          (proj1 overlapping_calls_keep_cache_well_formed s Hs)))).
Defined.

(** X4.  Whatever the cache held before, stale entries included,
    [refreshAllCaches] returns normally and leaves a sound cache: no
    unexpired entry differs from the persisted matrix. *)
Theorem refreshAllCaches_restores_coherence (w : World) :
  0 ≤ latency w →
  fst (refreshAllCaches w) = Return tt ∧
  cache_sound (snd (refreshAllCaches w)) ∧
  ∀ role, cache_coherent role (snd (refreshAllCaches w)).
Proof.
  intros Hlat. split; [by rewrite refreshAllCaches_unfold |].
  split; [by apply sound_refreshAllCaches |].
  intros role. by apply sound_coherent, sound_refreshAllCaches.
Qed.

Lemma refreshAllCaches_restores_coherence_witness :
  let stale :=
    Sample.later Sample.db_withdrawn 1000
      (snd (hasPermission "viewer" "iot_dashboard"
              (Sample.boot Sample.db true 0))) in
  0 ≤ latency stale ∧
  fst (refreshAllCaches stale) = Return tt ∧
  cache_sound (snd (refreshAllCaches stale)) ∧
  ∀ role, cache_coherent role (snd (refreshAllCaches stale)).
Proof.
  intros stale.
  assert (0 ≤ latency stale) as Hlat by (vm_compute; discriminate).
  exact (conj Hlat (refreshAllCaches_restores_coherence stale Hlat)).
Defined.

(** X5.  When the storage answers, [refreshAllCaches] keeps exactly the
    roles that were cached, replaces what is cached for each by what the
    persisted matrix resolves to, and makes one round-trip per cached
    role. *)
Theorem refreshAllCaches_reloads_cached_roles (w : World) :
  keys_of_roles w → (∀ n, online w n = true) →
  (∀ key, is_Some (permissionCache (snd (refreshAllCaches w)) !! key) ↔
          is_Some (permissionCache w !! key)) ∧
  (∀ role entry,
     permissionCache (snd (refreshAllCaches w)) !! cacheKey role = Some entry →
     permissions entry = resolved (tables w) role) ∧
  queries (snd (refreshAllCaches w))
  = (queries w + size (permissionCache w))%nat.
Proof.
  intros Hkeys Hup. rewrite refreshAllCaches_unfold. simpl.
  split; [|split].
  - intros key. split.
    + intros [Hkey|(role & Hrole & _ & ->)]%loop_keys_only.
      * simpl in Hkey. rewrite lookup_empty in Hkey. by destruct Hkey.
      * by apply roles_of_keys in Hrole as [_ Hrole].
    + intros Hkey. apply loop_keys_answered; [done |].
      right. destruct (Hkeys key Hkey) as (role & Hrole & ->).
      exists role. split; [by apply roles_of_keys | done].
  - intros role entry He.
    apply (loop_contents _ (with_cache (λ _, ∅) w)) in He; [done |].
    intros r e Hr. simpl in Hr. by rewrite lookup_empty in Hr.
  - rewrite loop_counts.
    + simpl. unfold cached_keys.
      by rewrite length_fmap, length_fmap, length_map_to_list.
    + by apply roles_of_keys_NoDup.
    + intros role [Hrole _]%roles_of_keys; [|done].
      split; [done |]. simpl. apply lookup_empty.
Qed.

Lemma refreshAllCaches_reloads_cached_roles_witness :
  let stale :=
    Sample.later Sample.db_withdrawn 1000
      (snd (hasPermission "viewer" "iot_dashboard"
              (Sample.boot Sample.db true 0))) in
  keys_of_roles stale ∧ (∀ n, online stale n = true) ∧
  queries (snd (refreshAllCaches stale))
  = (queries stale + size (permissionCache stale))%nat.
Proof.
  intros stale.
  assert (cache_sound (snd (hasPermission "viewer" "iot_dashboard"
                              (Sample.boot Sample.db true 0)))) as Hserved.
  { apply sound_hasPermission, sound_empty;
      [done | vm_compute; discriminate]. }
  assert (keys_of_roles stale) as Hkeys by exact (sound_keys _ Hserved).
  assert (∀ n, online stale n = true) as Hup by done.
  exact (conj Hkeys (conj Hup
          (proj2 (proj2 (refreshAllCaches_reloads_cached_roles stale
                           Hkeys Hup))))).
Defined.

(** X6.  [refreshAllCaches] never caches a role that was not cached
    before, and when the storage does not answer it leaves the cache
    empty: the entries it cleared are not put back. *)
Theorem refreshAllCaches_adds_no_role (w : World) :
  keys_of_roles w →
  (∀ key, is_Some (permissionCache (snd (refreshAllCaches w)) !! key) →
          is_Some (permissionCache w !! key)) ∧
  ((∀ n, online w n = false) →
   permissionCache (snd (refreshAllCaches w)) = ∅).
Proof.
  intros Hkeys. rewrite refreshAllCaches_unfold. simpl. split.
  - intros key [Hkey|(role & Hrole & _ & ->)]%loop_keys_only.
    + simpl in Hkey. rewrite lookup_empty in Hkey. by destruct Hkey.
    + by apply roles_of_keys in Hrole as [_ Hrole].
  - intros Hdown. by rewrite loop_unanswered.
Qed.

Lemma refreshAllCaches_adds_no_role_witness :
  let w := set_online (λ _, false)
             (snd (getUserPermissions "viewer"
                     (Sample.boot Sample.db true 0))) in
  keys_of_roles w ∧ (∀ n, online w n = false) ∧
  is_Some (permissionCache w !! cacheKey "viewer") ∧
  permissionCache (snd (refreshAllCaches w)) = ∅ ∧
  (∀ key, is_Some (permissionCache (snd (refreshAllCaches w)) !! key) →
          is_Some (permissionCache w !! key)).
Proof.
  intros w.
  assert (keys_of_roles w) as Hkeys.
  { apply (sound_keys (snd (getUserPermissions "viewer"
                              (Sample.boot Sample.db true 0)))).
    apply sound_getUserPermissions, sound_empty;
      [done | vm_compute; discriminate]. }
  assert (∀ n, online w n = false) as Hdown by done.
  assert (is_Some (permissionCache w !! cacheKey "viewer")) as Hcached
    by (vm_compute; eauto).
  exact (conj Hkeys (conj Hdown (conj Hcached
          (conj (proj2 (refreshAllCaches_adds_no_role w Hkeys) Hdown)
             (proj1 (refreshAllCaches_adds_no_role w Hkeys)))))).
Defined.

(** ** The resolver seen by its callers *)

Section Callers.

Lemma some_client_true (clientId : Z) (rows : list Client.row) :
  some_client clientId rows = true ↔
  ∃ c, c ∈ rows ∧ Client.client_id c = clientId.
Proof.
  unfold some_client. rewrite existsb_exists. split.
  - intros (c & Hc & Hid). exists c.
    split; [by apply list_elem_of_In | by apply Z.eqb_eq].
  - intros (c & Hc & Hid). exists c.
    split; [by apply list_elem_of_In | by apply Z.eqb_eq].
Qed.

Lemma nonzero_ids (userId clientId : Z) :
  userId ≠ 0 → clientId ≠ 0 → (userId =? 0) || (clientId =? 0) = false.
Proof.
  intros Hu Hc. apply orb_false_iff. by split; apply Z.eqb_neq.
Qed.

(** The decision of [canUserAccessClient] on the rows of
    [getAccessibleClients]. *)
Lemma canUserAccessClient_rows (userId clientId : Z) (w : World)
    (rows : list Client.row) :
  userId ≠ 0 → clientId ≠ 0 →
  fst (getAccessibleClients userId w) = Return rows →
  fst (canUserAccessClient userId clientId w)
  = Return (some_client clientId rows).
Proof.
  intros Hu Hc Hrows.
  by rewrite canUserAccessClient_unfold, nonzero_ids, Hrows.
Qed.

(** The rows of the branch statement are active rows of the table. *)
Lemma select_branch_clients_active (clientId : Z) (t : Tables)
    (rows : list Client.row) (c : Client.row) :
  select_branch_clients clientId t = Return rows → c ∈ rows →
  c ∈ client t ∧ Client.is_active c = true.
Proof.
  unfold select_branch_clients.
  destruct (select_path_pattern clientId t) as [pattern|e]; [|done].
  intros [= <-]. rewrite elem_of_order_by, list_elem_of_filter.
  unfold in_branch. rewrite andb_true_iff. tauto.
Qed.

(** An assignment to a client that has no row selects nothing. *)
Lemma select_branch_clients_dangling (clientId : Z) (t : Tables) :
  (∀ c, c ∈ client t → Client.client_id c ≠ clientId) →
  select_branch_clients clientId t = Return [].
Proof.
  intros Hnone. unfold select_branch_clients, select_path_pattern.
  rewrite (filter_key_absent Client.client_id) by done.
  f_equal.
  assert (filter (λ c, in_branch clientId None c = true) (client t) = [])
    as ->; [|done].
  induction (client t) as [|c cs IH]; [done |].
  rewrite filter_cons_False.
  - apply IH. intros c' Hc'. apply Hnone. by right.
  - unfold in_branch. rewrite orb_false_r, andb_true_iff.
    rewrite bool_decide_eq_true. intros [_ Hid].
    by apply (Hnone c); [left |].
Qed.

(** What [getAccessibleClients] writes to the console: nothing, or the
    message of its own [catch] block. *)
Lemma getAccessibleClients_console (userId : Z) (w : World) :
  console (snd (getAccessibleClients userId w)) = console w ∨
  console (snd (getAccessibleClients userId w))
  = "Error getting accessible clients:" :: console w.
Proof.
  rewrite getAccessibleClients_unfold.
  assert (∀ statement : Tables → completion (list Client.row),
    console (snd (rows_or_caught statement (round_trip w))) = console w ∨
    console (snd (rows_or_caught statement (round_trip w)))
    = "Error getting accessible clients:" :: console w) as Hsent.
  { intros statement.
    destruct (rows_or_caught_world statement (round_trip w)) as [-> | ->];
      [by left | by right]. }
  destruct (userId =? 0); [by left |].
  destruct (answers w); [|by right].
  destruct (filter _ (users (tables w))) as [|u rest]; [by left |].
  destruct (String.eqb (User.roles u) "admin"); [apply Hsent |].
  destruct (Js.includes (User.roles u) "_admin"
            && Js.truthy_id (User.client_id u)); [apply Hsent |].
  destruct (Js.truthy_id (User.client_id u)); [apply Hsent | by left].
Qed.

(** [hasPermission] always returns. *)
Lemma hasPermission_returns (role dashboardName : string) (w : World) :
  ∃ b, fst (hasPermission role dashboardName w) = Return b.
Proof.
  unfold hasPermission.
  destruct (Js.falsy_string role || Js.falsy_string dashboardName);
    [eauto |].
  destruct (String.eqb role "admin"); [eauto |]. unfold bind.
  destruct (getUserPermissions_returns role w) as [m Hm].
  destruct (getUserPermissions role w) as [[m'|e] w']; [eauto |].
  simpl in Hm. discriminate.
Qed.

End Callers.

(** X7.  No method of the service hands an error to its caller, whatever
    the state of the cache, the tables and the storage: also the methods
    that have no [try] block of their own always return.  The [catch] block
    of [canUserAccessClient] never runs: the call returns the decision on
    the rows of [getAccessibleClients] and leaves the process as that call
    leaves it.  The [catch] block of [canUserManageClient] runs when the
    lookup of the user is not answered, in which case the call logs and
    returns false, and at no other time. *)
Theorem no_method_throws (w : World) :
  (∀ userId clientId,
     ∃ b, fst (canUserAccessClient userId clientId w) = Return b) ∧
  (∀ userId clientId,
     ∃ b, fst (canUserManageClient userId clientId w) = Return b) ∧
  (∀ userId, ∃ rows, fst (getAccessibleClients userId w) = Return rows) ∧
  (∀ role, ∃ m, fst (getUserPermissions role w) = Return m) ∧
  (∀ role dashboardName,
     ∃ b, fst (hasPermission role dashboardName w) = Return b) ∧
  (∀ role clientId,
     ∃ b, fst (canAccessIoTDashboard role clientId w) = Return b) ∧
  (∀ role clientId,
     ∃ b, fst (canAccessMotorDashboard role clientId w) = Return b) ∧
  (∀ role clientId,
     ∃ l, fst (getAccessibleDashboards role clientId w) = Return l) ∧
  (∀ role, fst (clearCache role w) = Return tt) ∧
  fst (refreshAllCaches w) = Return tt ∧
  (∀ userId clientId,
     userId ≠ 0 → clientId ≠ 0 →
     ∃ rows,
       fst (getAccessibleClients userId w) = Return rows ∧
       canUserAccessClient userId clientId w
       = (Return (some_client clientId rows),
          snd (getAccessibleClients userId w))) ∧
  (∀ userId clientId,
     userId ≠ 0 → clientId ≠ 0 → answers w = false →
     canUserManageClient userId clientId w
     = (Return false,
        logged "Error checking client management access:" (round_trip w))) ∧
  (∀ userId clientId,
     answers w = true →
     console (snd (canUserManageClient userId clientId w)) = console w ∨
     console (snd (canUserManageClient userId clientId w))
     = "Error getting accessible clients:" :: console w).
Proof.
  assert (∀ role dashboardName,
            ∃ b, fst (hasPermission role dashboardName w) = Return b)
    as Hhas by (intros; apply hasPermission_returns).
  repeat split.
  - intros userId clientId. rewrite canUserAccessClient_unfold.
    destruct ((userId =? 0) || (clientId =? 0)); [eauto |].
    destruct (fst (getAccessibleClients userId w)); eauto.
  - intros userId clientId. rewrite canUserManageClient_unfold.
    destruct ((userId =? 0) || (clientId =? 0)); [eauto |].
    destruct (answers w); [|eauto].
    destruct (filter _ (users (tables w))) as [|u rest]; [eauto |].
    destruct (String.eqb (User.roles u) "admin"); [eauto |].
    destruct (User.can_manage_hierarchy u
              && Js.truthy_id (User.client_id u)); [|eauto].
    destruct (fst (getAccessibleClients userId (round_trip w))); eauto.
  - intros userId. apply getAccessibleClients_returns.
  - intros role. apply getUserPermissions_returns.
  - exact Hhas.
  - intros role clientId. unfold canAccessIoTDashboard.
    destruct (String.eqb role "admin"); [eauto |]. unfold bind.
    destruct (Hhas role "iot_dashboard") as [b Hb].
    destruct (hasPermission role "iot_dashboard" w) as [[b'|e] w'];
      [eauto |].
    simpl in Hb. discriminate.
  - intros role clientId. unfold canAccessMotorDashboard.
    destruct (String.eqb role "admin"); [eauto |]. unfold bind.
    destruct (Hhas role "motor_dashboard") as [b Hb].
    destruct (hasPermission role "motor_dashboard" w) as [[b'|e] w'];
      [eauto |].
    simpl in Hb. discriminate.
  - intros role clientId. unfold getAccessibleDashboards, bind.
    destruct (getUserPermissions_returns role w) as [m Hm].
    destruct (getUserPermissions role w) as [[m'|e] w']; [eauto |].
    simpl in Hm. discriminate.
  - intros [r|]; [|done]. unfold clearCache.
    by destruct (Js.falsy_string r).
  - by rewrite refreshAllCaches_unfold.
  - intros userId clientId Hu Hc.
    destruct (getAccessibleClients_returns userId w) as [rows Hrows].
    exists rows. split; [done |].
    by rewrite canUserAccessClient_unfold, nonzero_ids, Hrows.
  - intros userId clientId Hu Hc Hoff.
    by rewrite canUserManageClient_unfold, nonzero_ids, Hoff.
  - intros userId clientId Hon. rewrite canUserManageClient_unfold, Hon.
    destruct ((userId =? 0) || (clientId =? 0)); [by left |].
    destruct (filter _ (users (tables w))) as [|u rest]; [by left |].
    destruct (String.eqb (User.roles u) "admin"); [by left |].
    destruct (User.can_manage_hierarchy u
              && Js.truthy_id (User.client_id u)); [|by left].
    destruct (getAccessibleClients_returns userId (round_trip w))
      as [rows ->].
    apply (getAccessibleClients_console userId (round_trip w)).
Qed.

Lemma no_method_throws_witness :
  let w := Sample.boot Sample.db false 0 in
  3 ≠ 0 ∧ 5 ≠ 0 ∧ answers w = false ∧
  canUserManageClient 3 5 w
  = (Return false,
     logged "Error checking client management access:" (round_trip w)) ∧
  ∃ rows,
    fst (getAccessibleClients 3 w) = Return rows ∧
    canUserAccessClient 3 5 w
    = (Return (some_client 5 rows), snd (getAccessibleClients 3 w)).
Proof.
  intros w.
  assert (3 ≠ 0) as H3 by lia.
  assert (5 ≠ 0) as H5 by lia.
  pose proof (no_method_throws w)
    as (_ & _ & _ & _ & _ & _ & _ & _ & _ & _ & Haccess & Hmanage & _).
  exact (conj H3 (conj H5 (conj eq_refl
          (conj (Hmanage 3 5 H3 H5 eq_refl) (Haccess 3 5 H3 H5))))).
Defined.

(** X8.  Every row [getAccessibleClients] returns is a row of the client
    table, and for a principal other than the administrator every row
    returned is active, whatever the hierarchy paths hold. *)
Theorem accessible_rows_are_active_table_rows (w : World) (userId : Z)
    (rows : list Client.row) :
  fst (getAccessibleClients userId w) = Return rows →
  (∀ c, c ∈ rows → c ∈ client (tables w)) ∧
  (∀ u, principal w userId u → User.roles u ≠ "admin" →
        ∀ c, c ∈ rows → Client.is_active c = true).
Proof.
  rewrite getAccessibleClients_unfold.
  assert (∀ P : Client.row → Prop, ∀ c, c ∈ @nil Client.row → P c) as Hnil
    by (intros P c Hc; by apply elem_of_nil in Hc).
  destruct (userId =? 0) eqn:Hid.
  { intros [= <-]. split; [apply Hnil |]. intros u _ _. apply Hnil. }
  destruct (answers w); [|intros [= <-]; split;
                           [apply Hnil | intros u _ _; apply Hnil]].
  destruct (filter _ (users (tables w))) as [|u0 rest] eqn:Hu.
  { intros [= <-]. split; [apply Hnil |]. intros u _ _. apply Hnil. }
  assert (∀ u, principal w userId u → u = u0) as Hsame.
  { intros u [_ Hhead]. rewrite Hu in Hhead. by injection Hhead. }
  destruct (String.eqb (User.roles u0) "admin") eqn:Hadmin.
  { rewrite rows_or_caught_result.
    destruct (answers (round_trip w));
      [|intros [= <-]; split; [apply Hnil | intros u _ _; apply Hnil]].
    intros [= <-]. split.
    - intros c. by rewrite elem_of_order_by.
    - intros u ->%Hsame Hrole. by rewrite (not_admin _ Hrole) in Hadmin. }
  destruct (Js.includes (User.roles u0) "_admin"
            && Js.truthy_id (User.client_id u0)).
  { rewrite rows_or_caught_result.
    destruct (answers (round_trip w));
      [|intros [= <-]; split; [apply Hnil | intros u _ _; apply Hnil]].
    change (tables (round_trip w)) with (tables w).
    destruct (select_branch_clients _ (tables w)) as [rows'|e] eqn:Hsel;
      [|intros [= <-]; split; [apply Hnil | intros u _ _; apply Hnil]].
    intros [= <-]. split.
    - intros c Hc. by apply (select_branch_clients_active _ _ _ _ Hsel).
    - intros u _ _ c Hc.
      by apply (select_branch_clients_active _ _ _ _ Hsel). }
  destruct (Js.truthy_id (User.client_id u0));
    [|intros [= <-]; split; [apply Hnil | intros u _ _; apply Hnil]].
  rewrite rows_or_caught_result.
  destruct (answers (round_trip w));
    [|intros [= <-]; split; [apply Hnil | intros u _ _; apply Hnil]].
  intros [= <-]. split.
  - intros c [_ Hc]%list_elem_of_filter. done.
  - intros u _ _ c [[_ Hact] _]%list_elem_of_filter. done.
Qed.

Lemma accessible_rows_are_active_table_rows_witness :
  let w := Sample.boot Sample.db_with_closed_site true 0 in
  fst (getAccessibleClients 2 w) = Return [Sample.division2; Sample.site5] ∧
  (∀ c, c ∈ [Sample.division2; Sample.site5] → c ∈ client (tables w)) ∧
  (∀ u, principal w 2 u → User.roles u ≠ "admin" →
        ∀ c, c ∈ [Sample.division2; Sample.site5] →
             Client.is_active c = true).
Proof.
  intros w.
  exact (conj eq_refl
           (accessible_rows_are_active_table_rows w 2 _ eq_refl)).
Defined.

Section Decisions_on_clients.

(** The rows a principal other than the administrator receives when the
    assigned client has no row. *)
Lemma dangling_rows (w : World) (userId : Z) (u : User.row) (C : Z) :
  principal w userId u → User.roles u ≠ "admin" →
  User.client_id u = Some C →
  (∀ c, c ∈ client (tables w) → Client.client_id c ≠ C) →
  fst (getAccessibleClients userId w) = Return [].
Proof.
  intros [Hid [rest Hu]]%principal_lookup Hrole Hc Hnone.
  rewrite getAccessibleClients_unfold, Hid.
  destruct (answers w); [|done].
  rewrite Hu, (not_admin _ Hrole), Hc. simpl.
  destruct (Js.includes (User.roles u) "_admin" && negb (Js.falsy_number C)).
  - rewrite rows_or_caught_result. destruct (answers (round_trip w)); [|done].
    change (tables (round_trip w)) with (tables w).
    by rewrite select_branch_clients_dangling.
  - destruct (negb (Js.falsy_number C)); [|done].
    rewrite rows_or_caught_result. destruct (answers (round_trip w)); [|done].
    unfold select_own_client. f_equal.
    change (tables (round_trip w)) with (tables w).
    induction (client (tables w)) as [|c cs IH]; [done |].
    rewrite filter_cons_False.
    + apply IH. intros c' Hc'. apply Hnone. by right.
    + intros [Hidc _]. by apply (Hnone c); [left |].
Qed.

Lemma unknown_user_lookup (w : World) (userId : Z) :
  (∀ u, u ∈ users (tables w) → User.id u ≠ userId) →
  filter (λ x, User.id x = userId) (users (tables w)) = [].
Proof. intros Hnone. by apply (filter_key_absent User.id). Qed.

(** The result of [getAccessibleClients] is a matter of the tables and of
    the answers of the storage. *)
Lemma getAccessibleClients_surroundings (userId : Z) (w w' : World) :
  tables w' = tables w → answers w' = answers w →
  answers (round_trip w') = answers (round_trip w) →
  fst (getAccessibleClients userId w') = fst (getAccessibleClients userId w).
Proof.
  intros Ht Hon Hon'. rewrite !getAccessibleClients_unfold, Hon, Ht.
  assert (∀ statement : Tables → completion (list Client.row),
    fst (rows_or_caught statement (round_trip w'))
    = fst (rows_or_caught statement (round_trip w))) as Hsame.
  { intros statement. rewrite !rows_or_caught_result, Hon'.
    change (tables (round_trip w')) with (tables w').
    change (tables (round_trip w)) with (tables w). by rewrite Ht. }
  destruct (userId =? 0); [done |].
  destruct (answers w); [|done].
  destruct (filter _ (users (tables w))) as [|u rest]; [done |].
  destruct (String.eqb (User.roles u) "admin"); [apply Hsame |].
  destruct (Js.includes (User.roles u) "_admin"
            && Js.truthy_id (User.client_id u)); [apply Hsame |].
  destruct (Js.truthy_id (User.client_id u)); [apply Hsame | done].
Qed.

(** The rows of the administrator. *)
Lemma admin_rows (w : World) (userId : Z) (u : User.row) :
  principal w userId u → User.roles u = "admin" →
  answers w = true → answers (round_trip w) = true →
  fst (getAccessibleClients userId w)
  = Return (Sql.order_by Client.hierarchy_path (client (tables w))).
Proof.
  intros [Hid [rest Hu]]%principal_lookup Hrole Hon Hon'.
  rewrite getAccessibleClients_unfold, Hid, Hon, Hu, Hrole. simpl.
  by rewrite rows_or_caught_answered.
Qed.

(** The rows of a branch administrator over a consistent hierarchy. *)
Lemma branch_rows (w : World) (userId : Z) (u : User.row) (C : Z) :
  principal w userId u →
  answers w = true → answers (round_trip w) = true →
  Js.includes (User.roles u) "_admin" = true →
  User.client_id u = Some C → C ≠ 0 →
  hierarchy_consistent (client (tables w)) →
  ∃ rows, fst (getAccessibleClients userId w) = Return rows ∧
    ∀ c, c ∈ rows ↔
         c ∈ client (tables w) ∧ Client.is_active c = true ∧
         in_subtree (client (tables w)) C c.
Proof.
  intros [Hid [rest Hu]]%principal_lookup Hon Hon' Hincl Hc HC Hok.
  rewrite getAccessibleClients_unfold, Hid, Hon, Hu.
  rewrite (includes_not_admin _ Hincl), Hincl, Hc, (truthy_id_Some _ HC).
  simpl. rewrite rows_or_caught_answered by done.
  change (tables (round_trip w)) with (tables w).
  destruct (select_branch_clients_spec _ Hok (tables w) C eq_refl)
    as (rows & -> & Hrows).
  by exists rows.
Qed.

(** The rows of a regular user assigned to an active client. *)
Lemma regular_rows (w : World) (userId : Z) (u : User.row)
    (own : Client.row) :
  principal w userId u →
  answers w = true → answers (round_trip w) = true →
  User.roles u ≠ "admin" → Js.includes (User.roles u) "_admin" = false →
  User.client_id u = Some (Client.client_id own) →
  Client.client_id own ≠ 0 →
  NoDup (Client.client_id <$> client (tables w)) →
  own ∈ client (tables w) → Client.is_active own = true →
  fst (getAccessibleClients userId w) = Return [own].
Proof.
  intros Hp Hon Hon' Hrole Hincl Hc HC Hkey Hown Hactive.
  rewrite (own_client_rows w userId u _ Hp Hon Hon' Hrole Hincl Hc HC).
  f_equal. by apply filter_own_client.
Qed.

Lemma some_client_singleton (clientId : Z) (own : Client.row) :
  some_client clientId [own]
  = bool_decide (clientId = Client.client_id own).
Proof.
  unfold some_client. simpl. rewrite orb_false_r.
  destruct (Z.eqb_spec (Client.client_id own) clientId) as [<-|Hne].
  - by rewrite bool_decide_eq_true_2.
  - by rewrite bool_decide_eq_false_2.
Qed.

End Decisions_on_clients.

(** X9.  A principal other than the administrator whose assigned client has
    no row in the client table receives no client and is refused access to
    every client id, whatever the role name says. *)
Theorem dangling_assignment_sees_nothing (w : World) (userId : Z)
    (u : User.row) (C : Z) :
  principal w userId u → User.roles u ≠ "admin" →
  User.client_id u = Some C →
  (∀ c, c ∈ client (tables w) → Client.client_id c ≠ C) →
  fst (getAccessibleClients userId w) = Return [] ∧
  ∀ clientId,
    fst (canUserAccessClient userId clientId w) = Return false.
Proof.
  intros Hp Hrole Hc Hnone.
  pose proof (dangling_rows w userId u C Hp Hrole Hc Hnone) as Hrows.
  split; [done |]. intros clientId.
  rewrite canUserAccessClient_unfold, Hrows.
  by destruct ((userId =? 0) || (clientId =? 0)).
Qed.

Lemma dangling_assignment_sees_nothing_witness :
  let w := Sample.boot Sample.db_unterminated true 0 in
  let u := Sample.user 3 "viewer" (Some 5) true in
  principal w 3 u ∧ User.roles u ≠ "admin" ∧ User.client_id u = Some 5 ∧
  (∀ c, c ∈ client (tables w) → Client.client_id c ≠ 5) ∧
  fst (getAccessibleClients 3 w) = Return [] ∧
  ∀ clientId, fst (canUserAccessClient 3 clientId w) = Return false.
Proof.
  intros w u.
  assert (principal w 3 u) as Hp by (split; [lia | reflexivity]).
  assert (User.roles u ≠ "admin") as Hrole by discriminate.
  assert (∀ c, c ∈ client (tables w) → Client.client_id c ≠ 5) as Hnone.
  { intros c Hc. simpl in Hc.
    repeat (apply elem_of_cons in Hc as [->|Hc]); [..|by inversion Hc];
      simpl; lia. }
  exact (conj Hp (conj Hrole (conj eq_refl (conj Hnone
          (dangling_assignment_sees_nothing w 3 u 5 Hp Hrole eq_refl
             Hnone))))).
Defined.

(** X10.  For a user id that no row of the users table carries, the
    resolver fails closed: no clients, no access and no management for any
    client id, after the one lookup of the user. *)
Theorem unknown_user_is_refused (w : World) (userId : Z) :
  (∀ u, u ∈ users (tables w) → User.id u ≠ userId) →
  fst (getAccessibleClients userId w) = Return [] ∧
  (∀ clientId,
     fst (canUserAccessClient userId clientId w) = Return false ∧
     fst (canUserManageClient userId clientId w) = Return false) ∧
  (userId ≠ 0 →
   queries (snd (getAccessibleClients userId w)) = S (queries w)).
Proof.
  intros Hnone.
  pose proof (unknown_user_lookup w userId Hnone) as Hlookup.
  assert (fst (getAccessibleClients userId w) = Return []) as Hrows.
  { rewrite getAccessibleClients_unfold, Hlookup.
    destruct (userId =? 0); [done |]. by destruct (answers w). }
  split; [done |]. split.
  - intros clientId. split.
    + rewrite canUserAccessClient_unfold, Hrows.
      by destruct ((userId =? 0) || (clientId =? 0)).
    + rewrite canUserManageClient_unfold, Hlookup.
      destruct ((userId =? 0) || (clientId =? 0)); [done |].
      by destruct (answers w).
  - intros Hid. rewrite getAccessibleClients_unfold, Hlookup.
    rewrite (proj2 (Z.eqb_neq _ _) Hid). by destruct (answers w).
Qed.

Lemma unknown_user_is_refused_witness :
  let w := Sample.boot Sample.db true 0 in
  (∀ u, u ∈ users (tables w) → User.id u ≠ 99) ∧
  fst (getAccessibleClients 99 w) = Return [].
Proof.
  intros w.
  assert (∀ u, u ∈ users (tables w) → User.id u ≠ 99) as Hnone.
  { intros u Hu. simpl in Hu.
    repeat (apply elem_of_cons in Hu as [->|Hu]); [..|by inversion Hu];
      simpl; lia. }
  exact (conj Hnone (proj1 (unknown_user_is_refused w 99 Hnone))).
Defined.

(** X11.  Client scoping is computed afresh at every call:
    [getAccessibleClients] returns the same rows whatever the permission
    cache holds and whatever the clock reads, and it leaves the cache as it
    found it. *)
Theorem scoping_ignores_cache_and_clock (userId : Z) (w : World) :
  (∀ (f : gmap string CacheEntry → gmap string CacheEntry) (d : Z),
     fst (getAccessibleClients userId (elapse d (with_cache f w)))
     = fst (getAccessibleClients userId w)) ∧
  permissionCache (snd (getAccessibleClients userId w)) = permissionCache w.
Proof.
  split.
  - intros f d. by apply getAccessibleClients_surroundings.
  - rewrite getAccessibleClients_unfold.
    assert (∀ statement : Tables → completion (list Client.row),
      permissionCache (snd (rows_or_caught statement (round_trip w)))
      = permissionCache w) as Hsent.
    { intros statement.
      by destruct (rows_or_caught_world statement (round_trip w))
        as [-> | ->]. }
    destruct (userId =? 0); [done |].
    destruct (answers w); [|done].
    destruct (filter _ (users (tables w))) as [|u rest]; [done |].
    destruct (String.eqb (User.roles u) "admin"); [apply Hsent |].
    destruct (Js.includes (User.roles u) "_admin"
              && Js.truthy_id (User.client_id u)); [apply Hsent |].
    destruct (Js.truthy_id (User.client_id u)); [apply Hsent | done].
Qed.

(** X12.  A regular user assigned to an active client is granted access to
    that client and refused access to every other client id. *)
Theorem regular_user_accesses_own_client_only (w : World)
    (userId clientId : Z) (u : User.row) (own : Client.row) :
  principal w userId u →
  answers w = true → answers (round_trip w) = true →
  User.roles u ≠ "admin" → Js.includes (User.roles u) "_admin" = false →
  User.client_id u = Some (Client.client_id own) →
  Client.client_id own ≠ 0 →
  NoDup (Client.client_id <$> client (tables w)) →
  own ∈ client (tables w) → Client.is_active own = true →
  clientId ≠ 0 →
  fst (canUserAccessClient userId clientId w)
  = Return (bool_decide (clientId = Client.client_id own)).
Proof.
  intros Hp Hon Hon' Hrole Hincl Hc HC Hkey Hown Hactive Hclient.
  rewrite (canUserAccessClient_rows userId clientId w [own]);
    [by rewrite some_client_singleton | apply Hp | done |].
  by apply (regular_rows w userId u own).
Qed.

Lemma regular_user_accesses_own_client_only_witness :
  let w := Sample.boot Sample.db true 0 in
  let u := Sample.user 3 "viewer" (Some 5) true in
  principal w 3 u ∧
  fst (canUserAccessClient 3 2 w)
  = Return (bool_decide (2 = Client.client_id Sample.site5)).
Proof.
  intros w u.
  assert (principal w 3 u) as Hp by (split; [lia | reflexivity]).
  assert (User.roles u ≠ "admin") as Hrole by discriminate.
  assert (Client.client_id Sample.site5 ≠ 0) as Hid by (simpl; lia).
  assert (NoDup (Client.client_id <$> client (tables w))) as Hkey
    by apply sample_consistent.
  assert (Sample.site5 ∈ client (tables w)) as Hown
    by (do 2 right; left).
  assert (2 ≠ 0) as H2 by lia.
  exact (conj Hp
          (regular_user_accesses_own_client_only w 3 2 u Sample.site5 Hp
             eq_refl eq_refl Hrole eq_refl eq_refl Hid Hkey Hown eq_refl
             H2)).
Defined.

(** X13.  Over a consistent hierarchy, a branch administrator assigned to
    client [C] is granted access to a client id exactly when an active row
    of the closed subtree rooted at [C] carries that id. *)
Theorem branch_admin_accesses_subtree_only (w : World)
    (userId clientId : Z) (u : User.row) (C : Z) :
  principal w userId u →
  answers w = true → answers (round_trip w) = true →
  Js.includes (User.roles u) "_admin" = true →
  User.client_id u = Some C → C ≠ 0 →
  hierarchy_consistent (client (tables w)) →
  clientId ≠ 0 →
  ∃ b, fst (canUserAccessClient userId clientId w) = Return b ∧
       (b = true ↔
        ∃ c, c ∈ client (tables w) ∧ Client.client_id c = clientId ∧
             Client.is_active c = true ∧
             in_subtree (client (tables w)) C c).
Proof.
  intros Hp Hon Hon' Hincl Hc HC Hok Hclient.
  destruct (branch_rows w userId u C Hp Hon Hon' Hincl Hc HC Hok)
    as (rows & Hrows & Hin).
  exists (some_client clientId rows). split.
  - apply canUserAccessClient_rows; [apply Hp | done | done].
  - rewrite some_client_true. split.
    + intros (c & Hc' & Hid). apply Hin in Hc' as (? & ? & ?). eauto.
    + intros (c & Hc' & Hid & Hact & Hsub). exists c.
      split; [by apply Hin | done].
Qed.

Lemma branch_admin_accesses_subtree_only_witness :
  let w := Sample.boot Sample.db true 0 in
  let u := Sample.user 2 "paddy_admin" (Some 2) false in
  principal w 2 u ∧ hierarchy_consistent (client (tables w)) ∧
  ∃ b, fst (canUserAccessClient 2 6 w) = Return b ∧
       (b = true ↔
        ∃ c, c ∈ client (tables w) ∧ Client.client_id c = 6 ∧
             Client.is_active c = true ∧
             in_subtree (client (tables w)) 2 c).
Proof.
  intros w u.
  assert (principal w 2 u) as Hp by (split; [lia | reflexivity]).
  assert (2 ≠ 0) as H2 by lia.
  assert (6 ≠ 0) as H6 by lia.
  exact (conj Hp (conj sample_consistent
          (branch_admin_accesses_subtree_only w 2 6 u 2 Hp eq_refl eq_refl
             eq_refl eq_refl H2 sample_consistent H6))).
Defined.

(** X14.  An administrator is granted access to a client id exactly when a
    row of the client table, active or not, carries it; but
    [canUserManageClient] grants the administrator every client id other
    than zero after the lookup of the user alone, without looking at the
    client table. *)
Theorem admin_manages_without_lookup (w : World) (userId clientId : Z)
    (u : User.row) :
  principal w userId u → User.roles u = "admin" →
  answers w = true → clientId ≠ 0 →
  canUserManageClient userId clientId w = (Return true, round_trip w) ∧
  (answers (round_trip w) = true →
   ∃ b, fst (canUserAccessClient userId clientId w) = Return b ∧
        (b = true ↔
         ∃ c, c ∈ client (tables w) ∧ Client.client_id c = clientId)).
Proof.
  intros Hp Hrole Hon Hclient.
  destruct (principal_lookup _ _ _ Hp) as [Hid [rest Hu]]. split.
  - rewrite canUserManageClient_unfold, Hid, Hon, Hu, Hrole.
    by rewrite (proj2 (Z.eqb_neq _ _) Hclient).
  - intros Hon'.
    exists (some_client clientId
              (Sql.order_by Client.hierarchy_path (client (tables w)))).
    split.
    + apply canUserAccessClient_rows; [apply Hp | done |].
      by apply (admin_rows w userId u).
    + rewrite some_client_true. split.
      * intros (c & Hc & Hidc). exists c.
        split; [by apply elem_of_order_by in Hc | done].
      * intros (c & Hc & Hidc). exists c.
        split; [by apply elem_of_order_by | done].
Qed.

Lemma admin_manages_without_lookup_witness :
  let w := Sample.boot Sample.db true 0 in
  let u := Sample.user 1 "admin" (Some 6) false in
  principal w 1 u ∧ User.roles u = "admin" ∧ answers w = true ∧ 77 ≠ 0 ∧
  canUserManageClient 1 77 w = (Return true, round_trip w).
Proof.
  intros w u.
  assert (principal w 1 u) as Hp by (split; [lia | reflexivity]).
  assert (77 ≠ 0) as H77 by lia.
  exact (conj Hp (conj eq_refl (conj eq_refl (conj H77
          (proj1 (admin_manages_without_lookup w 1 77 u Hp eq_refl eq_refl
                    H77)))))).
Defined.

(** X15.  For a principal other than the administrator that is flagged
    [can_manage_hierarchy] and assigned to a client, [canUserManageClient]
    is [canUserAccessClient] run after the lookup of the user: the same
    answer and the same state of the process. *)
Theorem manage_is_access_when_flagged (w : World) (userId clientId : Z)
    (u : User.row) :
  principal w userId u → User.roles u ≠ "admin" →
  User.can_manage_hierarchy u = true →
  Js.truthy_id (User.client_id u) = true →
  answers w = true → clientId ≠ 0 →
  canUserManageClient userId clientId w
  = canUserAccessClient userId clientId (round_trip w).
Proof.
  intros Hp Hrole Hflag Hassigned Hon Hclient.
  destruct (principal_lookup _ _ _ Hp) as [Hid [rest Hu]].
  rewrite canUserManageClient_unfold, canUserAccessClient_unfold.
  rewrite Hid, (proj2 (Z.eqb_neq _ _) Hclient), Hon, Hu.
  rewrite (not_admin _ Hrole), Hflag, Hassigned. simpl.
  destruct (getAccessibleClients_returns userId (round_trip w)) as [rows ->].
  done.
Qed.

Lemma manage_is_access_when_flagged_witness :
  let w := Sample.boot Sample.db true 0 in
  let u := Sample.user 3 "viewer" (Some 5) true in
  principal w 3 u ∧
  canUserManageClient 3 5 w = canUserAccessClient 3 5 (round_trip w).
Proof.
  intros w u.
  assert (principal w 3 u) as Hp by (split; [lia | reflexivity]).
  assert (User.roles u ≠ "admin") as Hrole by discriminate.
  assert (5 ≠ 0) as H5 by lia.
  exact (conj Hp
          (manage_is_access_when_flagged w 3 5 u Hp Hrole eq_refl eq_refl
             eq_refl H5)).
Defined.



(** ** The dashboards seen by a role *)

Section Dashboards.

Lemma getAccessibleDashboards_unfold (role : string) (clientId : option Z)
    (w : World) :
  ∃ m, getUserPermissions role w = (Return m, snd (getUserPermissions role w))
       ∧ getAccessibleDashboards role clientId w
         = (Return (listing m), snd (getUserPermissions role w)).
Proof.
  destruct (getUserPermissions_returns role w) as [m Hm].
  unfold getAccessibleDashboards, bind.
  destruct (getUserPermissions role w) as [[m'|e] w'];
    [|simpl in Hm; discriminate].
  by exists m'.
Qed.

(** The own properties of the permission object: every name it was
    assigned but [__proto__]. *)
Lemma elem_of_Object_entries {V : Type} (obj : gmap string V)
    (name : string) (value : V) :
  (name, value) ∈ Object_entries obj ↔
  name ≠ "__proto__" ∧ obj !! name = Some value.
Proof.
  unfold Object_entries.
  by rewrite list_elem_of_filter, elem_of_map_to_list.
Qed.

Lemma elem_of_listing (m : PermissionObj) (dashboardName : string) :
  (∃ x, x ∈ listing m ∧ AccessibleDashboard.name x = dashboardName) ↔
  dashboardName ≠ "__proto__" ∧ grants_access m dashboardName = true.
Proof.
  unfold listing, grants_access. split.
  - intros (x & Hx & Hname).
    apply list_elem_of_bind in Hx as ([D p] & Hx & Hentry).
    apply elem_of_Object_entries in Hentry as [Hown Hentry]. simpl in Hx.
    destruct (Permission.can_access p) eqn:Hp;
      [|by apply elem_of_nil in Hx].
    apply list_elem_of_singleton in Hx. subst. simpl.
    by rewrite Hentry.
  - intros [Hown Hgrant].
    destruct (m !! dashboardName) as [p|] eqn:Hentry; [|done].
    exists {| AccessibleDashboard.name := dashboardName;
              AccessibleDashboard.display_name := Permission.display_name p |}.
    split; [|done].
    apply list_elem_of_bind. exists (dashboardName, p).
    split; [|by apply elem_of_Object_entries].
    simpl. rewrite Hgrant. by apply list_elem_of_singleton.
Qed.

End Dashboards.

(** X17.  [canAccessIoTDashboard] and [canAccessMotorDashboard] are
    [hasPermission] at the names [iot_dashboard] and [motor_dashboard]: the
    same answer and the same effect on the process for every role, the
    deprecated client id having no influence. *)
Theorem dashboard_checks_are_hasPermission (role : string)
    (clientId : option Z) (w : World) :
  canAccessIoTDashboard role clientId w
  = hasPermission role "iot_dashboard" w ∧
  canAccessMotorDashboard role clientId w
  = hasPermission role "motor_dashboard" w.
Proof.
  assert (∀ dashboardName,
    dashboardName ≠ "" →
    (if String.eqb role "admin" then ret true
     else let* hasRolePermission := hasPermission role dashboardName in
          ret hasRolePermission) w
    = hasPermission role dashboardName w) as Hsame.
  { intros dashboardName Hname.
    destruct (String.eqb role "admin") eqn:Hadmin.
    - apply String.eqb_eq in Hadmin as ->. unfold hasPermission.
      by rewrite (truthy_string _ Hname).
    - unfold bind.
      destruct (hasPermission_returns role dashboardName w) as [b Hb].
      destruct (hasPermission role dashboardName w) as [[b'|e] w'];
        [done | simpl in Hb; discriminate]. }
  split; by apply Hsame.
Qed.

(** X18.  For a role other than admin, [getAccessibleDashboards] lists a
    dashboard with a non-empty name exactly when the name is not
    [__proto__] and [hasPermission] grants it in the same state, and the
    call affects the process as [getUserPermissions] does.  A dashboard
    named [__proto__] is never listed, although [hasPermission] grants it
    to a role the matrix grants it to: the viewer of the installation with
    such a dashboard is granted it and is listed the IoT dashboard
    alone. *)
Theorem listing_agrees_with_hasPermission :
  (∀ (role dashboardName : string) (clientId : option Z) (w : World)
     (l : list AccessibleDashboard.t),
     role ≠ "admin" → dashboardName ≠ "" →
     fst (getAccessibleDashboards role clientId w) = Return l →
     ((∃ x, x ∈ l ∧ AccessibleDashboard.name x = dashboardName) ↔
      dashboardName ≠ "__proto__" ∧
      fst (hasPermission role dashboardName w) = Return true) ∧
     snd (getAccessibleDashboards role clientId w)
     = snd (getUserPermissions role w)) ∧
  fst (hasPermission "viewer" "__proto__"
         (Sample.boot Sample.db_proto true 0)) = Return true ∧
  fst (getAccessibleDashboards "viewer" None
         (Sample.boot Sample.db_proto true 0))
  = Return [ {| AccessibleDashboard.name := "iot_dashboard";
                AccessibleDashboard.display_name := "IoT Device Dashboard" |} ].
Proof.
  split; [|split; vm_compute; reflexivity].
  intros role dashboardName clientId w l Hrole Hname.
  destruct (getAccessibleDashboards_unfold role clientId w)
    as (m & Hm & ->).
  intros [= <-]. split; [|done].
  rewrite elem_of_listing, hasPermission_unfold by done.
  rewrite (truthy_string _ Hname), orb_false_r, Hm.
  destruct (Js.falsy_string role) eqn:Hfalsy.
  - destruct role; [|done]. injection Hm as <-.
    rewrite grants_access_empty. split; intros [_ H]; discriminate H.
  - simpl. split; intros [Hown H]; (split; [done |]);
      [by rewrite H | by injection H].
Qed.

Lemma listing_agrees_with_hasPermission_witness :
  let w := Sample.boot Sample.db_proto true 0 in
  "viewer" ≠ "admin" ∧ "iot_dashboard" ≠ "" ∧
  ∃ l, fst (getAccessibleDashboards "viewer" None w) = Return l ∧
       ((∃ x, x ∈ l ∧ AccessibleDashboard.name x = "iot_dashboard") ↔
        "iot_dashboard" ≠ "__proto__" ∧
        fst (hasPermission "viewer" "iot_dashboard" w) = Return true).
Proof.
  intros w.
  assert ("viewer" ≠ "admin") as Hrole by discriminate.
  assert ("iot_dashboard" ≠ "") as Hname by discriminate.
  destruct (getAccessibleDashboards_unfold "viewer" None w) as (m & _ & Hl).
  exact (conj Hrole (conj Hname
          (ex_intro _ (listing m)
             (conj (f_equal fst Hl)
                (proj1 (proj1 listing_agrees_with_hasPermission "viewer"
                          "iot_dashboard" None w (listing m) Hrole Hname
                          (f_equal fst Hl))))))).
Defined.

(** X19.  [getAccessibleDashboards] has no bypass for the administrator:
    with a coherent cache every dashboard it lists for admin is granted to
    admin by an entry of the matrix, and it lists none when the matrix
    holds no entry for admin, although [hasPermission] grants admin every
    named dashboard. *)
Theorem listing_has_no_admin_bypass (clientId : option Z) (w : World)
    (l : list AccessibleDashboard.t) :
  cache_coherent "admin" w →
  fst (getAccessibleDashboards "admin" clientId w) = Return l →
  (∀ x, x ∈ l →
        ∃ rp d, rp ∈ role_permissions (tables w) ∧ d ∈ dashboards (tables w) ∧
                grants "admin" rp d = true ∧
                Dashboard.name d = AccessibleDashboard.name x) ∧
  ((∀ rp, rp ∈ role_permissions (tables w) →
          RolePermission.role_name rp ≠ "admin") → l = []) ∧
  (∀ dashboardName, dashboardName ≠ "" →
     fst (hasPermission "admin" dashboardName w) = Return true).
Proof.
  intros Hco.
  destruct (getAccessibleDashboards_unfold "admin" clientId w)
    as (m & Hm & ->).
  intros [= <-].
  assert (∀ x, x ∈ listing m →
    ∃ rp d, rp ∈ role_permissions (tables w) ∧ d ∈ dashboards (tables w) ∧
            grants "admin" rp d = true ∧
            Dashboard.name d = AccessibleDashboard.name x) as Hlisted.
  { intros x Hx.
    assert (grants_access m (AccessibleDashboard.name x) = true) as Hg
      by (apply (elem_of_listing m); eauto).
    destruct (getUserPermissions_coherent "admin" w Hco) as [Hres|Hres];
      rewrite Hm in Hres; injection Hres as ->.
    - by apply grants_access_resolved.
    - by rewrite grants_access_empty in Hg. }
  split; [done |]. split.
  - intros Hnone. destruct (listing m) as [|x rest] eqn:Hl; [done |].
    destruct (Hlisted x) as (rp & d & Hrp & _ & Hg & _); [left |].
    apply grants_true in Hg as (_ & Hrole & _). by apply Hnone in Hrp.
  - intros dashboardName Hname. unfold hasPermission.
    by rewrite (truthy_string _ Hname).
Qed.

Lemma listing_has_no_admin_bypass_witness :
  let w := Sample.boot Sample.db true 0 in
  cache_coherent "admin" w ∧
  fst (getAccessibleDashboards "admin" None w) = Return [] ∧
  fst (hasPermission "admin" "iot_dashboard" w) = Return true.
Proof.
  intros w.
  assert (cache_coherent "admin" w) as Hco
    by (by apply empty_cache_coherent).
  assert ("iot_dashboard" ≠ "") as Hname by discriminate.
  exact (conj Hco (conj eq_refl
          (proj2 (proj2 (listing_has_no_admin_bypass None w [] Hco eq_refl))
             "iot_dashboard" Hname))).
Defined.
